(** * The action-dispatch path of the runtime: callable container,
      parcel transport and coroutine run loop

    Three parts of the program are embedded here, each in a module
    of its own:

    - [Callable]: [function_base] and [basic_function] of
      [hpx/util/detail/basic_function.hpp], over an explicit store of
      containers and heap blocks;
    - [Parcelport]: [parcelport::send_parcel],
      [parcelport::send_pending_parcels], [handle_read_completion] and
      [call_for_each] of [src/runtime/parcelset/parcelport.cpp], as
      state-passing code that records its outward effects in a trace;
    - [Coroutine]: [reset_self_on_exit] and
      [coroutine_impl::operator()] of the coroutine implementation
      file.

    [Parcelport] also embeds [parcelport::run], [parcelport::stop] and
    the destructor, over the members they touch and a trace of their
    own.

    The definitions come first, the theorems follow. *)

From stdpp Require Import gmap strings list fin_maps.

Open Scope N_scope.

(* ===================================================================== *)
(** * Type-erased callable container *)
(* ===================================================================== *)

Module Callable.

(** ** Values stored in a container *)

(** The overloads of [is_empty_function] select on the static kind of
    the argument: a function pointer, a pointer to member, another
    function wrapper, or anything else. *)
Inductive kind :=
| function_pointer
| member_pointer
| function_wrapper
| function_object.

(** A C++ type [T] that can be stored: its name, its kind and
    [sizeof(T)]. *)
Record ctype := CType {
  ty_name : string;
  ty_kind : kind;
  ty_size : N
}.

#[global] Instance kind_eq_dec : EqDecision kind.
Proof. solve_decision. Defined.

#[global] Instance ctype_eq_dec : EqDecision ctype.
Proof. solve_decision. Defined.

(** A value [f] of type [c_type f].  [c_null] says that a pointer is
    [nullptr], or that a wrapped function is empty; [c_data] stands for
    the rest of the value. *)
Record callable := MkCallable {
  c_type : ctype;
  c_null : bool;
  c_data : N
}.

#[global] Instance callable_eq_dec : EqDecision callable.
Proof. solve_decision. Defined.

(** [std::size_t] is taken to be 64 bits wide, [sizeof(void* )] to be 8. *)
Definition size_max : N := 2 ^ 64 - 1.
Definition sizeof_void_ptr : N := 8.
Definition function_storage_size : N := 3 * sizeof_void_ptr.

Definition sizeof_ (T : ctype) : N := ty_size T mod 2 ^ 64.

(** [is_empty_function(F* fp)], [is_empty_function(T C::*mp)],
    [is_empty_function_impl(function_base const* f)] and
    [is_empty_function_impl(...)]. *)
Definition is_empty_function (f : callable) : bool :=
  match ty_kind (c_type f) with
  | function_pointer => c_null f
  | member_pointer => c_null f
  | function_wrapper => c_null f
  | function_object => false
  end.

(** ** Pointers *)

(** [vtable const*]: null, the table returned by
    [get_empty_function_vtable<vtable>()], or the table returned by
    [get_vtable<T>()]. *)
Inductive vtable_ptr :=
| VNull
| VEmpty
| VOf (T : ctype).

#[global] Instance vtable_ptr_eq_dec : EqDecision vtable_ptr.
Proof. solve_decision. Defined.

(** [void*]: null, the address of the inline [storage] of the container
    at address [c], or the address of a heap block. *)
Inductive ptr :=
| Null
| Storage (c : N)
| Heap (a : N).

#[global] Instance ptr_eq_dec : EqDecision ptr.
Proof. solve_decision. Defined.

(** Modelled from the spec: the tables themselves are declared in
    [vtable.hpp] and [empty_function.hpp], which are not among the
    sources.  The table for the empty state is "a fixed sentinel shared
    by all instances"; the table of a type is one object per type. *)
Definition get_empty_function_vtable : vtable_ptr := VEmpty.
Definition get_vtable (T : ctype) : vtable_ptr := VOf T.

(** The payload type behind the sentinel: "trivial and empty". *)
Definition empty_function_type : ctype :=
  CType "empty_function" function_object 1.

(** ** The container and the store *)

(** [function_base] and, for the serializable variant, the extra
    member [serializable_vptr] of [basic_function].  [storage] holds the
    payload that lives in the inline buffer, if any.  A
    [serializable_function_vtable] instance is identified by its type,
    [None] is [nullptr]. *)
Record basic_function := BasicFunction {
  vptr : vtable_ptr;
  object : ptr;
  storage : option callable;
  serializable_vptr : option ctype
}.

(** Containers by address, live heap payloads by address, the set of
    allocated heap blocks, and the next address [operator new] hands
    out. *)
Record mem := Mem {
  objs : gmap N basic_function;
  heap : gmap N callable;
  blocks : gset N;
  next_addr : N
}.


Inductive exn :=
| bad_function_call
| unknown_callable_type (name : string).

(** Result of running a piece of code: a value, an exception, or
    undefined behaviour ([Undef]): a call through a null table, a failed
    [HPX_ASSERT], [delete] of something that is not a heap block, or the
    use of a container that was never constructed. *)
Inductive res (A : Type) :=
| Val (a : A) (m : mem)
| Exn (e : exn) (m : mem)
| Undef.

Arguments Val {A} a m.
Arguments Exn {A} e m.
Arguments Undef {A}.

Definition M (A : Type) : Type := mem → res A.

Definition ret {A} (a : A) : M A := λ m, Val a m.

Definition bind {A B} (c : M A) (k : A → M B) : M B :=
  λ m, match c m with
       | Val a m' => k a m'
       | Exn e m' => Exn e m'
       | Undef => Undef
       end.

Definition throw {A} (e : exn) : M A := λ m, Exn e m.
Definition undef {A} : M A := λ _, Undef.

Notation "x <- c ;; k" := (bind c (λ x, k))
  (at level 100, c at next level, right associativity).
Notation "c ;;; k" := (bind c (λ _, k))
  (at level 100, right associativity).

Definition HPX_ASSERT (b : bool) : M unit :=
  if b then ret tt else undef.

(** *** Member access *)

Definition get_fn (c : N) : M basic_function :=
  λ m, match objs m !! c with
       | Some fb => Val fb m
       | None => Undef
       end.

Definition put_fn (c : N) (fb : basic_function) : M unit :=
  λ m, Val tt (Mem (<[c := fb]> (objs m)) (heap m) (blocks m) (next_addr m)).

Definition get_vptr (c : N) : M vtable_ptr := fb <- get_fn c ;; ret (vptr fb).
Definition get_object (c : N) : M ptr := fb <- get_fn c ;; ret (object fb).
Definition get_storage (c : N) : M (option callable) :=
  fb <- get_fn c ;; ret (storage fb).
Definition get_serializable_vptr (c : N) : M (option ctype) :=
  fb <- get_fn c ;; ret (serializable_vptr fb).

Definition set_vptr (c : N) (v : vtable_ptr) : M unit :=
  fb <- get_fn c ;;
  put_fn c (BasicFunction v (object fb) (storage fb) (serializable_vptr fb)).

Definition set_object (c : N) (p : ptr) : M unit :=
  fb <- get_fn c ;;
  put_fn c (BasicFunction (vptr fb) p (storage fb) (serializable_vptr fb)).

Definition set_storage (c : N) (s : option callable) : M unit :=
  fb <- get_fn c ;;
  put_fn c (BasicFunction (vptr fb) (object fb) s (serializable_vptr fb)).

Definition set_serializable_vptr (c : N) (s : option ctype) : M unit :=
  fb <- get_fn c ;;
  put_fn c (BasicFunction (vptr fb) (object fb) (storage fb) s).

(** *** Memory behind a [void*] *)

(** The payload found at [p]; [None] when no object lives there. *)
Definition read_at (p : ptr) : M (option callable) :=
  match p with
  | Null => undef
  | Storage c => get_storage c
  | Heap a => λ m, Val (heap m !! a) m
  end.

Definition write_at (p : ptr) (v : option callable) : M unit :=
  match p with
  | Null => undef
  | Storage c => set_storage c v
  | Heap a =>
      λ m, Val tt (Mem (objs m)
                       (match v with
                        | Some x => <[a := x]> (heap m)
                        | None => delete a (heap m)
                        end)
                       (blocks m) (next_addr m))
  end.

(** [::new (buffer) T(...)]: the object now lives at [buffer], and the
    expression has the value [buffer]. *)
Definition placement_new (buffer : ptr) (v : option callable) : M ptr :=
  write_at buffer v ;;; ret buffer.

(** [vtable::get<T>(p).~T()]. *)
Definition destroy_at (p : ptr) : M unit := write_at p None.

Definition operator_new : M ptr :=
  λ m, Val (Heap (next_addr m))
           (Mem (objs m) (heap m) ({[next_addr m]} ∪ blocks m)
                (N.succ (next_addr m))).

Definition operator_delete (p : ptr) : M unit :=
  match p with
  | Heap a =>
      λ m, if decide (a ∈ blocks m)
           then Val tt (Mem (objs m) (delete a (heap m))
                            (blocks m ∖ {[a]}) (next_addr m))
           else Undef
  | _ => undef
  end.

(** *** Entries of a dispatch table *)

(** Modelled from the spec: [vtable.hpp] is not among the sources.
    "pick inline storage if the new value's size [...] fit the fixed
    buffer, else allocate". *)
Definition allocate (T : ctype) (storage : ptr) (size : N) : M ptr :=
  if size <? sizeof_ T then operator_new else ret storage.

(** Modelled from the spec: [vtable.hpp] is not among the sources.
    The payload is destructed when [destroy] is set, and its block is
    released when it did not fit the buffer of the given size. *)
Definition deallocate (T : ctype) (obj : ptr) (size : N) (destroy : bool)
  : M unit :=
  (if destroy then destroy_at obj else ret tt) ;;;
  if size <? sizeof_ T then operator_delete obj else ret tt.

(** Modelled from the spec: [vtable.hpp] is not among the sources.
    Copy-constructs the payload at [src] into the buffer chosen by
    [allocate], after destructing what the buffer holds when [destroy]
    is set. *)
Definition copy (T : ctype) (storage : ptr) (size : N) (src : ptr)
    (destroy : bool) : M ptr :=
  (if destroy then destroy_at storage else ret tt) ;;;
  buffer <- allocate T storage size ;;
  v <- read_at src ;;
  placement_new buffer v.

(** The type whose table [v] points to; a call through a null table
    pointer is undefined. *)
Definition deref_vtable (v : vtable_ptr) : M ctype :=
  match v with
  | VNull => undef
  | VEmpty => ret empty_function_type
  | VOf T => ret T
  end.

(** ** [function_base] *)


(** [function_base(function_base const& other)]. *)
Definition copy_ctor (this other : N) : M unit :=
  o <- get_fn other ;;
  put_fn this (BasicFunction (vptr o) (object o) None None) ;;;
  if decide (object o ≠ Null) then
    v <- get_vptr this ;;
    T <- deref_vtable v ;;
    oo <- get_object other ;;
    p <- copy T (Storage this) function_storage_size oo false ;;
    set_object this p
  else ret tt.

(** [function_base(function_base&& other) noexcept]. *)
Definition move_ctor (this other : N) : M unit :=
  o <- get_fn other ;;
  put_fn this (BasicFunction (vptr o) (object o) None None) ;;;
  obj <- get_object this ;;
  (if decide (obj = Storage other) then
     s <- get_storage other ;;
     set_storage this s ;;;
     set_object this (Storage this)
   else ret tt) ;;;
  set_vptr other get_empty_function_vtable ;;;
  set_object other Null.

(** [void destroy() noexcept]. *)
Definition destroy (this : N) : M unit :=
  obj <- get_object this ;;
  if decide (obj ≠ Null) then
    v <- get_vptr this ;;
    T <- deref_vtable v ;;
    deallocate T obj function_storage_size true
  else ret tt.


(** [void reset() noexcept]. *)
Definition reset (this : N) : M unit :=
  destroy this ;;;
  set_vptr this get_empty_function_vtable ;;;
  set_object this Null.

(** [function_base& operator=(function_base const& other)]. *)
Definition copy_assign (this other : N) : M unit :=
  v <- get_vptr this ;;
  ov <- get_vptr other ;;
  if decide (v = ov) then
    obj <- get_object this ;;
    if decide (this ≠ other ∧ obj ≠ Null) then
      oo <- get_object other ;;
      HPX_ASSERT (bool_decide (oo ≠ Null)) ;;;
      T <- deref_vtable v ;;
      p <- copy T obj size_max oo true ;;
      set_object this p
    else ret tt
  else
    destroy this ;;;
    ov <- get_vptr other ;;
    set_vptr this ov ;;;
    oo <- get_object other ;;
    if decide (oo ≠ Null) then
      v' <- get_vptr this ;;
      T <- deref_vtable v' ;;
      p <- copy T (Storage this) function_storage_size oo false ;;
      set_object this p
    else set_object this Null.

(** [void swap(function_base& f) noexcept]. *)
Definition swap (this f : N) : M unit :=
  (* std::swap(vptr, f.vptr) *)
  v <- get_vptr this ;; fv <- get_vptr f ;;
  set_vptr this fv ;;; set_vptr f v ;;;
  (* std::swap(object, f.object) *)
  o <- get_object this ;; fo <- get_object f ;;
  set_object this fo ;;; set_object f o ;;;
  (* std::swap(storage, f.storage) *)
  s <- get_storage this ;; fs <- get_storage f ;;
  set_storage this fs ;;; set_storage f s ;;;
  o <- get_object this ;;
  (if decide (o = Storage f) then set_object this (Storage this)
   else ret tt) ;;;
  fo <- get_object f ;;
  (if decide (fo = Storage this) then set_object f (Storage f)
   else ret tt).



(** [template <typename F> void assign(F&& f)], with
    [T = std::decay<F>::type] the type of [f]. *)
Definition assign (this : N) (f : callable) : M unit :=
  if negb (is_empty_function f) then
    let T := c_type f in
    let f_vptr := get_vtable T in
    v <- get_vptr this ;;
    buffer <-
      (if decide (v = f_vptr) then
         obj <- get_object this ;;
         HPX_ASSERT (bool_decide (obj ≠ Null)) ;;;
         (* reuse object storage *)
         destroy_at obj ;;;
         ret obj
       else
         destroy this ;;;
         set_vptr this f_vptr ;;;
         allocate T (Storage this) function_storage_size) ;;
    p <- placement_new buffer (Some f) ;;
    set_object this p
  else reset this.

(** [bool empty() const noexcept]. *)
Definition empty (fb : basic_function) : bool :=
  bool_decide (object fb = Null).

(** [template <typename T> T* target() noexcept]: the address of the
    payload, or [nullptr]. *)
Definition target (T : ctype) (fb : basic_function) : ptr :=
  let f_vptr := get_vtable T in
  if decide (vptr fb ≠ f_vptr ∨ empty fb = true) then Null else object fb.

(** [R operator()(Ts... vs) const]: [vptr->invoke(object, vs...)].
    Modelled from the spec: the entries are declared outside the
    sources; the sentinel's entry "fails with [EmptyCallable]", the entry
    of a type runs the payload found at [object], which is the value
    returned here. *)
Definition invoke (this : N) : M (option callable) :=
  fb <- get_fn this ;;
  match vptr fb with
  | VNull => undef
  | VEmpty => throw bad_function_call
  | VOf _ => read_at (object fb)
  end.

(** ** [basic_function<Sig, Copyable, true>] *)

Definition sv_vptr (sv : ctype) : vtable_ptr := get_vtable sv.
Definition sv_name (sv : ctype) : string := ty_name sv.



(** Modelled from the spec: the archive is a collaborator with
    "byte-oriented [write(T)]/[read(T)] primitives".  An input archive
    positioned at a saved callable yields, in this order, the empty
    flag, the type name and the bytes of the payload. *)
Record input_archive := InputArchive {
  ar_is_empty : bool;
  ar_name : string;
  ar_payload : N
}.

(** Modelled from the spec: the registry is a collaborator,
    "[lookup(name) -> dispatch_table-or-none], process-wide". *)
Definition registry := gmap string ctype.

(** Modelled from the spec: [detail::get_serializable_vtable<vtable>(name)]
    is declared outside the sources; it "looks it up in a process-wide
    type→dispatch-table registry, and fails with [UnknownCallableType]
    if absent". *)
Definition get_serializable_vtable_by_name (reg : registry) (name : string)
  : M ctype :=
  match reg !! name with
  | Some sv => ret sv
  | None => throw (unknown_callable_type name)
  end.

(** Modelled from the spec: [serializable_vtable::load_object] is
    declared outside the sources; it "reconstructs the payload from the
    archive into inline or heap storage as appropriate". *)
Definition load_object (T : ctype) (storage : ptr) (size : N)
    (ar : input_archive) : M ptr :=
  buffer <- allocate T storage size ;;
  placement_new buffer (Some (MkCallable T false (ar_payload ar))).

(** [void load(serialization::input_archive& ar, unsigned const version)]. *)
Definition load (reg : registry) (this : N) (ar : input_archive) : M unit :=
  reset this ;;;
  let is_empty := ar_is_empty ar in
  if negb is_empty then
    let name := ar_name ar in
    sv <- get_serializable_vtable_by_name reg name ;;
    set_serializable_vptr this (Some sv) ;;;
    set_vptr this (sv_vptr sv) ;;;
    p <- load_object sv (Storage this) function_storage_size ar ;;
    set_object this p
  else ret tt.

(** ** Operations as data, to speak about every operation at once *)






(** ** The invariant *)

(** Of one container at address [c], given the heap and the allocated
    blocks: either it is empty and its table is the sentinel, or its
    table is that of a type [T] and [object] points to a live payload of
    type [T], which sits in the container's own buffer when [T] fits and
    in an allocated heap block when it does not.  A null table pointer
    does not occur. *)
Definition fb_ok (h : gmap N callable) (b : gset N) (c : N)
    (fb : basic_function) : Prop :=
  match vptr fb, object fb with
  | VEmpty, Null => True
  | VOf T, Storage c' =>
      c' = c ∧ (function_storage_size <? sizeof_ T) = false
      ∧ ∃ v, storage fb = Some v ∧ c_type v = T
  | VOf T, Heap a =>
      (function_storage_size <? sizeof_ T) = true ∧ a ∈ b
      ∧ ∃ v, h !! a = Some v ∧ c_type v = T
  | _, _ => False
  end.

(** The three shapes a container can have under the invariant. *)
Inductive shape (h : gmap N callable) (b : gset N) (c : N)
  : basic_function → Prop :=
| shape_empty s sv : shape h b c (BasicFunction VEmpty Null s sv)
| shape_inline T v sv :
    (function_storage_size <? sizeof_ T) = false → c_type v = T →
    shape h b c (BasicFunction (VOf T) (Storage c) (Some v) sv)
| shape_heap T a v s sv :
    (function_storage_size <? sizeof_ T) = true → a ∈ b →
    h !! a = Some v → c_type v = T →
    shape h b c (BasicFunction (VOf T) (Heap a) s sv).

(** Of the store: every container is as above, no heap block belongs
    to two containers, and every allocated block lies below the next
    address to be handed out. *)
Record store_inv (m : mem) : Prop := StoreInv {
  inv_fb : ∀ c fb, objs m !! c = Some fb → fb_ok (heap m) (blocks m) c fb;
  inv_owner : ∀ c1 c2 fb1 fb2 a,
    objs m !! c1 = Some fb1 → objs m !! c2 = Some fb2 →
    object fb1 = Heap a → object fb2 = Heap a → c1 = c2;
  inv_fresh : ∀ a, a ∈ blocks m → a < next_addr m
}.



(** ** Concrete inputs *)

(** A function pointer type and two values of it, one of them null; a
    function object that fits the buffer and one that does not. *)
Definition fn_ptr_type : ctype := CType "void(*)()" function_pointer 8.
Definition some_function : callable := MkCallable fn_ptr_type false 4096.
Definition small_action : callable :=
  MkCallable (CType "small_action" function_object 16) false 1.
Definition big_action : callable :=
  MkCallable (CType "big_action" function_object 64) false 2.

(** A store with one container, at address 0, that holds
    [some_function] in its buffer. *)
Definition example_store : mem :=
  Mem {[0 := BasicFunction (VOf fn_ptr_type) (Storage 0)
               (Some some_function) None]} ∅ ∅ 0.

(** A store with two containers: the one at address 0 as above, the
    one at address 1 holding [big_action] in the heap block 0. *)
Definition two_store : mem :=
  Mem {[0 := BasicFunction (VOf fn_ptr_type) (Storage 0)
               (Some some_function) None;
        1 := BasicFunction (VOf (c_type big_action)) (Heap 0) None None]}
      {[0 := big_action]} {[0]} 1.

End Callable.

(* ===================================================================== *)
(** * Parcel transport *)
(* ===================================================================== *)

Module Parcelport.

(** ** Data *)

(** [boost::system::error_code], by the values the code tells apart:
    the default-constructed code of a successful operation, the three
    named [boost::asio::error] codes, and any other error. *)
Inductive error_code :=
| success
| operation_aborted
| eof
| try_again
| other_error (value : N).

#[global] Instance error_code_eq_dec : EqDecision error_code.
Proof. solve_decision. Defined.

(** [if (e)]: the code stands for an error. *)
Definition failed (e : error_code) : bool :=
  match e with
  | success => false
  | _ => true
  end.

Record parcel := Parcel {
  get_destination : N;
  parcel_data : N
}.

(** A connection and a completion handler are known by their identity,
    an endpoint by its address. *)
Definition connection := N.
Definition write_handler_type := N.
Definition endpoint := N.

(** [naming::address], of which the code reads [locality_]. *)
Record address := Address {
  locality_ : N
}.

(** [performance_counters::parcels::data_point], of which the code
    reads and writes [timer_]. *)
Record data_point := DataPoint {
  bytes_ : N;
  timer_ : Z
}.

(** [call_for_each]: the function object handed to [async_write]. *)
Record call_for_each := CallForEach {
  fv : list write_handler_type
}.

(** What the code does to the world outside its own members, in the
    order in which it does it. *)
Inductive event :=
| ev_cache_get (prefix : N) (found : option connection)
| ev_enqueue (prefix : N) (p : parcel) (f : write_handler_type)
| ev_cache_full (prefix : N) (full : bool)
| ev_new_connection (c : connection) (prefix : N)
| ev_socket_close (c : connection)
| ev_socket_connect (c : connection) (ep : endpoint) (error : error_code)
| ev_sleep (milliseconds : Z)
| ev_drain (prefix : N) (parcels : list parcel)
    (handlers : list write_handler_type)
| ev_set_parcel (c : connection) (parcels : list parcel)
| ev_async_write (c : connection) (handler : call_for_each)
| ev_cache_add (prefix : N) (c : connection)
| ev_register_thread (name : string) (prefix : N)
| ev_handler_called (f : write_handler_type) (e : error_code)
    (bytes_written : N)
| ev_async_accept (conn : connection)
| ev_async_read (c : connection)
| ev_log_error (e : error_code).

(** [hpx::exception] with [network_error], thrown by
    [HPX_THROW_EXCEPTION]: the function named, the socket error whose
    message is reported, and the locality named in the message, if
    any. *)
Inductive exn :=
| network_error (func : string) (cause : error_code) (dest : option N).

(** What the network answers: on sweep [i], [connect_begin] either
    throws an error code or yields the endpoints of the locality, and
    connecting to an endpoint yields an error code. *)
Record network := Network {
  connect_begin : N → nat → error_code + list endpoint;
  socket_connect_result : nat → endpoint → error_code
}.

(** ** The connection cache, an interface *)

(** [connection_cache_] is declared outside the sources; the code uses
    [get], [full], [add] and [clear]. *)
Class ConnectionCache (C : Type) := {
  cache_get : N → C → option connection * C;
  cache_full : N → C → bool;
  cache_add : N → connection → C → C;
  cache_clear : C → C
}.

(** Modelled from the spec: the connection cache is declared outside
    the sources.  Idle connections are kept with their destination,
    least recently returned first; [in_use] counts the connections
    handed out per destination. *)
Record idle_pool := IdlePool {
  idle : list (N * connection);
  in_use : gmap N N;
  max_cache_size : N;
  max_connections_per_loc : N
}.

Definition idle_for (prefix : N) (l : list (N * connection))
  : list (N * connection) :=
  filter (λ kc, kc.1 = prefix) l.

Fixpoint remove_first (P : N → bool) (l : list (N * connection))
  : list (N * connection) :=
  match l with
  | [] => []
  | kc :: l' => if P kc.1 then l' else kc :: remove_first P l'
  end.

(** "pop and return an idle connection for [destination] if one
    exists, else none" *)
Definition pool_get (prefix : N) (c : idle_pool)
  : option connection * idle_pool :=
  match idle_for prefix (idle c) with
  | [] => (None, c)
  | kc :: _ =>
      (Some kc.2,
       IdlePool (remove_first (λ k, bool_decide (k = prefix)) (idle c))
                (<[prefix := N.succ (default 0 (in_use c !! prefix))]>
                   (in_use c))
                (max_cache_size c) (max_connections_per_loc c))
  end.

(** "insert as idle for [destination]; if the global idle count would
    exceed [max_cache_size], evict the least-recently-returned idle
    connection belonging to some other destination first" *)
Definition pool_add (prefix : N) (conn : connection) (c : idle_pool)
  : idle_pool :=
  let kept :=
    if max_cache_size c <? N.of_nat (S (length (idle c)))
    then remove_first (λ k, bool_decide (k ≠ prefix)) (idle c)
    else idle c in
  IdlePool (kept ++ [(prefix, conn)])
           (<[prefix := N.pred (default 0 (in_use c !! prefix))]> (in_use c))
           (max_cache_size c) (max_connections_per_loc c).

(** "true when the destination already has [max_connections_per_loc]
    connections outstanding (idle + in-use) with none currently
    idle" *)
Definition pool_full (prefix : N) (c : idle_pool) : bool :=
  let n_idle := N.of_nat (length (idle_for prefix (idle c))) in
  (max_connections_per_loc c <=? n_idle + default 0 (in_use c !! prefix))
  && (n_idle =? 0).

(** "closes and discards every idle connection" *)
Definition pool_clear (c : idle_pool) : idle_pool :=
  IdlePool [] (in_use c) (max_cache_size c) (max_connections_per_loc c).

#[global] Instance idle_pool_cache : ConnectionCache idle_pool := {
  cache_get := pool_get;
  cache_full := pool_full;
  cache_add := pool_add;
  cache_clear := pool_clear
}.

(** ** The pending-parcel queue *)

(** [pending_parcels_map]: per destination, the parcels and, in
    parallel, their handlers. *)
Abbreviation pending_parcels_map :=
  (gmap N (list parcel * list write_handler_type)).

(** [pending_parcels_[prefix]]: [operator[]] yields the entry, which is
    a pair of empty vectors when the key was not there. *)
Definition at_ (q : pending_parcels_map) (prefix : N)
  : list parcel * list write_handler_type :=
  default ([], []) (q !! prefix).

(** [pending_parcels_[prefix].first.push_back(p)] *)
Definition push_back_first (prefix : N) (p : parcel)
    (q : pending_parcels_map) : pending_parcels_map :=
  <[prefix := ((at_ q prefix).1 ++ [p], (at_ q prefix).2)]> q.

(** [pending_parcels_[prefix].second.push_back(f)] *)
Definition push_back_second (prefix : N) (f : write_handler_type)
    (q : pending_parcels_map) : pending_parcels_map :=
  <[prefix := ((at_ q prefix).1, (at_ q prefix).2 ++ [f])]> q.

(** The critical section of lines 190-194. *)
Definition enqueue_locked (prefix : N) (p : parcel) (f : write_handler_type)
    (q : pending_parcels_map) : pending_parcels_map :=
  push_back_second prefix f (push_back_first prefix p q).

(** [std::swap(parcels, pending_parcels_[prefix].first)] *)
Definition swap_first (prefix : N) (parcels : list parcel)
    (q : pending_parcels_map) : list parcel * pending_parcels_map :=
  ((at_ q prefix).1, <[prefix := (parcels, (at_ q prefix).2)]> q).

(** [std::swap(handlers, pending_parcels_[prefix].second)] *)
Definition swap_second (prefix : N) (handlers : list write_handler_type)
    (q : pending_parcels_map)
  : list write_handler_type * pending_parcels_map :=
  ((at_ q prefix).2, <[prefix := ((at_ q prefix).1, handlers)]> q).

(** The critical section of lines 276-280, entered with two empty
    local vectors. *)
Definition drain_locked (prefix : N) (q : pending_parcels_map)
  : (list parcel * list write_handler_type) * pending_parcels_map :=
  let '(parcels, q1) := swap_first prefix [] q in
  let '(handlers, q2) := swap_second prefix [] q1 in
  ((parcels, handlers), q2).

(** The critical section of lines 322-331: [find], and the two swaps
    only when the key is there. *)
Definition drain_found_locked (prefix : N) (q : pending_parcels_map)
  : (list parcel * list write_handler_type) * pending_parcels_map :=
  match q !! prefix with
  | Some _ => drain_locked prefix q
  | None => (([], []), q)
  end.

(** ** The transport *)

Section Transport.

(** [naming::get_prefix_from_gid] and the two retry constants are
    declared outside the sources. *)
Context (get_prefix_from_gid : N → N).
Context (HPX_MAX_NETWORK_RETRIES : Z).
Context (HPX_NETWORK_RETRIES_SLEEP : Z).
Context {C : Type} {cache_ops : ConnectionCache C}.

(** The members of [parcelport] the code under study touches, the
    receive data kept in each accepted connection, the identity the next
    [new parcelport_connection] gets, and the trace. *)
Record parcelport := ParcelPort {
  pending_parcels_ : pending_parcels_map;
  connection_cache_ : C;
  parcels_received_ : list data_point;
  receive_data : gmap N data_point;
  next_connection : N;
  trace : list event
}.

Inductive res (A : Type) :=
| Ret (a : A) (s : parcelport)
| Throw (e : exn) (s : parcelport).

Arguments Ret {A} a s.
Arguments Throw {A} e s.

Definition M (A : Type) : Type := parcelport → res A.

Definition ret {A} (a : A) : M A := λ s, Ret a s.

Definition bind {A B} (c : M A) (k : A → M B) : M B :=
  λ s, match c s with
       | Ret a s' => k a s'
       | Throw e s' => Throw e s'
       end.

Definition throw {A} (e : exn) : M A := λ s, Throw e s.

Notation "x <- c ;; k" := (bind c (λ x, k))
  (at level 100, c at next level, right associativity).
Notation "c ;;; k" := (bind c (λ _, k))
  (at level 100, right associativity).

Definition final_state {A} (r : res A) : parcelport :=
  match r with
  | Ret _ s => s
  | Throw _ s => s
  end.

Definition emit (ev : event) : M unit :=
  λ s, Ret tt (ParcelPort (pending_parcels_ s) (connection_cache_ s)
                 (parcels_received_ s) (receive_data s) (next_connection s)
                 (trace s ++ [ev])).

(** The state with some events added to the trace and nothing else
    changed. *)
Definition traced (s : parcelport) (t : list event) : parcelport :=
  ParcelPort (pending_parcels_ s) (connection_cache_ s) (parcels_received_ s)
    (receive_data s) (next_connection s) (trace s ++ t).

(** [parcelport::parcelport]: nothing is pending, nothing has been
    received. *)
Definition parcelport_ctor (cache : C) : parcelport :=
  ParcelPort ∅ cache [] ∅ 0 [].

Definition with_queue {A}
    (f : pending_parcels_map → A * pending_parcels_map) : M A :=
  λ s, let '(a, q) := f (pending_parcels_ s) in
       Ret a (ParcelPort q (connection_cache_ s) (parcels_received_ s)
                (receive_data s) (next_connection s) (trace s)).

(** [connection_cache_.get(prefix)] *)
Definition connection_cache_get (prefix : N) : M (option connection) :=
  r <- (λ s, let '(r, c) := cache_get prefix (connection_cache_ s) in
             Ret r (ParcelPort (pending_parcels_ s) c (parcels_received_ s)
                      (receive_data s) (next_connection s) (trace s))) ;;
  emit (ev_cache_get prefix r) ;;; ret r.

(** [connection_cache_.full(prefix)] *)
Definition connection_cache_full (prefix : N) : M bool :=
  b <- (λ s, Ret (cache_full prefix (connection_cache_ s)) s) ;;
  emit (ev_cache_full prefix b) ;;; ret b.

(** [connection_cache_.add(prefix, client_connection)] *)
Definition connection_cache_add (prefix : N) (c : connection) : M unit :=
  (λ s, Ret tt (ParcelPort (pending_parcels_ s)
                  (cache_add prefix c (connection_cache_ s))
                  (parcels_received_ s) (receive_data s) (next_connection s)
                  (trace s))) ;;;
  emit (ev_cache_add prefix c).

(** Lines 190-194. *)
Definition enqueue (prefix : N) (p : parcel) (f : write_handler_type)
  : M unit :=
  with_queue (λ q, (tt, enqueue_locked prefix p f q)) ;;;
  emit (ev_enqueue prefix p f).

(** Lines 274-280. *)
Definition drain (prefix : N)
  : M (list parcel * list write_handler_type) :=
  ph <- with_queue (drain_locked prefix) ;;
  emit (ev_drain prefix ph.1 ph.2) ;;; ret ph.

(** Lines 315-331, after the early return. *)
Definition drain_found (prefix : N)
  : M (list parcel * list write_handler_type) :=
  ph <- with_queue (drain_found_locked prefix) ;;
  emit (ev_drain prefix ph.1 ph.2) ;;; ret ph.

(** [new parcelport_connection(...)] *)
Definition new_parcelport_connection (prefix : N) : M connection :=
  c <- (λ s, Ret (next_connection s)
               (ParcelPort (pending_parcels_ s) (connection_cache_ s)
                  (parcels_received_ s) (receive_data s)
                  (N.succ (next_connection s)) (trace s))) ;;
  emit (ev_new_connection c prefix) ;;; ret c.

(** [call_for_each::operator()]: every element of [fv], in order, is
    called with the two arguments. *)
Fixpoint foreach_call (fs : list write_handler_type) (e : error_code)
    (bytes_written : N) : M unit :=
  match fs with
  | [] => ret tt
  | f :: fs' =>
      emit (ev_handler_called f e bytes_written) ;;;
      foreach_call fs' e bytes_written
  end.

Definition call_for_each_call (h : call_for_each) (e : error_code)
    (bytes_written : N) : M unit :=
  foreach_call (fv h) e bytes_written.

(** [parcelport::send_pending_parcels_trampoline] *)
Definition send_pending_parcels_trampoline (prefix : N) : M unit :=
  emit (ev_register_thread "send_pending_parcels" prefix).

(** Lines 283-300 and 333-348: hand the batch to the connection, or
    give the connection back. *)
Definition write_or_readd (prefix : N) (client_connection : connection)
    (parcels : list parcel) (handlers : list write_handler_type) : M unit :=
  if negb (bool_decide (parcels = [])) && negb (bool_decide (handlers = []))
  then
    emit (ev_set_parcel client_connection parcels) ;;;
    emit (ev_async_write client_connection (CallForEach handlers))
  else
    connection_cache_add prefix client_connection.

(** Lines 274-300. *)
Definition drain_and_write (prefix : N) (client_connection : connection)
  : M unit :=
  ph <- drain prefix ;;
  (* if the parcels didn't get sent by another connection ... *)
  write_or_readd prefix client_connection ph.1 ph.2.

(** The inner loop of lines 230-241, entered with the current value of
    [error]. *)
Fixpoint connect_sweep (net : network) (c : connection) (i : nat)
    (eps : list endpoint) (error : error_code) : M error_code :=
  match eps with
  | [] => ret error
  | ep :: eps' =>
      emit (ev_socket_close c) ;;;
      let error := socket_connect_result net i ep in
      emit (ev_socket_connect c ep error) ;;;
      if negb (failed error) then ret error
      else connect_sweep net c i eps' error
  end.

(** The loop of lines 226-254, with [n] iterations left and [i] the
    value of the loop variable. *)
Fixpoint connect_retry (net : network) (addr : address) (c : connection)
    (n i : nat) (error : error_code) : M error_code :=
  match n with
  | O => ret error
  | S n' =>
      match connect_begin net (locality_ addr) i with
      | inl e => throw (network_error "parcelport::send_parcel" e None)
      | inr eps =>
          error <- connect_sweep net c i eps error ;;
          if negb (failed error) then ret error
          else
            emit (ev_sleep HPX_NETWORK_RETRIES_SLEEP) ;;;
            connect_retry net addr c n' (S i) error
      end
  end.

(** [parcelport::send_parcel] *)
Definition send_parcel (net : network) (p : parcel) (addr : address)
    (f : write_handler_type) : M unit :=
  let prefix := get_prefix_from_gid (get_destination p) in
  client_connection <- connection_cache_get prefix ;;
  (* enqueue the incoming parcel ... *)
  enqueue prefix p f ;;;
  match client_connection with
  | None =>
      full <- connection_cache_full prefix ;;
      if full then ret tt
      else
        client_connection <- new_parcelport_connection prefix ;;
        (* connect to the target locality, retry if needed *)
        error <- connect_retry net addr client_connection
                   (Z.to_nat HPX_MAX_NETWORK_RETRIES) 0 try_again ;;
        if failed error then
          emit (ev_socket_close client_connection) ;;;
          throw (network_error "parcelport::send_parcel" error
                   (Some (locality_ addr)))
        else drain_and_write prefix client_connection
  | Some client_connection => drain_and_write prefix client_connection
  end.

(** [parcelport::send_pending_parcels] *)
Definition send_pending_parcels (prefix : N) : M unit :=
  client_connection <- connection_cache_get prefix ;;
  match client_connection with
  | None => ret tt
  | Some client_connection =>
      ph <- drain_found prefix ;;
      write_or_readd prefix client_connection ph.1 ph.2
  end.

(** Modelled from the spec: [parcelport_connection::async_write] is
    declared outside the sources.  The "completion callback invokes
    every drained handler, in order, with the write's error code and
    byte count, then schedules a drain trampoline". *)
Definition write_completed (prefix : N) (handler : call_for_each)
    (e : error_code) (bytes_written : N) : M unit :=
  call_for_each_call handler e bytes_written ;;;
  send_pending_parcels_trampoline prefix.

(** [new server::parcelport_connection(...)] *)
Definition new_server_connection : M connection :=
  λ s, Ret (next_connection s)
         (ParcelPort (pending_parcels_ s) (connection_cache_ s)
            (parcels_received_ s) (receive_data s)
            (N.succ (next_connection s)) (trace s)).

(** [parcelport::handle_accept] *)
Definition handle_accept (e : error_code) (conn : connection) : M unit :=
  if negb (failed e) then
    (* handle this incoming parcel *)
    let c := conn in
    (* create new connection waiting for next incoming parcel *)
    conn <- new_server_connection ;;
    emit (ev_async_accept conn) ;;;
    emit (ev_async_read c)
  else ret tt.

(** [parcelport::handle_read_completion]; [now] is what
    [timer_.elapsed_microseconds()] returns. *)
Definition handle_read_completion (now : Z) (e : error_code)
    (c : connection) : M unit :=
  if failed e && bool_decide (e ≠ operation_aborted)
     && bool_decide (e ≠ eof)
  then emit (ev_log_error e)
  else
    (* complete data point and push back *)
    λ s,
      let data := default (DataPoint 0 0) (receive_data s !! c) in
      let data := DataPoint (bytes_ data) (now - timer_ data) in
      Ret tt (ParcelPort (pending_parcels_ s) (connection_cache_ s)
                (parcels_received_ s ++ [data])
                (<[c := data]> (receive_data s))
                (next_connection s) (trace s)).

(** ** The queue invariant and the atomic steps on the queue *)

Definition queue_inv (q : pending_parcels_map) : Prop :=
  ∀ prefix ps hs, q !! prefix = Some (ps, hs) → length ps = length hs.

(** One atomic step on the shared queue, whichever thread takes it: a
    whole critical section. *)
Inductive queue_step : pending_parcels_map → pending_parcels_map → Prop :=
| step_enqueue prefix p f q :
    queue_step q (enqueue_locked prefix p f q)
| step_drain prefix q :
    queue_step q (drain_locked prefix q).2
| step_drain_found prefix q :
    queue_step q (drain_found_locked prefix q).2.


(** Code that touches nothing but the trace, and only adds events of
    the kind [P] to it. *)
Definition only_emits {A} (P : event → Prop) (act : M A) : Prop :=
  ∀ s, ∃ t, final_state (act s) = traced s t ∧ Forall P t.

End Transport.

Arguments Ret {C A} a s.
Arguments Throw {C A} e s.

(** ** Reading a trace *)

Definition connect_phase (ev : event) : Prop :=
  match ev with
  | ev_socket_close _ | ev_socket_connect _ _ _ | ev_sleep _ => True
  | _ => False
  end.

Definition is_enqueue (ev : event) : bool :=
  match ev with ev_enqueue _ _ _ => true | _ => false end.

Definition is_cache_get (ev : event) : bool :=
  match ev with ev_cache_get _ _ => true | _ => false end.

Definition is_async_write (ev : event) : bool :=
  match ev with ev_async_write _ _ => true | _ => false end.

(** The synchronous [connect] on the socket and
    [boost::this_thread::sleep] hold the calling thread. *)
Definition is_blocking (ev : event) : bool :=
  match ev with
  | ev_socket_connect _ _ _ | ev_sleep _ => true
  | _ => false
  end.

(** Some event satisfying [P] comes before some event satisfying
    [Q]. *)
Fixpoint precedes (P Q : event → bool) (t : list event) : bool :=
  match t with
  | [] => false
  | ev :: t' => (P ev && existsb Q t') || precedes P Q t'
  end.

(** ** Concrete inputs *)

Definition example_pool : idle_pool := IdlePool [] ∅ 8 2.

(** A network on which every locality resolves to the endpoints 7 and
    8 and every connect is refused. *)
Definition unreachable_network : network :=
  Network (λ _ _, inr [7; 8]) (λ _ _, other_error 111).

Definition example_parcel : parcel := Parcel 5 42.
Definition example_address : address := Address 5.

(** A cache in which destination 5 has its two connections handed out
    and none idle, and one in which connection 3 is idle for it. *)
Definition full_pool : idle_pool := IdlePool [] {[ 5 := 2 ]} 8 2.
Definition cached_pool : idle_pool := IdlePool [(5, 3)] ∅ 8 2.

(** A network on which endpoint 8 accepts from the second sweep on, and
    one on which the locality no longer resolves on the second sweep. *)
Definition late_network : network :=
  Network (λ _ _, inr [7; 8])
    (λ i ep, if bool_decide (1 ≤ i)%nat && bool_decide (ep = 8)
             then success else other_error 111).

Definition unresolvable_network : network :=
  Network (λ _ i, match i with O => inr [7; 8] | _ => inl (other_error 2) end)
    (λ _ _, other_error 111).

(** ** What a trace says about the queue *)

Definition is_sleep (ev : event) : bool :=
  match ev with ev_sleep _ => true | _ => false end.

(** A connect that succeeded. *)
Definition is_connected (ev : event) : bool :=
  match ev with
  | ev_socket_connect _ _ e => negb (failed e)
  | _ => false
  end.

(** How many events of a trace satisfy [P]. *)
Definition occurrences (P : event → bool) (t : list event) : nat :=
  length (List.filter P t).

(** The events between the enqueue of a send and its drain. *)
Definition connect_or_cache (ev : event) : Prop :=
  match ev with
  | ev_cache_full _ _ | ev_new_connection _ _ | ev_socket_close _
  | ev_socket_connect _ _ _ | ev_sleep _ => True
  | _ => False
  end.

(** Events that neither enqueue nor drain. *)
Definition silent (ev : event) : Prop :=
  match ev with
  | ev_enqueue _ _ _ | ev_drain _ _ _ => False
  | _ => True
  end.

(** The pair an event enqueues for [prefix], and the sequences an event
    takes out of the queue of [prefix]. *)
Definition enqueued_by (prefix : N) (ev : event)
  : list (parcel * write_handler_type) :=
  match ev with
  | ev_enqueue pr p f => if decide (pr = prefix) then [(p, f)] else []
  | _ => []
  end.

Definition drained_parcels_by (prefix : N) (ev : event) : list parcel :=
  match ev with
  | ev_drain pr ps _ => if decide (pr = prefix) then ps else []
  | _ => []
  end.

Definition drained_handlers_by (prefix : N) (ev : event)
  : list write_handler_type :=
  match ev with
  | ev_drain pr _ hs => if decide (pr = prefix) then hs else []
  | _ => []
  end.

(** All pairs enqueued for [prefix] in a trace, and all parcels and
    handlers taken out of its queue, each in the order of the trace. *)
Definition enqueued (prefix : N) (t : list event)
  : list (parcel * write_handler_type) :=
  flat_map (enqueued_by prefix) t.

Definition drained_parcels (prefix : N) (t : list event) : list parcel :=
  flat_map (drained_parcels_by prefix) t.

Definition drained_handlers (prefix : N) (t : list event)
  : list write_handler_type :=
  flat_map (drained_handlers_by prefix) t.

(** Nothing is lost, doubled or reordered: for every destination, what
    has been enqueued is what has been taken out followed by what is
    still queued. *)
Definition conserved {C} (s : parcelport (C := C)) : Prop :=
  ∀ prefix,
    (enqueued prefix (trace s)).*1
    = drained_parcels prefix (trace s) ++ (at_ (pending_parcels_ s) prefix).1
    ∧ (enqueued prefix (trace s)).*2
      = drained_handlers prefix (trace s)
        ++ (at_ (pending_parcels_ s) prefix).2.

(** What the drains of a trace took out of the queue, of all
    destinations together, and what was handed to connections and to
    writes, each in the order of the trace. *)
Definition taken_parcels (t : list event) : list parcel :=
  flat_map (λ ev, match ev with ev_drain _ ps _ => ps | _ => [] end) t.

Definition taken_handlers (t : list event) : list write_handler_type :=
  flat_map (λ ev, match ev with ev_drain _ _ hs => hs | _ => [] end) t.

Definition sent_parcels (t : list event) : list parcel :=
  flat_map (λ ev, match ev with ev_set_parcel _ ps => ps | _ => [] end) t.

Definition sent_handlers (t : list event) : list write_handler_type :=
  flat_map (λ ev, match ev with ev_async_write _ h => fv h | _ => [] end) t.

(** Everything taken out of the queue was handed on. *)
Definition balanced (t : list event) : Prop :=
  taken_parcels t = sent_parcels t ∧ taken_handlers t = sent_handlers t.

(** Events that neither take from the queue nor hand anything on. *)
Definition quiet (ev : event) : Prop :=
  match ev with
  | ev_drain _ _ _ | ev_set_parcel _ _ | ev_async_write _ _ => False
  | _ => True
  end.

(** The endpoints of a sweep that are tried: all up to and including the
    first that accepts. *)
Fixpoint attempted (net : network) (i : nat) (eps : list endpoint)
  : list endpoint :=
  match eps with
  | [] => []
  | ep :: eps' =>
      ep :: (if failed (socket_connect_result net i ep)
             then attempted net i eps' else [])
  end.

(** What one sweep adds to the trace, and the value of [error] after
    it: that of the last connect tried, or the one it was entered with
    when there was no endpoint. *)
Definition sweep_events (net : network) (c : connection) (i : nat)
    (eps : list endpoint) : list event :=
  flat_map (λ ep, [ev_socket_close c;
                   ev_socket_connect c ep (socket_connect_result net i ep)])
    (attempted net i eps).

Definition sweep_error (net : network) (i : nat) (eps : list endpoint)
    (error : error_code) : error_code :=
  default error (last (socket_connect_result net i <$> attempted net i eps)).

(** ** Sequences of calls *)

Section Calls.

Context (get_prefix_from_gid : N → N).
Context (HPX_MAX_NETWORK_RETRIES : Z).
Context (HPX_NETWORK_RETRIES_SLEEP : Z).
Context {C : Type} {cache_ops : ConnectionCache C}.

(** The entry points of the transport that run after start-up, with
    their arguments and with what the network answers during the call. *)
Inductive call :=
| call_send_parcel (net : network) (p : parcel) (addr : address)
    (f : write_handler_type)
| call_send_pending_parcels (prefix : N)
| call_write_completed (prefix : N) (handler : call_for_each)
    (e : error_code) (bytes_written : N)
| call_handle_accept (e : error_code) (conn : connection)
| call_handle_read_completion (now : Z) (e : error_code) (c : connection).

Definition run_call (c : call) : M (C := C) unit :=
  match c with
  | call_send_parcel net p addr f =>
      send_parcel get_prefix_from_gid HPX_MAX_NETWORK_RETRIES
        HPX_NETWORK_RETRIES_SLEEP net p addr f
  | call_send_pending_parcels prefix => send_pending_parcels prefix
  | call_write_completed prefix h e n => write_completed prefix h e n
  | call_handle_accept e conn => handle_accept e conn
  | call_handle_read_completion now e c => handle_read_completion now e c
  end.

(** One call after the other, each from the state the one before left,
    whether it returned or threw. *)
Definition run_calls (calls : list call) (s : parcelport) : parcelport :=
  foldl (λ s c, final_state (run_call c s)) s calls.

(** The destinations of the sends among some calls. *)
Definition destination_of (c : call) : gset N :=
  match c with
  | call_send_parcel _ p _ _ => {[ get_prefix_from_gid (get_destination p) ]}
  | _ => ∅
  end.

Definition destinations (calls : list call) : gset N :=
  ⋃ (destination_of <$> calls).

End Calls.

(** ** Starting and stopping the transport *)

(** The calls [run] makes on the acceptor for one endpoint, in the
    order in which it makes them. *)
Inductive acceptor_step :=
| step_open
| step_set_option
| step_bind
| step_listen
| step_async_accept.

Definition acceptor_steps : list acceptor_step :=
  [step_open; step_set_option; step_bind; step_listen; step_async_accept].

(** What [run], [stop] and the destructor do outside the members of the
    transport. *)
Inductive lifecycle_event :=
| ev_pool_run (blocking : bool)
| ev_pool_stop
| ev_pool_join
| ev_pool_clear
| ev_cache_clear
| ev_new_acceptor (a : N)
| ev_delete_acceptor (a : N)
| ev_new_server_connection (conn : connection)
| ev_acceptor_call (a : N) (st : acceptor_step) (ep : endpoint)
    (error : error_code).

(** What the machine answers: the endpoints [here_] resolves to, what
    each call on the acceptor for an endpoint ends with (a call that
    ends with an error throws [system_error]), and what
    [io_service_pool_.run(blocking)] returns. *)
Record host := Host {
  accept_endpoints : list endpoint;
  acceptor_answer : endpoint → acceptor_step → error_code;
  pool_run_result : bool → bool
}.

(** Modelled from the spec: [exception_list] is declared outside the
    sources.  A failure "on one endpoint is recorded": the list holds
    the errors added, and [get_error_count] is their number, a
    [std::size_t]. *)
Definition exception_list := list error_code.

Definition get_error_count (errors : exception_list) : N :=
  N.of_nat (length errors) mod 2 ^ 64.

(** [hpx::exception] with [network_error] as [run] throws it: the
    function named and the errors whose messages are reported. *)
Inductive run_exn :=
| run_network_error (func : string) (errors : exception_list).

Section Lifecycle.

Context {C : Type} {cache_ops : ConnectionCache C}.

(** The members [run], [stop] and the destructor touch: [acceptor_],
    where [None] is [NULL], and the connection cache; with them the
    address the next [new] of an acceptor yields, the identity of the
    next connection, and the trace. *)
Record lifecycle := Lifecycle {
  acceptor_ : option N;
  lc_connection_cache_ : C;
  next_acceptor : N;
  lc_next_connection : N;
  lc_trace : list lifecycle_event
}.

(** [parcelport::parcelport]: [acceptor_(NULL)]. *)
Definition lifecycle_ctor (cache : C) : lifecycle :=
  Lifecycle None cache 0 0 [].

Definition log (t : list lifecycle_event) (s : lifecycle) : lifecycle :=
  Lifecycle (acceptor_ s) (lc_connection_cache_ s) (next_acceptor s)
    (lc_next_connection s) (lc_trace s ++ t).

(** The calls on the acceptor inside the [try] block, up to the first
    that throws: the events, and the error thrown if any. *)
Fixpoint acceptor_calls (h : host) (a : N) (ep : endpoint)
    (steps : list acceptor_step)
  : list lifecycle_event * option error_code :=
  match steps with
  | [] => ([], None)
  | st :: steps' =>
      let e := acceptor_answer h ep st in
      if failed e then ([ev_acceptor_call a st ep e], Some e)
      else
        let '(t, r) := acceptor_calls h a ep steps' in
        (ev_acceptor_call a st ep e :: t, r)
  end.

(** The [for] loop of lines 82-103 over the endpoints left, with the
    current values of [tried] and [errors]. *)
Fixpoint accept_loop (h : host) (a : N) (eps : list endpoint) (tried : N)
    (errors : exception_list) (s : lifecycle)
  : N * exception_list * lifecycle :=
  match eps with
  | [] => (tried, errors, s)
  | ep :: eps' =>
      let conn := lc_next_connection s in
      let '(t, r) := acceptor_calls h a ep acceptor_steps in
      let s := Lifecycle (acceptor_ s) (lc_connection_cache_ s)
                 (next_acceptor s) (N.succ conn)
                 (lc_trace s ++ ev_new_server_connection conn :: t) in
      let errors :=
        match r with
        | Some e => errors ++ [e]   (* store all errors *)
        | None => errors
        end in
      accept_loop h a eps' ((tried + 1) mod 2 ^ 64) errors s
  end.

(** [if (NULL == acceptor_) acceptor_ = new ...]: the acceptor in use
    afterwards, and the state. *)
Definition ensure_acceptor (s : lifecycle) : N * lifecycle :=
  match acceptor_ s with
  | Some a => (a, s)
  | None =>
      let a := next_acceptor s in
      (a, Lifecycle (Some a) (lc_connection_cache_ s) (N.succ a)
            (lc_next_connection s) (lc_trace s ++ [ev_new_acceptor a]))
  end.

(** [parcelport::run] *)
Definition run (h : host) (blocking : bool) (s : lifecycle)
  : (run_exn + bool) * lifecycle :=
  (* start pool *)
  let s := log [ev_pool_run false] s in
  let '(a, s) := ensure_acceptor s in
  (* initialize network *)
  let '(tried, errors, s) := accept_loop h a (accept_endpoints h) 0 [] s in
  if get_error_count errors =? tried then
    (* all attempts failed *)
    (inl (run_network_error "parcelport::parcelport" errors), s)
  else
    (inr (pool_run_result h blocking), log [ev_pool_run blocking] s).

(** [if (NULL != acceptor_) delete acceptor_], and what [acceptor_] is
    set to afterwards, if anything. *)
Definition delete_acceptor (reset : bool) (s : lifecycle) : lifecycle :=
  match acceptor_ s with
  | Some a =>
      Lifecycle (if reset then None else Some a) (lc_connection_cache_ s)
        (next_acceptor s) (lc_next_connection s)
        (lc_trace s ++ [ev_delete_acceptor a])
  | None => s
  end.

Definition clear_cache (s : lifecycle) : lifecycle :=
  Lifecycle (acceptor_ s) (cache_clear (lc_connection_cache_ s))
    (next_acceptor s) (lc_next_connection s)
    (lc_trace s ++ [ev_cache_clear]).

(** [parcelport::stop] *)
Definition stop (blocking : bool) (s : lifecycle) : lifecycle :=
  (* make sure no more work is pending *)
  let s := log [ev_pool_stop] s in
  if blocking then
    let s := log [ev_pool_join] s in
    (* now it's safe to take everything down *)
    let s := clear_cache s in
    let s := delete_acceptor true s in
    log [ev_pool_clear] s
  else s.

(** [parcelport::~parcelport] *)
Definition parcelport_dtor (s : lifecycle) : lifecycle :=
  (* make sure all existing connections get destroyed first *)
  let s := clear_cache s in
  delete_acceptor false s.

(** The calls made on a transport between its construction and its
    destruction. *)
Inductive lifecycle_call :=
| call_run (h : host) (blocking : bool)
| call_stop (blocking : bool).

Definition run_lifecycle_call (c : lifecycle_call) (s : lifecycle)
  : lifecycle :=
  match c with
  | call_run h blocking => (run h blocking s).2
  | call_stop blocking => stop blocking s
  end.

(** A transport that was constructed and has served some calls, and
    a whole life: constructed, called, destructed. *)
Definition lived (cache : C) (calls : list lifecycle_call) : lifecycle :=
  foldl (λ s c, run_lifecycle_call c s) (lifecycle_ctor cache) calls.

Definition life (cache : C) (calls : list lifecycle_call) : lifecycle :=
  parcelport_dtor (lived cache calls).

End Lifecycle.

(** The acceptors a trace makes and the acceptors it deletes, each in
    the order of the trace. *)
Definition acceptors_made (t : list lifecycle_event) : list N :=
  flat_map (λ ev, match ev with ev_new_acceptor a => [a] | _ => [] end) t.

Definition acceptors_deleted (t : list lifecycle_event) : list N :=
  flat_map (λ ev, match ev with ev_delete_acceptor a => [a] | _ => [] end) t.

(** Every acceptor made so far has been deleted, except the one
    [acceptor_] points to; and no address was handed out twice. *)
Definition acceptor_inv {C} (s : lifecycle (C := C)) : Prop :=
  acceptors_made (lc_trace s)
  = acceptors_deleted (lc_trace s) ++ option_list (acceptor_ s)
  ∧ Forall (λ a, a < next_acceptor s) (acceptors_made (lc_trace s))
  ∧ NoDup (acceptors_made (lc_trace s)).

(** An endpoint on which every call on the acceptor succeeds. *)
Definition endpoint_ok (h : host) (ep : endpoint) : bool :=
  forallb (λ st, negb (failed (acceptor_answer h ep st))) acceptor_steps.

(** Two hosts with the endpoints 7 and 8: on the first, binding fails
    on both; on the second, on 7 only. *)
Definition closed_host : host :=
  Host [7; 8]
    (λ _ st, match st with step_bind => other_error 98 | _ => success end)
    (λ _, true).

Definition half_open_host : host :=
  Host [7; 8]
    (λ ep st, match st with
              | step_bind => if bool_decide (ep = 7) then other_error 98
                             else success
              | _ => success
              end)
    (λ _, true).

End Parcelport.

(* ===================================================================== *)
(** * Cooperative execution context *)
(* ===================================================================== *)

Module Coroutine.

(** [thread_state_enum], of which the code names [terminated]. *)
Inductive thread_state_enum :=
| unknown
| active
| pending
| suspended
| depleted
| terminated
| staged.

#[global] Instance thread_state_enum_eq_dec : EqDecision thread_state_enum.
Proof. solve_decision. Defined.

(** [thread_id_type]; [None] is [invalid_thread_id]. *)
Definition thread_id := option N.
Definition invalid_thread_id : thread_id := None.

(** [result_type], a pair of state and thread id. *)
Definition result_type : Type := thread_state_enum * thread_id.

(** [context_exit_status] and the state of a context. *)
Inductive context_exit_status :=
| ctx_exited_return
| ctx_exited_exit
| ctx_exited_abnormally.

Inductive context_state :=
| ctx_running
| ctx_ready
| ctx_waiting
| ctx_exited.

#[global] Instance context_state_eq_dec : EqDecision context_state.
Proof. solve_decision. Defined.

(** What a thrown exception is known by. *)
Inductive exception :=
| bad_function_call
| thrown (what : N).

(** [std::exception_ptr]; [None] is the null pointer. *)
Definition exception_ptr := option exception.

(** [coroutine_self*]: the address of a [coroutine_self] object, [None]
    for [nullptr]. *)
Definition self_ptr := option N.

Inductive outcome :=
| returns (r : result_type)
| throws (e : exception).

(** The work item bound to a context.  It is called with the argument
    and runs on the thread whose "current context" marker it finds, and
    may leave the marker at any value. *)
Definition thread_function : Type := N → self_ptr → outcome * self_ptr.

(** The members of [coroutine_impl] and of its base the run loop
    touches, and the address at which the local [self] of the run loop
    lives on the context's own stack. *)
Record coroutine_impl := CoroutineImpl {
  m_fun : option thread_function;
  m_arg : N;
  m_result : option result_type;
  m_state : context_state;
  m_exit_status : context_exit_status;
  m_type_info : exception_ptr;
  self_address : N
}.

(** What is handed to the resumer when the context exits. *)
Record delivery := Delivery {
  d_state : context_state;
  d_exit_status : context_exit_status;
  d_type_info : exception_ptr;
  d_result : option result_type
}.

(** The thread the context runs on: the thread-local marker behind
    [coroutine_self::get_self] and [set_self], and what the resumer has
    been handed so far. *)
Record world := World {
  current_self : self_ptr;
  delivered : list delivery
}.

Definition get_self (w : world) : self_ptr := current_self w.

Definition set_self (val : self_ptr) (w : world) : world :=
  World val (delivered w).

(** [reset_self_on_exit]: the constructor keeps [old_val] and installs
    [val]; the destructor installs what was kept. *)
Record reset_self_on_exit := ResetSelfOnExit {
  old_self : self_ptr
}.

Definition reset_self_on_exit_ctor (val old_val : self_ptr) (w : world)
  : reset_self_on_exit * world :=
  (ResetSelfOnExit old_val, set_self val w).

Definition reset_self_on_exit_dtor (g : reset_self_on_exit) (w : world)
  : world :=
  set_self (old_self g) w.

(** [m_fun( *this->args())]: calling an empty function object throws. *)
Definition call_m_fun (c : coroutine_impl) (w : world) : outcome * world :=
  match m_fun c with
  | Some f =>
      let '(o, mark) := f (m_arg c) (current_self w) in
      (o, World mark (delivered w))
  | None => (throws bad_function_call, w)
  end.

(** [this->bind_result(result_last)]: the value the other side of the
    fence reads. *)
Definition bind_result (r : result_type) (c : coroutine_impl)
  : coroutine_impl :=
  CoroutineImpl (m_fun c) (m_arg c) (Some r) (m_state c) (m_exit_status c)
    (m_type_info c) (self_address c).

(** [this->reset()]: "functor should have been reset by now". *)
Definition reset (c : coroutine_impl) : coroutine_impl :=
  CoroutineImpl None (m_arg c) (m_result c) (m_state c) (m_exit_status c)
    (m_type_info c) (self_address c).

(** Modelled from the spec: [do_return] is declared outside the
    sources.  "Deliver the terminal result (completion state + optional
    error payload) to the resumer." *)
Definition do_return (status : context_exit_status) (tinfo : exception_ptr)
    (c : coroutine_impl) (w : world) : coroutine_impl * world :=
  let c' := CoroutineImpl (m_fun c) (m_arg c) (m_result c) ctx_exited status
              tinfo (self_address c) in
  (c', World (current_self w)
         (delivered w ++ [Delivery ctx_exited status tinfo (m_result c)])).

(** The local variables that live across iterations of the loop. *)
Record locals := Locals {
  status : context_exit_status;
  result_last : result_type
}.

Inductive step_result :=
| delivered_to_resumer (l : locals) (c : coroutine_impl) (w : world)
| assertion_failed.

(** One pass through the body of the [do] loop.  [debug] says whether
    [HPX_ASSERT] is compiled in. *)
Definition loop_body (debug : bool) (l : locals) (c : coroutine_impl)
    (w : world) : step_result :=
  (* std::exception_ptr tinfo; *)
  let tinfo : exception_ptr := None in
  let old := get_self w in
  let self := Some (self_address c) in
  let '(on_exit, w) := reset_self_on_exit_ctor self old w in
  let '(o, w) := call_m_fun c w in
  match o with
  | returns r =>
      if debug && negb (bool_decide (r.1 = terminated))
      then assertion_failed
      else
        let w := reset_self_on_exit_dtor on_exit w in
        (* return value to other side of the fence *)
        let c := bind_result r c in
        let l := Locals (status l) r in
        let c := reset c in
        let '(c, w) := do_return (status l) tinfo c w in
        delivered_to_resumer l c w
  | throws e =>
      let w := reset_self_on_exit_dtor on_exit w in
      let l := Locals ctx_exited_abnormally (result_last l) in
      let tinfo := Some e in
      let c := reset c in
      let '(c, w) := do_return (status l) tinfo c w in
      delivered_to_resumer l c w
  end.

(** What the resumer does with the context after a delivery, when it
    resumes it at all: the state and work item it leaves in the context
    (a rebind), and the marker of the thread it resumes on. *)
Record resume := Resume {
  r_state : context_state;
  r_fun : option thread_function;
  r_arg : N;
  r_self : self_ptr
}.

Definition resumed (r : resume) (c : coroutine_impl) : coroutine_impl :=
  CoroutineImpl (r_fun r) (r_arg r) (m_result c) (r_state r)
    (m_exit_status c) (m_type_info c) (self_address c).

Inductive run_result :=
| parked (c : coroutine_impl) (w : world)
| left_loop (c : coroutine_impl) (w : world)
| aborted.

(** The [do ... while] loop against a resumer that resumes the context
    as [resumes] says and then never again. *)
Fixpoint run_loop (debug : bool) (resumes : list resume) (l : locals)
    (c : coroutine_impl) (w : world) : run_result :=
  match loop_body debug l c w with
  | assertion_failed => aborted
  | delivered_to_resumer l c w =>
      match resumes with
      | [] => parked c w
      | r :: resumes' =>
          let c := resumed r c in
          let w := set_self (r_self r) w in
          if decide (m_state c = ctx_running)
          then run_loop debug resumes' l c w
          else if debug then aborted else left_loop c w
      end
  end.

(** [coroutine_impl::operator()] *)
Definition run (debug : bool) (resumes : list resume) (c : coroutine_impl)
    (w : world) : run_result :=
  run_loop debug resumes
    (Locals ctx_exited_return (terminated, invalid_thread_id)) c w.


(** [coroutine_impl::~coroutine_impl], which exists in debug builds
    only: whether [HPX_ASSERT(!m_fun)] holds. *)
Definition dtor_assertion (c : coroutine_impl) : bool :=
  match m_fun c with
  | None => true
  | Some _ => false
  end.

End Coroutine.

(* ===================================================================== *)
(** * Facts about the parcel transport *)
(* ===================================================================== *)

Section ParcelportFacts.

Import Parcelport.

Context (get_prefix_from_gid : N → N).
Context (MAX_RETRIES : Z) (RETRIES_SLEEP : Z).
Context {C : Type} {cache_ops : ConnectionCache C}.

Local Abbreviation send_parcel :=
  (Parcelport.send_parcel get_prefix_from_gid MAX_RETRIES RETRIES_SLEEP).
Local Abbreviation connect_retry :=
  (Parcelport.connect_retry RETRIES_SLEEP).
Local Abbreviation state := (parcelport (C := C)).

Lemma traced_nil (s : state) : traced s [] = s.
Proof. destruct s. unfold traced. cbn. by rewrite app_nil_r. Qed.

Lemma traced_app (s : state) t1 t2 :
  traced (traced s t1) t2 = traced s (t1 ++ t2).
Proof. unfold traced. cbn. by rewrite app_assoc. Qed.

(** ** The critical sections, in closed form *)

Lemma at_enqueue_locked prefix p f q :
  at_ (enqueue_locked prefix p f q) prefix
  = ((at_ q prefix).1 ++ [p], (at_ q prefix).2 ++ [f]).
Proof.
  unfold enqueue_locked, push_back_second, push_back_first, at_.
  by rewrite !lookup_insert_eq.
Qed.

Lemma lookup_enqueue_locked_ne prefix prefix' p f q :
  prefix' ≠ prefix →
  enqueue_locked prefix p f q !! prefix' = q !! prefix'.
Proof.
  intros Hne. unfold enqueue_locked, push_back_second, push_back_first.
  by rewrite !lookup_insert_ne.
Qed.

Lemma enqueue_locked_insert prefix p f q :
  enqueue_locked prefix p f q
  = <[prefix := ((at_ q prefix).1 ++ [p], (at_ q prefix).2 ++ [f])]> q.
Proof.
  unfold enqueue_locked, push_back_second, push_back_first, at_.
  rewrite lookup_insert_eq. cbn. by rewrite insert_insert_eq.
Qed.

Lemma drain_locked_eq prefix q :
  drain_locked prefix q = (at_ q prefix, <[prefix := ([], [])]> q).
Proof.
  unfold drain_locked, swap_first, swap_second, at_.
  rewrite lookup_insert_eq. cbn. rewrite insert_insert_eq.
  by destruct (default _ _).
Qed.

Lemma drain_found_locked_fst prefix q :
  (drain_found_locked prefix q).1 = at_ q prefix.
Proof.
  unfold drain_found_locked, at_. destruct (q !! prefix) eqn:E.
  - rewrite drain_locked_eq. unfold at_. by rewrite E.
  - done.
Qed.

(** ** Each critical section keeps the two sequences as long as each
    other *)

Lemma queue_inv_empty : queue_inv ∅.
Proof. intros prefix ps hs Hl. by rewrite lookup_empty in Hl. Qed.

Lemma queue_inv_at q prefix :
  queue_inv q → length (at_ q prefix).1 = length (at_ q prefix).2.
Proof.
  intros Hq. unfold at_. destruct (q !! prefix) as [[ps hs]|] eqn:E; cbn.
  - by apply (Hq prefix).
  - done.
Qed.

Lemma queue_inv_insert q prefix ps hs :
  queue_inv q → length ps = length hs →
  queue_inv (<[prefix := (ps, hs)]> q).
Proof.
  intros Hq Hlen prefix' ps' hs' Hl.
  destruct (decide (prefix = prefix')) as [->|Hne].
  - rewrite lookup_insert_eq in Hl. by inversion Hl; subst.
  - rewrite lookup_insert_ne in Hl by done. by apply (Hq prefix').
Qed.

Lemma queue_inv_step q q' : queue_inv q → queue_step q q' → queue_inv q'.
Proof.
  intros Hq Hstep. destruct Hstep as [prefix p f q|prefix q|prefix q].
  - rewrite enqueue_locked_insert. apply queue_inv_insert; [done|].
    rewrite !length_app. cbn. by rewrite (queue_inv_at q prefix Hq).
  - rewrite drain_locked_eq. by apply queue_inv_insert.
  - unfold drain_found_locked. destruct (q !! prefix); [|done].
    rewrite drain_locked_eq. by apply queue_inv_insert.
Qed.

(** Between the two [push_back]s of the enqueue section the sequences
    differ in length: the invariant is one of the states outside the
    critical sections. *)
Lemma queue_inv_broken_inside_enqueue prefix p :
  ¬ queue_inv (push_back_first prefix p ∅).
Proof.
  intros Hq. specialize (Hq prefix [p] []).
  unfold push_back_first, at_ in Hq. rewrite lookup_insert_eq in Hq.
  rewrite lookup_empty in Hq. by specialize (Hq eq_refl).
Qed.

Lemma queue_inv_steps q q' :
  queue_inv q → rtc queue_step q q' → queue_inv q'.
Proof.
  intros Hq Hsteps. induction Hsteps as [|q1 q2 q3 Hstep _ IH]; [done|].
  apply IH. by apply (queue_inv_step q1).
Qed.

(** ** Code that only adds to the trace *)

Lemma only_emits_ret {A} P (a : A) : only_emits (C := C) P (ret a).
Proof. intros s. exists []. cbn. by rewrite traced_nil. Qed.

Lemma only_emits_throw {A} P e : only_emits (C := C) P (throw (A := A) e).
Proof. intros s. exists []. cbn. by rewrite traced_nil. Qed.

Lemma only_emits_emit (P : event → Prop) ev :
  P ev → only_emits (C := C) P (emit ev).
Proof. intros Hev s. exists [ev]. split; [done|]. by constructor. Qed.

Lemma only_emits_bind {A B} P (c : M (C := C) A) (k : A → M B) :
  only_emits P c → (∀ a, only_emits P (k a)) → only_emits P (bind c k).
Proof.
  intros Hc Hk s. unfold bind. destruct (Hc s) as (t & Ht & HP).
  destruct (c s) as [a s1|e s1]; cbn in Ht; subst s1.
  - destruct (Hk a (traced s t)) as (t' & Ht' & HP'). exists (t ++ t').
    split; [by rewrite Ht', traced_app|]. by apply Forall_app.
  - by exists t.
Qed.

Lemma only_emits_connect_sweep net c i eps error :
  only_emits (C := C) connect_phase (connect_sweep net c i eps error).
Proof.
  revert error. induction eps as [|ep eps IH]; intros error; cbn.
  - apply only_emits_ret.
  - apply only_emits_bind; [by apply only_emits_emit|intros _].
    apply only_emits_bind; [by apply only_emits_emit|intros _].
    destruct (negb _); [apply only_emits_ret|apply IH].
Qed.

Lemma only_emits_connect_retry net addr c n i error :
  only_emits (C := C) connect_phase (connect_retry net addr c n i error).
Proof.
  revert i error. induction n as [|n IH]; intros i error; cbn.
  - apply only_emits_ret.
  - destruct (connect_begin _ _ _) as [e|eps]; [apply only_emits_throw|].
    apply only_emits_bind; [apply only_emits_connect_sweep|intros e].
    destruct (negb _); [apply only_emits_ret|].
    apply only_emits_bind; [by apply only_emits_emit|intros _]. apply IH.
Qed.

Lemma connect_phase_not_write ev : connect_phase ev → is_async_write ev = false.
Proof. by destruct ev. Qed.

Lemma foreach_call_traced fs e n (s : state) :
  foreach_call fs e n s
  = Ret tt (traced s (map (λ f, ev_handler_called f e n) fs)).
Proof.
  revert s. induction fs as [|f fs IH]; intros s.
  - cbn. by rewrite traced_nil.
  - cbn. unfold bind. cbn. rewrite IH. unfold traced. cbn.
    by rewrite <- app_assoc.
Qed.

(** ** The connect loop when nothing answers *)

Lemma connect_sweep_all_fail net c i eps error (s : state) :
  failed error = true →
  (∀ ep, ep ∈ eps → failed (socket_connect_result net i ep) = true) →
  ∃ error' t,
    connect_sweep net c i eps error s = Ret error' (traced s t)
    ∧ failed error' = true ∧ Forall connect_phase t.
Proof.
  revert error s. induction eps as [|ep eps IH]; intros error s Herr Hall.
  - exists error, []. cbn. by rewrite traced_nil.
  - assert (Hep : failed (socket_connect_result net i ep) = true)
      by (apply Hall; constructor).
    destruct (IH (socket_connect_result net i ep)
                (traced s [ev_socket_close c;
                           ev_socket_connect c ep
                             (socket_connect_result net i ep)]) Hep)
      as (error' & t & Hrun & Hfail & Ht).
    { intros ep' Hin. apply Hall. by constructor. }
    exists error', ([ev_socket_close c;
                     ev_socket_connect c ep (socket_connect_result net i ep)]
                    ++ t).
    split; [|split; [done|]].
    + cbn [connect_sweep]. unfold bind. cbn [emit]. rewrite Hep. cbn [negb].
      rewrite <- traced_app, <- Hrun. f_equal.
      unfold traced. cbn. by rewrite <- app_assoc.
    + repeat constructor. done.
Qed.

Lemma connect_retry_all_fail net addr c n i error (s : state) :
  failed error = true →
  (∀ j, (i ≤ j < i + n)%nat →
     ∃ eps, connect_begin net (locality_ addr) j = inr eps
       ∧ ∀ ep, ep ∈ eps → failed (socket_connect_result net j ep) = true) →
  ∃ error' t,
    connect_retry net addr c n i error s = Ret error' (traced s t)
    ∧ failed error' = true ∧ Forall connect_phase t.
Proof.
  revert i error s. induction n as [|n IH]; intros i error s Herr Hall.
  - exists error, []. cbn. by rewrite traced_nil.
  - destruct (Hall i) as (eps & Hres & Heps); [lia|].
    destruct (connect_sweep_all_fail net c i eps error s Herr Heps)
      as (e1 & t1 & Hsweep & He1 & Ht1).
    destruct (IH (S i) e1 (traced s (t1 ++ [ev_sleep RETRIES_SLEEP])) He1)
      as (e2 & t2 & Hrest & He2 & Ht2).
    { intros j Hj. apply Hall. lia. }
    exists e2, ((t1 ++ [ev_sleep RETRIES_SLEEP]) ++ t2).
    split; [|split; [done|]].
    + cbn [Parcelport.connect_retry]. rewrite Hres. unfold bind.
      rewrite Hsweep, He1. cbn [negb emit]. rewrite <- traced_app, <- Hrest.
      f_equal. by rewrite <- traced_app.
    + apply Forall_app. split; [|done]. apply Forall_app. split; [done|].
      by repeat constructor.
Qed.

(** ** The shape of a send *)

(** What [write_or_readd] adds to the trace. *)
Lemma write_or_readd_eq prefix c ps hs (s : state) :
  ∃ s',
    write_or_readd prefix c ps hs s = Ret tt s'
    ∧ pending_parcels_ s' = pending_parcels_ s
    ∧ trace s'
      = trace s
        ++ (if negb (bool_decide (ps = [])) && negb (bool_decide (hs = []))
            then [ev_set_parcel c ps; ev_async_write c (CallForEach hs)]
            else [ev_cache_add prefix c]).
Proof.
  unfold write_or_readd.
  destruct (negb (bool_decide (ps = [])) && negb (bool_decide (hs = [])));
    cbn; eexists; (split; [reflexivity|]); cbn; split; try done.
  by rewrite <- app_assoc.
Qed.

(** Lines 274-300: the whole queued sequence is taken out, and handed
    to the connection when there is something in it. *)
Lemma drain_and_write_eq prefix c (s : state) :
  let ph := at_ (pending_parcels_ s) prefix in
  ∃ s',
    drain_and_write prefix c s = Ret tt s'
    ∧ pending_parcels_ s' = <[prefix := ([], [])]> (pending_parcels_ s)
    ∧ trace s'
      = trace s
        ++ ev_drain prefix ph.1 ph.2
           :: (if negb (bool_decide (ph.1 = []))
                  && negb (bool_decide (ph.2 = []))
               then [ev_set_parcel c ph.1;
                     ev_async_write c (CallForEach ph.2)]
               else [ev_cache_add prefix c]).
Proof.
  intros ph. unfold drain_and_write, bind, drain, with_queue, bind.
  rewrite drain_locked_eq. fold ph. cbn [emit ret fst snd].
  set (s1 := ParcelPort _ _ _ _ _ _).
  destruct (write_or_readd_eq prefix c ph.1 ph.2 s1) as (s' & Hrun & Hq & Ht).
  exists s'. split; [done|]. split; [done|].
  rewrite Ht. cbn. by rewrite <- app_assoc.
Qed.

(** [send_parcel] after its first two steps, the lookup and the
    enqueue. *)
Lemma send_parcel_unfold net p addr f (s : state) :
  let prefix := get_prefix_from_gid (get_destination p) in
  let looked_up := cache_get prefix (connection_cache_ s) in
  let queued := enqueue_locked prefix p f (pending_parcels_ s) in
  let s2 := ParcelPort queued looked_up.2 (parcels_received_ s)
              (receive_data s) (next_connection s)
              (trace s ++ [ev_cache_get prefix looked_up.1;
                           ev_enqueue prefix p f]) in
  send_parcel net p addr f s
  = match looked_up.1 with
    | None =>
        if cache_full prefix looked_up.2
        then Ret tt (traced s2 [ev_cache_full prefix true])
        else
          let c := next_connection s in
          bind (connect_retry net addr c (Z.to_nat MAX_RETRIES) 0 try_again)
            (λ error,
               if failed error then
                 bind (emit (ev_socket_close c))
                   (λ _, throw (network_error "parcelport::send_parcel"
                                  error (Some (locality_ addr))))
               else drain_and_write prefix c)
            (ParcelPort queued looked_up.2 (parcels_received_ s)
               (receive_data s) (N.succ (next_connection s))
               (trace s2 ++ [ev_cache_full prefix false;
                             ev_new_connection c prefix]))
    | Some c => drain_and_write prefix c s2
    end.
Proof.
  intros prefix looked_up queued s2.
  unfold Parcelport.send_parcel. fold prefix.
  unfold bind at 1. unfold connection_cache_get, bind at 1.
  fold looked_up. unfold s2. destruct looked_up as [r cache1].
  cbn [emit bind ret fst snd]. unfold bind at 1.
  unfold bind at 1. unfold enqueue, with_queue, bind at 1.
  cbn [emit pending_parcels_ connection_cache_ parcels_received_
       receive_data next_connection trace]. fold queued.
  rewrite <- app_assoc. cbn [app].
  destruct r as [c|]; [done|].
  unfold bind at 1. unfold connection_cache_full, bind at 1.
  cbn [emit ret bind pending_parcels_ connection_cache_ parcels_received_
       receive_data next_connection trace].
  destruct (cache_full prefix cache1); [done|].
  unfold bind at 1. unfold new_parcelport_connection, bind at 1.
  cbn [emit ret bind pending_parcels_ connection_cache_ parcels_received_
       receive_data next_connection trace].
  unfold bind. rewrite <- !app_assoc. reflexivity.
Qed.

(** Whatever way a send ends, it has looked up the cache and then
    enqueued the pair; what follows is no write, until the call either
    ends with the queue as the enqueue left it, or takes all of the
    destination's entry out of the queue and writes it at once. *)
Lemma send_parcel_effect net p addr f (s : state) :
  let prefix := get_prefix_from_gid (get_destination p) in
  let looked_up := cache_get prefix (connection_cache_ s) in
  let queued := enqueue_locked prefix p f (pending_parcels_ s) in
  let s' := final_state (send_parcel net p addr f s) in
  ∃ mid tail,
    trace s'
    = trace s ++ ev_cache_get prefix looked_up.1
                   :: ev_enqueue prefix p f :: mid ++ tail
    ∧ Forall (λ ev, is_async_write ev = false) mid
    ∧ (tail = [] ∧ pending_parcels_ s' = queued
       ∨ ∃ c,
           tail = [ev_drain prefix (at_ queued prefix).1 (at_ queued prefix).2;
                   ev_set_parcel c (at_ queued prefix).1;
                   ev_async_write c (CallForEach (at_ queued prefix).2)]
           ∧ pending_parcels_ s' = <[prefix := ([], [])]> queued).
Proof.
  intros prefix looked_up queued s'.
  pose proof (send_parcel_unfold net p addr f s) as Hrun.
  cbv zeta in Hrun. fold prefix looked_up queued in Hrun.
  set (s2 := ParcelPort queued looked_up.2 _ _ _ _) in Hrun.
  assert (Hkeep : ∀ (s3 : state) t,
    pending_parcels_ s3 = queued → trace s3 = trace s2 ++ t →
    Forall (λ ev, is_async_write ev = false) t →
    ∃ mid tail,
      trace s3
      = trace s ++ ev_cache_get prefix looked_up.1
                     :: ev_enqueue prefix p f :: mid ++ tail
      ∧ Forall (λ ev, is_async_write ev = false) mid
      ∧ (tail = [] ∧ pending_parcels_ s3 = queued
         ∨ ∃ c,
             tail = [ev_drain prefix (at_ queued prefix).1
                       (at_ queued prefix).2;
                     ev_set_parcel c (at_ queued prefix).1;
                     ev_async_write c (CallForEach (at_ queued prefix).2)]
             ∧ pending_parcels_ s3 = <[prefix := ([], [])]> queued)).
  { intros s3 t Hq Ht HP. exists t, []. split; [|split; [done|by left]].
    rewrite Ht. cbn. by rewrite <- !app_assoc, app_nil_r. }
  assert (Hdrain : ∀ c (s3 : state) t,
    pending_parcels_ s3 = queued → trace s3 = trace s2 ++ t →
    Forall (λ ev, is_async_write ev = false) t →
    ∃ mid tail,
      trace (final_state (drain_and_write prefix c s3))
      = trace s ++ ev_cache_get prefix looked_up.1
                     :: ev_enqueue prefix p f :: mid ++ tail
      ∧ Forall (λ ev, is_async_write ev = false) mid
      ∧ (tail = []
         ∧ pending_parcels_ (final_state (drain_and_write prefix c s3))
           = queued
         ∨ ∃ c',
             tail = [ev_drain prefix (at_ queued prefix).1
                       (at_ queued prefix).2;
                     ev_set_parcel c' (at_ queued prefix).1;
                     ev_async_write c' (CallForEach (at_ queued prefix).2)]
             ∧ pending_parcels_ (final_state (drain_and_write prefix c s3))
               = <[prefix := ([], [])]> queued)).
  { intros c s3 t Hq3 Ht3 HP.
    destruct (drain_and_write_eq prefix c s3) as (s4 & Hrun' & Hq & Hev).
    rewrite Hrun'. cbn [final_state]. rewrite Hq3 in Hq, Hev.
    rewrite !bool_decide_eq_false_2 in Hev.
    2,3: unfold queued; rewrite at_enqueue_locked; cbn [fst snd];
         intros [_ ?]%app_eq_nil; discriminate.
    cbn [negb andb] in Hev.
    eexists t, _. split; [|split; [done|right; by exists c]].
    rewrite Hev, Ht3. cbn. by rewrite <- !app_assoc. }
  subst s'. rewrite Hrun. clear Hrun.
  destruct looked_up.1 as [c|].
  { apply (Hdrain c s2 []); [done|by rewrite app_nil_r|done]. }
  destruct (cache_full prefix looked_up.2).
  { apply (Hkeep _ [ev_cache_full prefix true]); [done|done|].
    by repeat constructor. }
  cbv zeta. set (c := next_connection s).
  set (s3 := ParcelPort _ _ _ _ _ _).
  match goal with
  | |- context [final_state ?R] => remember R as result eqn:Hres
  end.
  unfold bind at 1 in Hres.
  destruct (only_emits_connect_retry net addr c
              (Z.to_nat MAX_RETRIES) 0 try_again s3) as (t & Ht & HP).
  pose proof (Forall_impl _ _ _ HP connect_phase_not_write) as HP'.
  assert (HP3 : Forall (λ ev, is_async_write ev = false)
                  ([ev_cache_full prefix false; ev_new_connection c prefix]
                   ++ t ++ [ev_socket_close c])).
  { apply Forall_app. split; [by repeat constructor|].
    apply Forall_app. split; [done|by repeat constructor]. }
  assert (HP4 : Forall (λ ev, is_async_write ev = false)
                  ([ev_cache_full prefix false; ev_new_connection c prefix]
                   ++ t)).
  { apply Forall_app. split; [by repeat constructor|done]. }
  destruct (connect_retry _ _ _ _ _ _ s3) as [error s4|e s4];
    cbn [final_state] in Ht; subst s4.
  - destruct (failed error); subst result.
    + eapply Hkeep; [done| |exact HP3]. cbn. rewrite <- !app_assoc.
      reflexivity.
    + eapply Hdrain; [done| |exact HP4]. cbn. rewrite <- !app_assoc.
      reflexivity.
  - subst result. eapply Hkeep; [done| |exact HP4]. cbn.
    rewrite <- !app_assoc. reflexivity.
Qed.

(** With nothing in the cache for [prefix], [send_pending_parcels]
    does the lookup and nothing else. *)
Lemma send_pending_parcels_miss prefix (s : state) :
  (cache_get prefix (connection_cache_ s)).1 = None →
  send_pending_parcels prefix s
  = Ret tt (ParcelPort (pending_parcels_ s)
              (cache_get prefix (connection_cache_ s)).2
              (parcels_received_ s) (receive_data s)
              (next_connection s) (trace s ++ [ev_cache_get prefix None])).
Proof.
  intros Hget. unfold send_pending_parcels, connection_cache_get, bind.
  destruct (cache_get prefix (connection_cache_ s)) as [r c] eqn:E.
  cbn in *. subst r. reflexivity.
Qed.

(** With a connection in the cache, it takes the entry out of the
    queue, and writes it when there is something in it. *)
Lemma send_pending_parcels_hit prefix c (s : state) :
  let ph := at_ (pending_parcels_ s) prefix in
  (cache_get prefix (connection_cache_ s)).1 = Some c →
  ∃ s',
    send_pending_parcels prefix s = Ret tt s'
    ∧ pending_parcels_ s' = (drain_found_locked prefix (pending_parcels_ s)).2
    ∧ trace s'
      = trace s
        ++ ev_cache_get prefix (Some c) :: ev_drain prefix ph.1 ph.2
           :: (if negb (bool_decide (ph.1 = []))
                  && negb (bool_decide (ph.2 = []))
               then [ev_set_parcel c ph.1;
                     ev_async_write c (CallForEach ph.2)]
               else [ev_cache_add prefix c]).
Proof.
  intros ph Hget. unfold send_pending_parcels, connection_cache_get, bind.
  destruct (cache_get prefix (connection_cache_ s)) as [r cache1] eqn:E.
  cbn in Hget. subst r. cbn [emit ret]. unfold drain_found, with_queue, bind.
  cbn [pending_parcels_ connection_cache_ parcels_received_
       receive_data next_connection trace emit ret].
  pose proof (drain_found_locked_fst prefix (pending_parcels_ s)) as Hfst.
  fold ph in Hfst.
  destruct (drain_found_locked prefix (pending_parcels_ s)) as [ph' q'].
  cbn in Hfst. subst ph'. cbn [emit ret trace pending_parcels_
       connection_cache_ parcels_received_ receive_data next_connection
       fst snd].
  set (s1 := ParcelPort _ _ _ _ _ _).
  destruct (write_or_readd_eq prefix c ph.1 ph.2 s1) as (s' & Hrun & Hq & Ht).
  exists s'. split; [done|]. split; [done|].
  rewrite Ht. cbn. by rewrite <- !app_assoc.
Qed.

(** A send and a drain step move the queue by critical sections. *)
Lemma send_parcel_queue_steps net p addr f (s : state) :
  rtc queue_step (pending_parcels_ s)
    (pending_parcels_ (final_state (send_parcel net p addr f s))).
Proof.
  destruct (send_parcel_effect net p addr f s)
    as (mid & tail & _ & _ & [[_ Hq]|(c & _ & Hq)]); rewrite Hq.
  - apply rtc_once. constructor.
  - eapply rtc_l; [apply step_enqueue|]. apply rtc_once.
    pose proof (step_drain
                  (get_prefix_from_gid (get_destination p))
                  (enqueue_locked
                     (get_prefix_from_gid (get_destination p)) p f
                     (pending_parcels_ s))) as Hstep.
    by rewrite drain_locked_eq in Hstep.
Qed.

Lemma send_pending_parcels_queue_steps prefix (s : state) :
  rtc queue_step (pending_parcels_ s)
    (pending_parcels_ (final_state (send_pending_parcels prefix s))).
Proof.
  destruct ((cache_get prefix (connection_cache_ s)).1) as [c|] eqn:E.
  - destruct (send_pending_parcels_hit prefix c s E) as (s' & Hrun & Hq & _).
    rewrite Hrun. cbn [final_state]. rewrite Hq. apply rtc_once.
    constructor.
  - rewrite (send_pending_parcels_miss prefix s E). cbn. apply rtc_refl.
Qed.

(** ** The claims about the transport *)

(** C1.  A send that finds no cached connection, with the cache not
    full, and on which every sweep resolves its endpoints and every
    connect attempt of every sweep fails: the new connection is closed,
    the send throws [network_error] with the last socket error and the
    destination, and the queue is what it was after this call's enqueue;
    the destination's entry is the old one with the pair of this call at
    its end, every other entry is untouched. *)
Theorem send_parcel_connect_failure_keeps_queue net p addr f (s : state) :
  let prefix := get_prefix_from_gid (get_destination p) in
  let looked_up := cache_get prefix (connection_cache_ s) in
  looked_up.1 = None →
  cache_full prefix looked_up.2 = false →
  (∀ i, (i < Z.to_nat MAX_RETRIES)%nat →
     ∃ eps, connect_begin net (locality_ addr) i = inr eps
       ∧ ∀ ep, ep ∈ eps → failed (socket_connect_result net i ep) = true) →
  ∃ error s' t,
    send_parcel net p addr f s
    = Throw (network_error "parcelport::send_parcel" error
               (Some (locality_ addr))) s'
    ∧ failed error = true
    ∧ pending_parcels_ s' = enqueue_locked prefix p f (pending_parcels_ s)
    ∧ at_ (pending_parcels_ s') prefix
      = ((at_ (pending_parcels_ s) prefix).1 ++ [p],
         (at_ (pending_parcels_ s) prefix).2 ++ [f])
    ∧ (∀ prefix', prefix' ≠ prefix →
         pending_parcels_ s' !! prefix' = pending_parcels_ s !! prefix')
    ∧ trace s'
      = trace s ++ [ev_cache_get prefix None; ev_enqueue prefix p f;
                    ev_cache_full prefix false;
                    ev_new_connection (next_connection s) prefix]
          ++ t ++ [ev_socket_close (next_connection s)]
    ∧ Forall connect_phase t.
Proof.
  intros prefix looked_up Hmiss Hfull Hnet.
  pose proof (send_parcel_unfold net p addr f s) as Hrun.
  cbv zeta in Hrun. fold prefix looked_up in Hrun.
  rewrite Hmiss, Hfull in Hrun.
  set (s3 := ParcelPort _ _ _ _ (N.succ _) _) in Hrun.
  destruct (connect_retry_all_fail net addr (next_connection s)
              (Z.to_nat MAX_RETRIES) 0 try_again s3 eq_refl)
    as (error & t & Hretry & Hfail & Ht).
  { intros j Hj. apply Hnet. lia. }
  unfold bind at 1 in Hrun. rewrite Hretry, Hfail in Hrun.
  exists error, (traced s3 (t ++ [ev_socket_close (next_connection s)])), t.
  split; [|split; [done|split; [done|split; [|split; [|split; [|done]]]]]].
  - rewrite Hrun. cbn. unfold throw. f_equal. unfold traced. cbn.
    by rewrite <- !app_assoc.
  - cbn. apply at_enqueue_locked.
  - intros prefix' Hne. cbn. by apply lookup_enqueue_locked_ne.
  - cbn. by rewrite <- !app_assoc.
Qed.


(** C5.  The function object handed to the batched write calls every
    handler it holds once, in order, each with the error code and byte
    count it is called with; the write completion does that and then
    schedules the drain.  The handlers it holds are the drained ones:
    whenever [send_parcel] or [send_pending_parcels] starts a write, the
    function object it passes holds the handlers queued for the
    destination, in the order of the enqueues, the handler of the send
    itself last. *)
Theorem drained_handlers_called_once_in_order :
  (∀ h e n (s : state),
     call_for_each_call h e n s
     = Ret tt (traced s (map (λ f, ev_handler_called f e n) (fv h))))
  ∧ (∀ prefix h e n (s : state),
       write_completed prefix h e n s
       = Ret tt (traced s (map (λ f, ev_handler_called f e n) (fv h)
                           ++ [ev_register_thread "send_pending_parcels"
                                 prefix])))
  ∧ (∀ prefix (pairs : list (parcel * write_handler_type)) q,
       at_ (foldl (λ q pf, enqueue_locked prefix pf.1 pf.2 q) q pairs) prefix
       = ((at_ q prefix).1 ++ pairs.*1, (at_ q prefix).2 ++ pairs.*2))
  ∧ (∀ net p addr f c h (s : state) t,
       let prefix := get_prefix_from_gid (get_destination p) in
       let ph := at_ (pending_parcels_ s) prefix in
       trace (final_state (send_parcel net p addr f s)) = trace s ++ t →
       ev_async_write c h ∈ t →
       h = CallForEach (ph.2 ++ [f])
       ∧ ev_set_parcel c (ph.1 ++ [p]) ∈ t)
  ∧ (∀ prefix c h (s : state) t,
       let ph := at_ (pending_parcels_ s) prefix in
       trace (final_state (send_pending_parcels prefix s)) = trace s ++ t →
       ev_async_write c h ∈ t →
       h = CallForEach ph.2 ∧ ev_set_parcel c ph.1 ∈ t)
  ∧ (∀ net p addr f c (s : state),
       let prefix := get_prefix_from_gid (get_destination p) in
       let ph := at_ (pending_parcels_ s) prefix in
       (cache_get prefix (connection_cache_ s)).1 = Some c →
       ∃ s', send_parcel net p addr f s = Ret tt s'
         ∧ trace s'
           = trace s ++ [ev_cache_get prefix (Some c); ev_enqueue prefix p f;
                         ev_drain prefix (ph.1 ++ [p]) (ph.2 ++ [f]);
                         ev_set_parcel c (ph.1 ++ [p]);
                         ev_async_write c (CallForEach (ph.2 ++ [f]))]).
Proof.
  split; [|split; [|split; [|split; [|split]]]].
  - intros h e n s. apply foreach_call_traced.
  - intros prefix h e n s. unfold write_completed, bind, call_for_each_call.
    rewrite foreach_call_traced. unfold send_pending_parcels_trampoline.
    rewrite <- traced_app. reflexivity.
  - intros prefix pairs. induction pairs as [|[p f] pairs IH]; intros q.
    + cbn. rewrite !app_nil_r. by destruct (at_ q prefix).
    + cbn [foldl]. rewrite IH, at_enqueue_locked. cbn.
      by rewrite <- !app_assoc.
  - intros net p addr f c h s t prefix ph Ht Hin.
    destruct (send_parcel_effect net p addr f s)
      as (mid & tail & Ht' & Hmid & Htail).
    fold prefix in Ht', Htail. rewrite Ht in Ht'.
    apply app_inv_head in Ht'. subst t.
    rewrite at_enqueue_locked in Htail. fold ph in Htail.
    cbn [fst snd] in Htail.
    apply elem_of_cons in Hin as [Hin|Hin]; [discriminate Hin|].
    apply elem_of_cons in Hin as [Hin|Hin]; [discriminate Hin|].
    apply elem_of_app in Hin as [Hin|Hin].
    { rewrite Forall_forall in Hmid. by specialize (Hmid _ Hin). }
    destruct Htail as [[-> _]|(c' & -> & _)].
    { by apply elem_of_nil in Hin. }
    apply elem_of_cons in Hin as [Hin|Hin]; [discriminate Hin|].
    apply elem_of_cons in Hin as [Hin|Hin]; [discriminate Hin|].
    apply list_elem_of_singleton in Hin. injection Hin as -> ->.
    split; [done|]. do 2 apply list_elem_of_further.
    apply elem_of_app. right. apply list_elem_of_further. constructor.
  - intros prefix c h s t ph Ht Hin.
    destruct ((cache_get prefix (connection_cache_ s)).1) as [c'|] eqn:E.
    + destruct (send_pending_parcels_hit prefix c' s E)
        as (s' & Hrun & _ & Ht').
      rewrite Hrun in Ht. cbn [final_state] in Ht. rewrite Ht in Ht'.
      apply app_inv_head in Ht'. subst t. fold ph in Hin |- *.
      apply elem_of_cons in Hin as [Hin|Hin]; [discriminate Hin|].
      apply elem_of_cons in Hin as [Hin|Hin]; [discriminate Hin|].
      destruct (negb _ && negb _).
      * apply elem_of_cons in Hin as [Hin|Hin]; [discriminate Hin|].
        apply list_elem_of_singleton in Hin. injection Hin as -> ->.
        split; [done|]. do 2 apply list_elem_of_further. constructor.
      * apply list_elem_of_singleton in Hin. discriminate Hin.
    + rewrite (send_pending_parcels_miss prefix s E) in Ht.
      cbn [final_state trace] in Ht. apply app_inv_head in Ht. subst t.
      apply list_elem_of_singleton in Hin. discriminate Hin.
  - intros net p addr f c s prefix ph Hget.
    pose proof (send_parcel_unfold net p addr f s) as Hrun.
    cbv zeta in Hrun. fold prefix in Hrun. rewrite Hget in Hrun.
    set (s2 := ParcelPort _ _ _ _ _ _) in Hrun.
    destruct (drain_and_write_eq prefix c s2) as (s' & Hdw & _ & Ht).
    exists s'. split; [by rewrite Hrun|].
    cbn [pending_parcels_ s2] in Ht. rewrite at_enqueue_locked in Ht.
    fold ph in Ht. cbn [fst snd] in Ht.
    rewrite !bool_decide_eq_false_2 in Ht
      by (intros [_ ?]%app_eq_nil; discriminate).
    rewrite Ht. cbn. by rewrite <- !app_assoc.
Qed.

(** C8, as amended.  Every send first looks up the connection cache
    and then enqueues the pair at the end of the destination's entry,
    whatever the lookup found; nothing else, and nothing of the network,
    comes before the enqueue.  After it the call either leaves the queue
    alone or takes the destination's whole entry, the pair included, out
    of it. *)
Theorem send_parcel_looks_up_then_enqueues net p addr f (s : state) :
  let prefix := get_prefix_from_gid (get_destination p) in
  let looked_up := cache_get prefix (connection_cache_ s) in
  let queued := enqueue_locked prefix p f (pending_parcels_ s) in
  let s' := final_state (send_parcel net p addr f s) in
  at_ queued prefix = ((at_ (pending_parcels_ s) prefix).1 ++ [p],
                       (at_ (pending_parcels_ s) prefix).2 ++ [f])
  ∧ ∃ rest,
      trace s'
      = trace s ++ ev_cache_get prefix looked_up.1
                     :: ev_enqueue prefix p f :: rest
      ∧ (pending_parcels_ s' = queued
         ∨ pending_parcels_ s' = <[prefix := ([], [])]> queued
           ∧ ev_drain prefix (at_ queued prefix).1 (at_ queued prefix).2
             ∈ rest).
Proof.
  intros prefix looked_up queued s'. split; [apply at_enqueue_locked|].
  destruct (send_parcel_effect net p addr f s)
    as (mid & tail & Ht & _ & [[_ Hq]|(c & Htail & Hq)]).
  - exists (mid ++ tail). split; [done|by left].
  - exists (mid ++ tail). split; [done|]. right. split; [done|].
    apply elem_of_app. right. rewrite Htail. constructor.
Qed.

(** C9, as amended.  A read that completes with success, with
    operation-aborted or with end-of-stream has its data point completed
    and recorded, and nothing is logged; a read that completes with any
    other error is logged, and nothing is recorded and no connection's
    receive data is touched.  In neither case is anything else of the
    transport changed. *)
Theorem handle_read_completion_records_or_logs now e c (s : state) :
  let s' := final_state (handle_read_completion now e c s) in
  let data := default (DataPoint 0 0) (receive_data s !! c) in
  let completed := DataPoint (bytes_ data) (now - timer_ data) in
  handle_read_completion now e c s = Ret tt s'
  ∧ (e = success ∨ e = operation_aborted ∨ e = eof →
     parcels_received_ s' = parcels_received_ s ++ [completed]
     ∧ receive_data s' = <[c := completed]> (receive_data s)
     ∧ trace s' = trace s)
  ∧ (e ≠ success → e ≠ operation_aborted → e ≠ eof →
     parcels_received_ s' = parcels_received_ s
     ∧ receive_data s' = receive_data s
     ∧ trace s' = trace s ++ [ev_log_error e])
  ∧ pending_parcels_ s' = pending_parcels_ s
  ∧ connection_cache_ s' = connection_cache_ s
  ∧ next_connection s' = next_connection s.
Proof using Type.
  intros s' data completed. subst s'. unfold handle_read_completion.
  clear get_prefix_from_gid MAX_RETRIES RETRIES_SLEEP.
  destruct e as [| | | |v]; cbn; intuition congruence.
Qed.

(** C10.  When the cache holds no connection for the destination,
    [send_pending_parcels] returns at once: the lookup is all it does.
    The queue of every destination is what it was, and no thread is
    registered, nothing is written and nothing is drained. *)
Theorem send_pending_parcels_without_connection_returns prefix (s : state) :
  (cache_get prefix (connection_cache_ s)).1 = None →
  ∃ s', send_pending_parcels prefix s = Ret tt s'
    ∧ pending_parcels_ s' = pending_parcels_ s
    ∧ trace s' = trace s ++ [ev_cache_get prefix None]
    ∧ parcels_received_ s' = parcels_received_ s
    ∧ receive_data s' = receive_data s
    ∧ next_connection s' = next_connection s.
Proof.
  intros Hget. eexists. split; [by apply send_pending_parcels_miss|]. done.
Qed.

(** ** More about the transport *)

(** *** Traces and the queue *)

Lemma enqueued_app prefix t1 t2 :
  enqueued prefix (t1 ++ t2) = enqueued prefix t1 ++ enqueued prefix t2.
Proof. apply flat_map_app. Qed.

Lemma drained_parcels_app prefix t1 t2 :
  drained_parcels prefix (t1 ++ t2)
  = drained_parcels prefix t1 ++ drained_parcels prefix t2.
Proof. apply flat_map_app. Qed.

Lemma drained_handlers_app prefix t1 t2 :
  drained_handlers prefix (t1 ++ t2)
  = drained_handlers prefix t1 ++ drained_handlers prefix t2.
Proof. apply flat_map_app. Qed.

Lemma silent_trace prefix t :
  Forall silent t →
  enqueued prefix t = [] ∧ drained_parcels prefix t = []
  ∧ drained_handlers prefix t = [].
Proof.
  induction 1 as [|ev t Hev _ IH]; [done|].
  destruct IH as (IHe & IHp & IHh).
  unfold enqueued, drained_parcels, drained_handlers. cbn.
  fold (enqueued prefix t) (drained_parcels prefix t)
    (drained_handlers prefix t).
  rewrite IHe, IHp, IHh. by destruct ev.
Qed.

Lemma connect_or_cache_silent ev : connect_or_cache ev → silent ev.
Proof. by destruct ev. Qed.

(** Adding silent events to the trace, or changing anything but the
    queue and the trace, keeps the account. *)
Lemma conserved_silent (s s' : state) t :
  conserved s → pending_parcels_ s' = pending_parcels_ s →
  trace s' = trace s ++ t → Forall silent t →
  conserved s'.
Proof.
  intros Hc Hq Ht Hsil prefix. destruct (Hc prefix) as [Hp Hh].
  destruct (silent_trace prefix t Hsil) as (He & Hdp & Hdh).
  rewrite Ht, Hq, enqueued_app, drained_parcels_app, drained_handlers_app.
  rewrite He, Hdp, Hdh, !app_nil_r. done.
Qed.

(** The events of a send between its enqueue and its drain are those of
    the cache and of connecting. *)
Lemma send_parcel_phases net p addr f (s : state) :
  let prefix := get_prefix_from_gid (get_destination p) in
  let looked_up := cache_get prefix (connection_cache_ s) in
  let queued := enqueue_locked prefix p f (pending_parcels_ s) in
  let s' := final_state (send_parcel net p addr f s) in
  ∃ mid tail,
    trace s'
    = trace s ++ ev_cache_get prefix looked_up.1
                   :: ev_enqueue prefix p f :: mid ++ tail
    ∧ Forall connect_or_cache mid
    ∧ (tail = [] ∧ pending_parcels_ s' = queued
       ∨ ∃ c,
           tail = [ev_drain prefix (at_ queued prefix).1 (at_ queued prefix).2;
                   ev_set_parcel c (at_ queued prefix).1;
                   ev_async_write c (CallForEach (at_ queued prefix).2)]
           ∧ pending_parcels_ s' = <[prefix := ([], [])]> queued).
Proof.
  intros prefix looked_up queued s'.
  pose proof (send_parcel_unfold net p addr f s) as Hrun.
  cbv zeta in Hrun. fold prefix looked_up queued in Hrun.
  set (s2 := ParcelPort queued looked_up.2 _ _ _ _) in Hrun.
  set (goal := λ s3 : state,
    ∃ mid tail,
      trace s3
      = trace s ++ ev_cache_get prefix looked_up.1
                     :: ev_enqueue prefix p f :: mid ++ tail
      ∧ Forall connect_or_cache mid
      ∧ (tail = [] ∧ pending_parcels_ s3 = queued
         ∨ ∃ c,
             tail = [ev_drain prefix (at_ queued prefix).1
                       (at_ queued prefix).2;
                     ev_set_parcel c (at_ queued prefix).1;
                     ev_async_write c (CallForEach (at_ queued prefix).2)]
             ∧ pending_parcels_ s3 = <[prefix := ([], [])]> queued)).
  assert (Hkeep : ∀ (s3 : state) t,
    pending_parcels_ s3 = queued → trace s3 = trace s2 ++ t →
    Forall connect_or_cache t → goal s3).
  { intros s3 t Hq Ht HP. exists t, []. split; [|split; [done|by left]].
    rewrite Ht. cbn. by rewrite <- !app_assoc, app_nil_r. }
  assert (Hdrain : ∀ c (s3 : state) t,
    pending_parcels_ s3 = queued → trace s3 = trace s2 ++ t →
    Forall connect_or_cache t →
    goal (final_state (drain_and_write prefix c s3))).
  { intros c s3 t Hq3 Ht3 HP.
    destruct (drain_and_write_eq prefix c s3) as (s4 & Hrun' & Hq & Hev).
    rewrite Hrun'. cbn [final_state]. rewrite Hq3 in Hq, Hev.
    rewrite !bool_decide_eq_false_2 in Hev.
    2,3: unfold queued; rewrite at_enqueue_locked; cbn [fst snd];
         intros [_ ?]%app_eq_nil; discriminate.
    cbn [negb andb] in Hev.
    eexists t, _. split; [|split; [done|right; by exists c]].
    rewrite Hev, Ht3. cbn. by rewrite <- !app_assoc. }
  change (goal s'). subst s'. rewrite Hrun. clear Hrun.
  destruct looked_up.1 as [c|].
  { apply (Hdrain c s2 []); [done|by rewrite app_nil_r|done]. }
  destruct (cache_full prefix looked_up.2).
  { apply (Hkeep _ [ev_cache_full prefix true]); [done|done|].
    by repeat constructor. }
  cbv zeta. set (c := next_connection s).
  set (s3 := ParcelPort _ _ _ _ _ _).
  match goal with
  | |- goal (final_state ?R) => remember R as result eqn:Hres
  end.
  unfold bind at 1 in Hres.
  destruct (only_emits_connect_retry net addr c
              (Z.to_nat MAX_RETRIES) 0 try_again s3) as (t & Ht & HP).
  assert (HP' : Forall connect_or_cache t).
  { eapply Forall_impl; [exact HP|]. intros ev Hev. by destruct ev. }
  assert (HP3 : Forall connect_or_cache
                  ([ev_cache_full prefix false; ev_new_connection c prefix]
                   ++ t ++ [ev_socket_close c])).
  { apply Forall_app. split; [by repeat constructor|].
    apply Forall_app. split; [done|by repeat constructor]. }
  assert (HP4 : Forall connect_or_cache
                  ([ev_cache_full prefix false; ev_new_connection c prefix]
                   ++ t)).
  { apply Forall_app. split; [by repeat constructor|done]. }
  destruct (connect_retry _ _ _ _ _ _ s3) as [error s4|e s4];
    cbn [final_state] in Ht; subst s4.
  - destruct (failed error); subst result.
    + eapply Hkeep; [done| |exact HP3]. cbn. rewrite <- !app_assoc.
      reflexivity.
    + eapply Hdrain; [done| |exact HP4]. cbn. rewrite <- !app_assoc.
      reflexivity.
  - subst result. eapply Hkeep; [done| |exact HP4]. cbn.
    rewrite <- !app_assoc. reflexivity.
Qed.

Lemma at_insert_eq prefix x (q : pending_parcels_map) :
  at_ (<[prefix := x]> q) prefix = x.
Proof. unfold at_. by rewrite lookup_insert_eq. Qed.

Lemma at_insert_ne prefix prefix' x (q : pending_parcels_map) :
  prefix ≠ prefix' → at_ (<[prefix := x]> q) prefix' = at_ q prefix'.
Proof. intros Hne. unfold at_. by rewrite lookup_insert_ne. Qed.

Lemma at_enqueue_locked_ne prefix prefix' p f q :
  prefix ≠ prefix' → at_ (enqueue_locked prefix p f q) prefix' = at_ q prefix'.
Proof. intros Hne. unfold at_. by rewrite lookup_enqueue_locked_ne. Qed.

Lemma at_missing prefix (q : pending_parcels_map) :
  q !! prefix = None → at_ q prefix = ([], []).
Proof. intros Hl. unfold at_. by rewrite Hl. Qed.

(** The account after more events, from the account of the events
    alone. *)
Lemma conserved_extend (s s' : state) t :
  conserved s → trace s' = trace s ++ t →
  (∀ prefix,
     (at_ (pending_parcels_ s) prefix).1 ++ (enqueued prefix t).*1
     = drained_parcels prefix t ++ (at_ (pending_parcels_ s') prefix).1
     ∧ (at_ (pending_parcels_ s) prefix).2 ++ (enqueued prefix t).*2
       = drained_handlers prefix t ++ (at_ (pending_parcels_ s') prefix).2) →
  conserved s'.
Proof.
  intros Hc Ht Hstep prefix. destruct (Hc prefix) as [Hp Hh].
  destruct (Hstep prefix) as [Hp' Hh'].
  rewrite Ht, enqueued_app, drained_parcels_app, drained_handlers_app.
  rewrite !fmap_app, Hp, Hh, <- !app_assoc. by rewrite Hp', Hh'.
Qed.

(** A send keeps the account of every destination. *)
Lemma conserved_send_parcel net p addr f (s : state) :
  conserved s → conserved (final_state (send_parcel net p addr f s)).
Proof.
  intros Hc.
  destruct (send_parcel_phases net p addr f s)
    as (mid & tail & Ht & Hmid & Htail).
  set (prefix := get_prefix_from_gid (get_destination p)) in *.
  set (queued := enqueue_locked prefix p f (pending_parcels_ s)) in *.
  assert (Hsil : Forall silent mid).
  { eapply Forall_impl; [exact Hmid|]. apply connect_or_cache_silent. }
  eapply conserved_extend; [exact Hc|exact Ht|]. intros prefix'.
  destruct (silent_trace prefix' mid Hsil) as (He & Hdp & Hdh).
  change (ev_cache_get prefix ?r :: ev_enqueue prefix p f :: mid ++ tail)
    with ([ev_cache_get prefix r; ev_enqueue prefix p f] ++ mid ++ tail).
  rewrite !enqueued_app, !drained_parcels_app, !drained_handlers_app.
  rewrite He, Hdp, Hdh.
  destruct Htail as [[-> Hq]|(c & -> & Hq)]; rewrite Hq;
    unfold enqueued, drained_parcels, drained_handlers;
    cbn [flat_map enqueued_by drained_parcels_by drained_handlers_by app];
    destruct (decide (prefix = prefix')) as [<-|Hne];
    rewrite ?app_nil_r; cbn [fmap list_fmap fst snd].
  - unfold queued. by rewrite at_enqueue_locked.
  - unfold queued. by rewrite at_enqueue_locked_ne.
  - rewrite at_insert_eq. unfold queued. rewrite at_enqueue_locked. cbn.
    by rewrite !app_nil_r.
  - rewrite at_insert_ne by done. unfold queued.
    by rewrite at_enqueue_locked_ne.
Qed.

(** So does a drain step. *)
Lemma conserved_send_pending_parcels prefix (s : state) :
  conserved s → conserved (final_state (send_pending_parcels prefix s)).
Proof.
  intros Hc.
  destruct ((cache_get prefix (connection_cache_ s)).1) as [c|] eqn:E.
  - destruct (send_pending_parcels_hit prefix c s E)
      as (s' & Hrun & Hq & Ht).
    rewrite Hrun. cbn [final_state].
    eapply conserved_extend; [exact Hc|exact Ht|]. intros prefix'.
    rewrite Hq.
    change (ev_cache_get prefix ?r :: ev_drain prefix ?a ?b :: ?rest)
      with ([ev_cache_get prefix r; ev_drain prefix a b] ++ rest).
    rewrite !enqueued_app, !drained_parcels_app, !drained_handlers_app.
    assert (Hrest : Forall silent
              (if negb (bool_decide ((at_ (pending_parcels_ s) prefix).1 = []))
                  && negb (bool_decide
                             ((at_ (pending_parcels_ s) prefix).2 = []))
               then [ev_set_parcel c (at_ (pending_parcels_ s) prefix).1;
                     ev_async_write c
                       (CallForEach (at_ (pending_parcels_ s) prefix).2)]
               else [ev_cache_add prefix c])).
    { destruct (_ && _); by repeat constructor. }
    destruct (silent_trace prefix' _ Hrest) as (-> & -> & ->).
    unfold enqueued, drained_parcels, drained_handlers.
    cbn [flat_map enqueued_by drained_parcels_by drained_handlers_by app].
    rewrite !app_nil_r. cbn [fmap list_fmap].
    unfold drain_found_locked.
    destruct (decide (prefix = prefix')) as [<-|Hne].
    + destruct (pending_parcels_ s !! prefix) as [ph|] eqn:El.
      * rewrite drain_locked_eq. cbn [snd]. rewrite at_insert_eq. cbn.
        by rewrite !app_nil_r.
      * cbn [snd]. by rewrite (at_missing _ _ El).
    + destruct (pending_parcels_ s !! prefix) as [ph|] eqn:El.
      * rewrite drain_locked_eq. cbn [snd].
        rewrite at_insert_ne by done. by rewrite ?app_nil_r.
      * cbn [snd]. by rewrite ?app_nil_r.
  - rewrite (send_pending_parcels_miss prefix s E). cbn [final_state].
    eapply conserved_silent; [exact Hc|done|reflexivity|].
    by repeat constructor.
Qed.

Lemma conserved_write_completed prefix h e n (s : state) :
  conserved s → conserved (final_state (write_completed prefix h e n s)).
Proof.
  intros Hc. unfold write_completed, call_for_each_call, bind.
  rewrite foreach_call_traced. cbn [final_state].
  eapply conserved_silent; [exact Hc|done| |].
  - unfold send_pending_parcels_trampoline, emit, traced. cbn [trace].
    rewrite <- app_assoc. reflexivity.
  - apply Forall_app. split; [|by repeat constructor].
    induction (fv h); by constructor.
Qed.

Lemma conserved_handle_accept e conn (s : state) :
  conserved s → conserved (final_state (handle_accept e conn s)).
Proof.
  intros Hc. unfold handle_accept. destruct (negb (failed e)); [|done].
  eapply conserved_silent; [exact Hc|done| |].
  - unfold bind, new_server_connection, emit. cbn [final_state trace].
    rewrite <- app_assoc. reflexivity.
  - by repeat constructor.
Qed.

Lemma conserved_handle_read_completion now e c (s : state) :
  conserved s → conserved (final_state (handle_read_completion now e c s)).
Proof.
  intros Hc. unfold handle_read_completion. destruct (_ && _).
  - eapply conserved_silent; [exact Hc|done|reflexivity|].
    by repeat constructor.
  - eapply conserved_silent with (t := []); [exact Hc|done| |done].
    cbn. by rewrite app_nil_r.
Qed.

Lemma conserved_run_call c (s : state) :
  conserved s →
  conserved (final_state
               (run_call get_prefix_from_gid MAX_RETRIES RETRIES_SLEEP c s)).
Proof.
  destruct c; cbn [run_call];
    auto using conserved_send_parcel, conserved_send_pending_parcels,
      conserved_write_completed, conserved_handle_accept,
      conserved_handle_read_completion.
Qed.

(** X1.  Whatever calls the transport has served since it was
    constructed, in whatever order, whether they returned or threw: for
    every destination the parcels enqueued so far are exactly the parcels
    handed out by the drains so far followed by the parcels still queued,
    in the same order, and likewise for the handlers.  No parcel and no
    handler is lost, doubled or reordered. *)
Theorem pending_queue_conserves_parcels_and_handlers (cache : C) calls :
  conserved (run_calls get_prefix_from_gid MAX_RETRIES RETRIES_SLEEP calls
               (parcelport_ctor cache)).
Proof.
  assert (Hgen : ∀ s : state, conserved s →
            conserved (run_calls get_prefix_from_gid MAX_RETRIES
                         RETRIES_SLEEP calls s)).
  { induction calls as [|c calls IH]; intros s Hs; [done|].
    cbn [run_calls foldl]. apply IH. by apply conserved_run_call. }
  apply Hgen. intros prefix. by cbn.
Qed.

(** *** The connect loop in general *)

Lemma occurrences_app P t1 t2 :
  occurrences P (t1 ++ t2) = (occurrences P t1 + occurrences P t2)%nat.
Proof. unfold occurrences. by rewrite List.filter_app, length_app. Qed.

Lemma occurrences_none P t :
  Forall (λ ev, P ev = false) t → occurrences P t = 0%nat.
Proof.
  unfold occurrences. induction 1 as [|ev t Hev _ IH]; [done|].
  cbn. by rewrite Hev.
Qed.

Lemma sweep_error_cons net i ep eps error :
  sweep_error net i (ep :: eps) error
  = if failed (socket_connect_result net i ep)
    then sweep_error net i eps (socket_connect_result net i ep)
    else socket_connect_result net i ep.
Proof.
  unfold sweep_error. cbn [attempted].
  destruct (failed (socket_connect_result net i ep)); [|done].
  rewrite fmap_cons, last_cons. by destruct (last _).
Qed.

Lemma sweep_events_cons net c i ep eps :
  sweep_events net c i (ep :: eps)
  = [ev_socket_close c;
     ev_socket_connect c ep (socket_connect_result net i ep)]
    ++ (if failed (socket_connect_result net i ep)
        then sweep_events net c i eps else []).
Proof.
  unfold sweep_events. cbn [attempted flat_map].
  by destruct (failed (socket_connect_result net i ep)).
Qed.

(** The inner loop in closed form. *)
Lemma connect_sweep_eq net c i eps error (s : state) :
  connect_sweep net c i eps error s
  = Ret (sweep_error net i eps error) (traced s (sweep_events net c i eps)).
Proof.
  revert error s. induction eps as [|ep eps IH]; intros error s.
  - cbn. by rewrite traced_nil.
  - cbn [connect_sweep]. unfold bind. cbn [emit].
    rewrite sweep_error_cons, sweep_events_cons.
    destruct (failed (socket_connect_result net i ep)); cbn [negb].
    + rewrite IH. f_equal. unfold traced. cbn. by rewrite <- !app_assoc.
    + unfold ret, traced. cbn. by rewrite <- !app_assoc.
Qed.

Lemma sweep_events_connect_phase net c i eps :
  Forall connect_phase (sweep_events net c i eps).
Proof.
  induction eps as [|ep eps IH]; [constructor|].
  rewrite sweep_events_cons. repeat constructor.
  by destruct (failed _).
Qed.

Lemma sweep_events_no_sleep net c i eps :
  Forall (λ ev, is_sleep ev = false) (sweep_events net c i eps).
Proof.
  induction eps as [|ep eps IH]; [constructor|].
  rewrite sweep_events_cons. repeat constructor.
  by destruct (failed _).
Qed.

(** A sweep ends with an error exactly when every endpoint refused; a
    sweep that ends without one ends with the connect that succeeded,
    the only one. *)
Lemma sweep_failed net c i eps error :
  failed error = true →
  if failed (sweep_error net i eps error)
  then (∀ ep, ep ∈ eps → failed (socket_connect_result net i ep) = true)
       ∧ attempted net i eps = eps
       ∧ Forall (λ ev, is_connected ev = false) (sweep_events net c i eps)
  else ∃ t0 ep,
         ep ∈ eps
         ∧ sweep_events net c i eps
           = t0 ++ [ev_socket_connect c ep (sweep_error net i eps error)]
         ∧ Forall (λ ev, is_connected ev = false) t0.
Proof.
  revert error. induction eps as [|ep eps IH]; intros error Herr.
  - unfold sweep_error. cbn. rewrite Herr. split; [|done].
    intros ep Hin. by apply elem_of_nil in Hin.
  - rewrite sweep_error_cons, sweep_events_cons. cbn [attempted].
    destruct (failed (socket_connect_result net i ep)) eqn:E.
    + specialize (IH _ E).
      destruct (failed (sweep_error net i eps _)).
      * destruct IH as (Hall & Hatt & Hno). split; [|split].
        -- intros ep' [->|Hin]%elem_of_cons; [done|by apply Hall].
        -- by rewrite Hatt.
        -- repeat constructor; [by cbn; rewrite E|done].
      * destruct IH as (t0 & ep' & Hin & Hev & Hno).
        exists ([ev_socket_close c;
                 ev_socket_connect c ep (socket_connect_result net i ep)]
                ++ t0), ep'.
        split; [by apply list_elem_of_further|].
        split; [by rewrite Hev, <- app_assoc|].
        repeat constructor; [by cbn; rewrite E|done].
    + rewrite E. exists [ev_socket_close c], ep.
      split; [constructor|]. split; [by rewrite app_nil_r|].
      by repeat constructor.
Qed.

(** The first [k] sweeps, when each resolves its endpoints and every
    connect is refused: [k] sleeps and no connection, and the loop goes
    on from sweep [i + k]. *)
Lemma connect_retry_skip net addr c k n i error (s : state) :
  failed error = true →
  (∀ j, (i ≤ j < i + k)%nat →
     ∃ eps, connect_begin net (locality_ addr) j = inr eps
       ∧ ∀ ep, ep ∈ eps → failed (socket_connect_result net j ep) = true) →
  ∃ error' t,
    connect_retry net addr c (k + n) i error s
    = connect_retry net addr c n (i + k) error' (traced s t)
    ∧ failed error' = true
    ∧ Forall connect_phase t
    ∧ Forall (λ ev, is_connected ev = false) t
    ∧ occurrences is_sleep t = k
    ∧ (t = [] ∨ ∃ t0, t = t0 ++ [ev_sleep RETRIES_SLEEP]).
Proof.
  revert i error s. induction k as [|k IH]; intros i error s Herr Hall.
  - exists error, []. rewrite traced_nil, Nat.add_0_r.
    repeat split; try done. by left.
  - destruct (Hall i) as (eps & Hres & Heps); [lia|].
    pose proof (sweep_failed net c i eps error Herr) as Hsw.
    assert (Hfail : failed (sweep_error net i eps error) = true).
    { clear Hsw Hres. revert error Herr.
      induction eps as [|ep eps IHe]; intros error Herr; [done|].
      rewrite sweep_error_cons, (Heps ep) by constructor.
      apply IHe; [|apply Heps; constructor].
      intros ep' Hin. apply Heps. by constructor. }
    rewrite Hfail in Hsw. destruct Hsw as (_ & _ & Hno).
    destruct (IH (S i) (sweep_error net i eps error)
                (traced s (sweep_events net c i eps
                           ++ [ev_sleep RETRIES_SLEEP])) Hfail)
      as (e2 & t2 & Hrest & He2 & Ht2 & Hno2 & Hsl2 & Hlast2).
    { intros j Hj. apply Hall. lia. }
    exists e2, ((sweep_events net c i eps ++ [ev_sleep RETRIES_SLEEP]) ++ t2).
    split; [|split; [done|split; [|split; [|split]]]].
    + cbn [Nat.add Parcelport.connect_retry]. rewrite Hres. unfold bind.
      rewrite connect_sweep_eq, Hfail. cbn [negb emit].
      replace (i + S k)%nat with (S i + k)%nat by lia.
      rewrite <- traced_app, <- Hrest. f_equal.
      by rewrite <- traced_app.
    + apply Forall_app. split; [|done]. apply Forall_app.
      split; [apply sweep_events_connect_phase|by repeat constructor].
    + apply Forall_app. split; [|done]. apply Forall_app.
      split; [done|by repeat constructor].
    + rewrite !occurrences_app, Hsl2.
      rewrite (occurrences_none _ _ (sweep_events_no_sleep net c i eps)).
      cbn. lia.
    + right. destruct Hlast2 as [->|(t0 & ->)].
      * eexists. by rewrite app_nil_r.
      * eexists. by rewrite app_assoc.
Qed.

(** However the network answers, the loop sleeps at most once per
    iteration and connects at most once. *)
Lemma connect_retry_bounded net addr c n i error (s : state) :
  failed error = true →
  ∃ t,
    final_state (connect_retry net addr c n i error s) = traced s t
    ∧ Forall connect_phase t
    ∧ (occurrences is_sleep t ≤ n)%nat
    ∧ (occurrences is_connected t ≤ 1)%nat.
Proof.
  revert i error s. induction n as [|n IH]; intros i error s Herr.
  - exists []. cbn. rewrite traced_nil. repeat split; try done; cbn; lia.
  - cbn [Parcelport.connect_retry].
    destruct (connect_begin net (locality_ addr) i) as [e|eps].
    { exists []. cbn. rewrite traced_nil. repeat split; try done; cbn; lia. }
    unfold bind. rewrite connect_sweep_eq.
    pose proof (sweep_failed net c i eps error Herr) as Hsw.
    pose proof (sweep_events_connect_phase net c i eps) as Hph.
    pose proof (occurrences_none _ _ (sweep_events_no_sleep net c i eps))
      as Hsl.
    destruct (failed (sweep_error net i eps error)) eqn:Hfail; cbn [negb].
    + destruct Hsw as (_ & _ & Hno).
      destruct (IH (S i) (sweep_error net i eps error)
                  (traced s (sweep_events net c i eps
                             ++ [ev_sleep RETRIES_SLEEP])) Hfail)
        as (t2 & Hrest & Ht2 & Hsl2 & Hco2).
      exists ((sweep_events net c i eps ++ [ev_sleep RETRIES_SLEEP]) ++ t2).
      split; [|split; [|split]].
      * cbn [emit]. rewrite <- traced_app, <- Hrest. f_equal. f_equal.
        by rewrite <- traced_app.
      * apply Forall_app. split; [|done]. apply Forall_app.
        split; [done|by repeat constructor].
      * rewrite !occurrences_app, Hsl. cbn. lia.
      * rewrite !occurrences_app, (occurrences_none _ _ Hno). cbn. lia.
    + destruct Hsw as (t0 & ep & _ & Hev & Hno).
      exists (sweep_events net c i eps).
      split; [done|]. split; [done|]. split; [lia|].
      rewrite Hev, occurrences_app, (occurrences_none _ _ Hno).
      unfold occurrences. cbn. rewrite Hfail. cbn. lia.
Qed.

Lemma failed_false e : failed e = false → e = success.
Proof. by destruct e. Qed.

Lemma send_parcel_parks_when_cache_full_aux net p addr f (s : state) :
  let prefix := get_prefix_from_gid (get_destination p) in
  let looked_up := cache_get prefix (connection_cache_ s) in
  looked_up.1 = None →
  cache_full prefix looked_up.2 = true →
  ∃ s',
    send_parcel net p addr f s = Ret tt s'
    ∧ at_ (pending_parcels_ s') prefix
      = ((at_ (pending_parcels_ s) prefix).1 ++ [p],
         (at_ (pending_parcels_ s) prefix).2 ++ [f]).
Proof.
  intros prefix looked_up Hmiss Hfull.
  pose proof (send_parcel_unfold net p addr f s) as Hrun.
  cbv zeta in Hrun. fold prefix looked_up in Hrun.
  rewrite Hmiss, Hfull in Hrun. eexists. split; [exact Hrun|].
  cbn. apply at_enqueue_locked.
Qed.

(** X2.  A send that finds no cached connection while the cache is full
    for the destination returns normally without sending: the pair is
    left at the end of the destination's queue, no connection object is
    made, and the call neither connects nor sleeps. *)
Theorem send_parcel_parks_when_cache_full net p addr f (s : state) :
  let prefix := get_prefix_from_gid (get_destination p) in
  let looked_up := cache_get prefix (connection_cache_ s) in
  looked_up.1 = None →
  cache_full prefix looked_up.2 = true →
  ∃ s',
    send_parcel net p addr f s = Ret tt s'
    ∧ at_ (pending_parcels_ s') prefix
      = ((at_ (pending_parcels_ s) prefix).1 ++ [p],
         (at_ (pending_parcels_ s) prefix).2 ++ [f])
    ∧ (∀ prefix', prefix' ≠ prefix →
         pending_parcels_ s' !! prefix' = pending_parcels_ s !! prefix')
    ∧ trace s'
      = trace s ++ [ev_cache_get prefix None; ev_enqueue prefix p f;
                    ev_cache_full prefix true]
    ∧ next_connection s' = next_connection s
    ∧ connection_cache_ s' = looked_up.2.
Proof.
  intros prefix looked_up Hmiss Hfull.
  pose proof (send_parcel_unfold net p addr f s) as Hrun.
  cbv zeta in Hrun. fold prefix looked_up in Hrun.
  rewrite Hmiss, Hfull in Hrun. eexists. split; [exact Hrun|].
  cbn. split; [apply at_enqueue_locked|].
  split; [intros prefix' Hne; by apply lookup_enqueue_locked_ne|].
  split; [by rewrite <- app_assoc|done].
Qed.

(** X3.  A parcel a send left queued is taken by the next drain step
    for its destination that finds a connection, when no other thread has
    touched the queue in between: the batch written is what was queued
    before that send followed by its parcel, the handlers likewise, and
    the destination's entry is left empty. *)
Theorem parked_parcel_is_written_by_next_drain
    net p addr f (s s1 : state) c :
  let prefix := get_prefix_from_gid (get_destination p) in
  let looked_up := cache_get prefix (connection_cache_ s) in
  let ps := (at_ (pending_parcels_ s) prefix).1 ++ [p] in
  let hs := (at_ (pending_parcels_ s) prefix).2 ++ [f] in
  looked_up.1 = None →
  cache_full prefix looked_up.2 = true →
  pending_parcels_ s1
  = pending_parcels_ (final_state (send_parcel net p addr f s)) →
  (cache_get prefix (connection_cache_ s1)).1 = Some c →
  ∃ s2,
    send_pending_parcels prefix s1 = Ret tt s2
    ∧ trace s2
      = trace s1 ++ [ev_cache_get prefix (Some c); ev_drain prefix ps hs;
                     ev_set_parcel c ps;
                     ev_async_write c (CallForEach hs)]
    ∧ at_ (pending_parcels_ s2) prefix = ([], []).
Proof.
  intros prefix looked_up ps hs Hmiss Hfull Hq1 Hhit.
  destruct (send_parcel_parks_when_cache_full_aux net p addr f s Hmiss Hfull)
    as (s' & Hrun & Hat).
  fold prefix in Hat. rewrite Hrun in Hq1. cbn [final_state] in Hq1.
  destruct (send_pending_parcels_hit prefix c s1 Hhit)
    as (s2 & Hrun2 & Hq2 & Ht2).
  cbv zeta in Ht2. rewrite Hq1, Hat in Ht2. cbn [fst snd] in Ht2.
  rewrite !bool_decide_eq_false_2 in Ht2
    by (intros [_ ?]%app_eq_nil; discriminate).
  exists s2. split; [done|]. split; [done|].
  rewrite Hq2. unfold drain_found_locked.
  assert (is_Some (pending_parcels_ s1 !! prefix)) as [ph Hph].
  { rewrite Hq1. unfold at_ in Hat.
    destruct (pending_parcels_ s' !! prefix); [done|].
    cbn in Hat. injection Hat as Hnil _. symmetry in Hnil.
    by apply app_eq_nil in Hnil as [_ ?]. }
  rewrite Hph, drain_locked_eq. cbn [snd]. apply at_insert_eq.
Qed.

(** Lines 274-296 when something is queued: the state after. *)
Lemma drain_and_write_nonempty prefix c (s : state) :
  let ph := at_ (pending_parcels_ s) prefix in
  ph.1 ≠ [] → ph.2 ≠ [] →
  drain_and_write prefix c s
  = Ret tt (ParcelPort (<[prefix := ([], [])]> (pending_parcels_ s))
              (connection_cache_ s) (parcels_received_ s) (receive_data s)
              (next_connection s)
              (trace s ++ [ev_drain prefix ph.1 ph.2; ev_set_parcel c ph.1;
                           ev_async_write c (CallForEach ph.2)])).
Proof.
  intros ph Hp Hh. unfold drain_and_write, bind, drain, with_queue, bind.
  rewrite drain_locked_eq. fold ph. cbn [emit ret fst snd].
  unfold write_or_readd. rewrite !bool_decide_eq_false_2 by done.
  cbn. unfold emit. cbn. by rewrite <- !app_assoc.
Qed.

(** X4.  A send that has to connect and reaches the destination on
    sweep [k], after [k] sweeps on which every connect was refused:
    it has slept [k] times, the connect that succeeded is the only one,
    and right after it the whole entry of the destination, this call's
    pair last, is taken from the queue and written on the new
    connection.  The connection is not put into the cache. *)
Theorem send_parcel_connects_then_writes
    net p addr f (s : state) k eps ep :
  let prefix := get_prefix_from_gid (get_destination p) in
  let looked_up := cache_get prefix (connection_cache_ s) in
  let c := next_connection s in
  let ps := (at_ (pending_parcels_ s) prefix).1 ++ [p] in
  let hs := (at_ (pending_parcels_ s) prefix).2 ++ [f] in
  looked_up.1 = None →
  cache_full prefix looked_up.2 = false →
  (k < Z.to_nat MAX_RETRIES)%nat →
  (∀ j, (j < k)%nat →
     ∃ eps', connect_begin net (locality_ addr) j = inr eps'
       ∧ ∀ ep', ep' ∈ eps' →
           failed (socket_connect_result net j ep') = true) →
  connect_begin net (locality_ addr) k = inr eps →
  ep ∈ eps →
  failed (socket_connect_result net k ep) = false →
  ∃ s' t ep',
    send_parcel net p addr f s = Ret tt s'
    ∧ trace s'
      = trace s ++ [ev_cache_get prefix None; ev_enqueue prefix p f;
                    ev_cache_full prefix false; ev_new_connection c prefix]
          ++ t ++ [ev_socket_connect c ep' success;
                   ev_drain prefix ps hs; ev_set_parcel c ps;
                   ev_async_write c (CallForEach hs)]
    ∧ ep' ∈ eps
    ∧ Forall connect_phase t
    ∧ Forall (λ ev, is_connected ev = false) t
    ∧ occurrences is_sleep t = k
    ∧ at_ (pending_parcels_ s') prefix = ([], [])
    ∧ (∀ prefix', prefix' ≠ prefix →
         pending_parcels_ s' !! prefix' = pending_parcels_ s !! prefix')
    ∧ connection_cache_ s' = looked_up.2.
Proof.
  intros prefix looked_up c ps hs Hmiss Hfull Hk Hbefore Hres Hin Hok.
  pose proof (send_parcel_unfold net p addr f s) as Hrun.
  cbv zeta in Hrun. fold prefix looked_up c in Hrun.
  rewrite Hmiss, Hfull in Hrun.
  set (s3 := ParcelPort _ _ _ _ (N.succ _) _) in Hrun.
  destruct (connect_retry_skip net addr c k (Z.to_nat MAX_RETRIES - k) 0
              try_again s3 eq_refl)
    as (e1 & t1 & Hskip & He1 & Hph1 & Hno1 & Hsl1 & _).
  { intros j Hj. apply Hbefore. lia. }
  replace (k + (Z.to_nat MAX_RETRIES - k))%nat with (Z.to_nat MAX_RETRIES)
    in Hskip by lia.
  destruct (Z.to_nat MAX_RETRIES - k)%nat as [|n] eqn:En; [lia|].
  cbn [Nat.add Parcelport.connect_retry] in Hskip. rewrite Hres in Hskip.
  unfold bind at 1 in Hskip. rewrite connect_sweep_eq in Hskip.
  pose proof (sweep_failed net c k eps e1 He1) as Hsw.
  destruct (failed (sweep_error net k eps e1)) eqn:Hfail.
  { destruct Hsw as (Hall & _). rewrite (Hall ep Hin) in Hok. done. }
  destruct Hsw as (t0 & ep' & Hin' & Hev & Hno0).
  cbn [negb] in Hskip. unfold ret in Hskip.
  unfold bind at 1 in Hrun. rewrite Hskip, Hfail in Hrun.
  rewrite (failed_false _ Hfail) in Hev.
  rewrite drain_and_write_nonempty in Hrun.
  2,3: unfold s3; cbn [traced pending_parcels_]; rewrite at_enqueue_locked;
       cbn [fst snd]; intros [_ ?]%app_eq_nil; discriminate.
  unfold s3 in Hrun. cbn [traced pending_parcels_ trace connection_cache_
    parcels_received_ receive_data next_connection] in Hrun.
  rewrite at_enqueue_locked in Hrun. cbn [fst snd] in Hrun.
  eexists _, (t1 ++ t0), ep'.
  split; [exact Hrun|]. cbn [trace pending_parcels_ connection_cache_].
  split; [|split; [done|split; [|split; [|split]]]].
  - rewrite Hev. cbn. rewrite <- !app_assoc. cbn.
    by rewrite <- ?app_assoc.
  - apply Forall_app. split; [done|].
    pose proof (sweep_events_connect_phase net c k eps) as Hph.
    rewrite Hev in Hph. by apply Forall_app in Hph as [? _].
  - by apply Forall_app.
  - rewrite occurrences_app, Hsl1.
    pose proof (occurrences_none _ _ (sweep_events_no_sleep net c k eps))
      as Hsl.
    rewrite Hev, occurrences_app in Hsl. lia.
  - split; [apply at_insert_eq|]. split; [|done].
    intros prefix' Hne. rewrite lookup_insert_ne by done.
    by apply lookup_enqueue_locked_ne.
Qed.

(** X5.  A send that has to connect and whose endpoint resolution
    throws on sweep [k], after [k] sweeps on which every connect was
    refused: the send throws [network_error] with the error resolution
    threw and without the destination in its message.  Unlike after the
    last sweep has failed, the socket is not closed again: the last
    thing the call did was the sleep after sweep [k - 1], or making the
    connection when [k] is 0.  The pair stays queued. *)
Theorem send_parcel_resolution_failure net p addr f (s : state) k e :
  let prefix := get_prefix_from_gid (get_destination p) in
  let looked_up := cache_get prefix (connection_cache_ s) in
  let c := next_connection s in
  looked_up.1 = None →
  cache_full prefix looked_up.2 = false →
  (k < Z.to_nat MAX_RETRIES)%nat →
  (∀ j, (j < k)%nat →
     ∃ eps', connect_begin net (locality_ addr) j = inr eps'
       ∧ ∀ ep', ep' ∈ eps' →
           failed (socket_connect_result net j ep') = true) →
  connect_begin net (locality_ addr) k = inl e →
  ∃ s' t,
    send_parcel net p addr f s
    = Throw (network_error "parcelport::send_parcel" e None) s'
    ∧ trace s'
      = trace s ++ [ev_cache_get prefix None; ev_enqueue prefix p f;
                    ev_cache_full prefix false; ev_new_connection c prefix]
          ++ t
    ∧ Forall connect_phase t
    ∧ Forall (λ ev, is_connected ev = false) t
    ∧ occurrences is_sleep t = k
    ∧ (t = [] ∨ ∃ t0, t = t0 ++ [ev_sleep RETRIES_SLEEP])
    ∧ pending_parcels_ s' = enqueue_locked prefix p f (pending_parcels_ s)
    ∧ connection_cache_ s' = looked_up.2.
Proof.
  intros prefix looked_up c Hmiss Hfull Hk Hbefore Hres.
  pose proof (send_parcel_unfold net p addr f s) as Hrun.
  cbv zeta in Hrun. fold prefix looked_up c in Hrun.
  rewrite Hmiss, Hfull in Hrun.
  set (s3 := ParcelPort _ _ _ _ (N.succ _) _) in Hrun.
  destruct (connect_retry_skip net addr c k (Z.to_nat MAX_RETRIES - k) 0
              try_again s3 eq_refl)
    as (e1 & t1 & Hskip & He1 & Hph1 & Hno1 & Hsl1 & Hlast1).
  { intros j Hj. apply Hbefore. lia. }
  replace (k + (Z.to_nat MAX_RETRIES - k))%nat with (Z.to_nat MAX_RETRIES)
    in Hskip by lia.
  destruct (Z.to_nat MAX_RETRIES - k)%nat as [|n] eqn:En; [lia|].
  cbn [Nat.add Parcelport.connect_retry] in Hskip. rewrite Hres in Hskip.
  unfold bind at 1 in Hrun. rewrite Hskip in Hrun. unfold throw in Hrun.
  exists (traced s3 t1), t1. split; [exact Hrun|].
  unfold s3. cbn. rewrite <- !app_assoc. by repeat split.
Qed.

(** X6.  With a retry limit of zero or less the loop body never runs:
    a send that has to connect makes the connection, closes its socket
    and throws [network_error] with [try_again], the value [error] was
    initialised with, whatever the network would have answered. *)
Theorem send_parcel_without_retries_throws net p addr f (s : state) :
  let prefix := get_prefix_from_gid (get_destination p) in
  let looked_up := cache_get prefix (connection_cache_ s) in
  let c := next_connection s in
  looked_up.1 = None →
  cache_full prefix looked_up.2 = false →
  (MAX_RETRIES ≤ 0)%Z →
  ∃ s',
    send_parcel net p addr f s
    = Throw (network_error "parcelport::send_parcel" try_again
               (Some (locality_ addr))) s'
    ∧ trace s'
      = trace s ++ [ev_cache_get prefix None; ev_enqueue prefix p f;
                    ev_cache_full prefix false; ev_new_connection c prefix;
                    ev_socket_close c]
    ∧ pending_parcels_ s' = enqueue_locked prefix p f (pending_parcels_ s).
Proof.
  intros prefix looked_up c Hmiss Hfull Hmax.
  pose proof (send_parcel_unfold net p addr f s) as Hrun.
  cbv zeta in Hrun. fold prefix looked_up c in Hrun.
  rewrite Hmiss, Hfull in Hrun.
  replace (Z.to_nat MAX_RETRIES) with 0%nat in Hrun by lia.
  eexists. split; [exact Hrun|]. cbn. by rewrite <- !app_assoc.
Qed.

(** What any send adds to the trace, by the way it ends. *)
Lemma send_parcel_added net p addr f (s : state) :
  let prefix := get_prefix_from_gid (get_destination p) in
  let queued := enqueue_locked prefix p f (pending_parcels_ s) in
  ∃ t tail,
    trace (final_state (send_parcel net p addr f s))
    = trace s ++ ev_cache_get prefix
                   (cache_get prefix (connection_cache_ s)).1
                 :: ev_enqueue prefix p f :: t ++ tail
    ∧ (occurrences is_sleep t ≤ Z.to_nat MAX_RETRIES)%nat
    ∧ (occurrences is_connected t ≤ 1)%nat
    ∧ Forall connect_or_cache t
    ∧ match send_parcel net p addr f s with
      | Ret _ s' =>
          tail = []
          ∧ (cache_get prefix (connection_cache_ s)).1 = None
          ∧ pending_parcels_ s' = queued
          ∨ tail = [ev_drain prefix (at_ queued prefix).1
                      (at_ queued prefix).2;
                    ev_set_parcel
                      (default (next_connection s)
                         (cache_get prefix (connection_cache_ s)).1)
                      (at_ queued prefix).1;
                    ev_async_write
                      (default (next_connection s)
                         (cache_get prefix (connection_cache_ s)).1)
                      (CallForEach (at_ queued prefix).2)]
            ∧ pending_parcels_ s' = <[prefix := ([], [])]> queued
      | Throw _ s' =>
          (tail = [] ∨ tail = [ev_socket_close (next_connection s)])
          ∧ (cache_get prefix (connection_cache_ s)).1 = None
          ∧ pending_parcels_ s' = queued
      end.
Proof.
  intros prefix queued.
  pose proof (send_parcel_unfold net p addr f s) as Hrun.
  cbv zeta in Hrun. fold prefix queued in Hrun.
  set (looked_up := cache_get prefix (connection_cache_ s)) in *.
  set (s2 := ParcelPort queued looked_up.2 _ _ _ _) in Hrun.
  assert (Hne1 : (at_ (pending_parcels_ s2) prefix).1 ≠ []).
  { cbn. unfold queued. rewrite at_enqueue_locked. cbn.
    intros [_ ?]%app_eq_nil. discriminate. }
  assert (Hne2 : (at_ (pending_parcels_ s2) prefix).2 ≠ []).
  { cbn. unfold queued. rewrite at_enqueue_locked. cbn.
    intros [_ ?]%app_eq_nil. discriminate. }
  rewrite Hrun. clear Hrun.
  destruct looked_up.1 as [c|].
  { rewrite drain_and_write_nonempty by done. cbn.
    eexists [], _. split; [by rewrite <- app_assoc|].
    repeat split; try done; try (cbn; lia). by right. }
  destruct (cache_full prefix looked_up.2).
  { exists [ev_cache_full prefix true], []. cbn.
    split; [by rewrite <- app_assoc|].
    split; [cbn; lia|]. split; [cbn; lia|].
    split; [by repeat constructor|]. by left. }
  cbv zeta. set (c := next_connection s).
  set (s3 := ParcelPort _ _ _ _ _ _).
  destruct (connect_retry_bounded net addr c (Z.to_nat MAX_RETRIES) 0
              try_again s3 eq_refl) as (t & Ht & Hph & Hsl & Hco).
  assert (Hnw : Forall connect_or_cache
                  ([ev_cache_full prefix false; ev_new_connection c prefix]
                   ++ t)).
  { repeat constructor.
    eapply Forall_impl; [exact Hph|]. intros ev Hev. by destruct ev. }
  match goal with
  | |- context [final_state ?R] => remember R as result eqn:Hres
  end.
  unfold bind at 1 in Hres.
  destruct (connect_retry _ _ _ _ _ _ s3) as [error s4|e s4];
    cbn [final_state] in Ht; subst s4.
  - destruct (failed error).
    + subst result.
      exists ([ev_cache_full prefix false; ev_new_connection c prefix] ++ t),
        [ev_socket_close c].
      cbn. split; [by rewrite <- !app_assoc|].
      repeat split; try done. by right.
    + rewrite drain_and_write_nonempty in Hres by done. subst result.
      eexists ([ev_cache_full prefix false; ev_new_connection c prefix]
               ++ t), _.
      cbn. split; [by rewrite <- !app_assoc|].
      repeat split; try done. by right.
  - subst result.
    exists ([ev_cache_full prefix false; ev_new_connection c prefix] ++ t),
      []. cbn. split; [by rewrite <- !app_assoc, app_nil_r|].
    repeat split; try done. by left.
Qed.

Lemma connect_or_cache_not_write ev :
  connect_or_cache ev → is_async_write ev = false.
Proof. by destruct ev. Qed.

Lemma connect_or_cache_not_enqueue ev :
  connect_or_cache ev → is_enqueue ev = false.
Proof. by destruct ev. Qed.

(** X7.  However the network answers and however a send ends, it
    enqueues once, sleeps at most [HPX_MAX_NETWORK_RETRIES] times,
    connects successfully at most once and starts at most one write. *)
Theorem send_parcel_retries_are_bounded net p addr f (s : state) :
  ∃ t,
    trace (final_state (send_parcel net p addr f s)) = trace s ++ t
    ∧ occurrences is_enqueue t = 1%nat
    ∧ (occurrences is_sleep t ≤ Z.to_nat MAX_RETRIES)%nat
    ∧ (occurrences is_connected t ≤ 1)%nat
    ∧ (occurrences is_async_write t ≤ 1)%nat.
Proof.
  destruct (send_parcel_added net p addr f s)
    as (t & tail & Ht & Hsl & Hco & Hcc & Hend).
  pose proof (Forall_impl _ _ _ Hcc connect_or_cache_not_write) as Hnw.
  pose proof (Forall_impl _ _ _ Hcc connect_or_cache_not_enqueue) as Hnq.
  cbv zeta in Ht, Hend.
  set (prefix := get_prefix_from_gid (get_destination p)) in *.
  eexists. split; [exact Ht|].
  change (ev_cache_get prefix ?r :: ev_enqueue prefix p f :: t ++ tail)
    with ([ev_cache_get prefix r; ev_enqueue prefix p f] ++ t ++ tail).
  rewrite !occurrences_app, (occurrences_none _ _ Hnw),
    (occurrences_none _ _ Hnq).
  assert (Htail : tail = [] ∨ tail = [ev_socket_close (next_connection s)]
            ∨ ∃ ps hs c, tail = [ev_drain prefix ps hs; ev_set_parcel c ps;
                                 ev_async_write c (CallForEach hs)]).
  { destruct (send_parcel net p addr f s).
    - destruct Hend as [(-> & _)|(-> & _)]; [by left|].
      right. right. by eexists _, _, _.
    - destruct Hend as ([->| ->] & _); [by left|right; by left]. }
  destruct Htail as [->|[->|(ps & hs & c & ->)]]; unfold occurrences in *;
    cbn; lia.
Qed.

(** X8.  The ways a send can end.  When it returns, either the whole
    entry of the destination, this call's pair last, has been taken from
    the queue and handed to one write, or no connection was cached and
    the pair is still queued.  When it throws, no connection was cached,
    nothing has been taken from the queue or written, and the pair is
    still queued. *)
Theorem send_parcel_outcomes net p addr f (s : state) :
  let prefix := get_prefix_from_gid (get_destination p) in
  let looked_up := cache_get prefix (connection_cache_ s) in
  let ps := (at_ (pending_parcels_ s) prefix).1 ++ [p] in
  let hs := (at_ (pending_parcels_ s) prefix).2 ++ [f] in
  match send_parcel net p addr f s with
  | Ret _ s' =>
      (∃ mid c,
         trace s'
         = trace s ++ [ev_cache_get prefix looked_up.1;
                       ev_enqueue prefix p f]
             ++ mid ++ [ev_drain prefix ps hs; ev_set_parcel c ps;
                        ev_async_write c (CallForEach hs)]
         ∧ Forall connect_or_cache mid
         ∧ at_ (pending_parcels_ s') prefix = ([], []))
      ∨ (∃ mid,
           trace s'
           = trace s ++ [ev_cache_get prefix None; ev_enqueue prefix p f]
               ++ mid
           ∧ Forall connect_or_cache mid
           ∧ looked_up.1 = None
           ∧ at_ (pending_parcels_ s') prefix = (ps, hs))
  | Throw _ s' =>
      ∃ mid,
        trace s'
        = trace s ++ [ev_cache_get prefix None; ev_enqueue prefix p f]
            ++ mid
        ∧ Forall connect_or_cache mid
        ∧ looked_up.1 = None
        ∧ at_ (pending_parcels_ s') prefix = (ps, hs)
  end.
Proof.
  intros prefix looked_up ps hs.
  destruct (send_parcel_added net p addr f s)
    as (t & tail & Ht & Hsl & Hco & Hcc & Hend).
  cbv zeta in Ht, Hend. fold prefix looked_up in Ht, Hend.
  rewrite at_enqueue_locked in Hend. cbn [fst snd] in Hend.
  fold ps hs in Hend.
  assert (Hq : at_ (enqueue_locked prefix p f (pending_parcels_ s)) prefix
               = (ps, hs)) by apply at_enqueue_locked.
  destruct (send_parcel net p addr f s) as [[] s'|ex s'];
    cbn [final_state] in Ht.
  - destruct Hend as [(-> & Hmiss & Hq')|(-> & Hq')].
    + right. exists t. rewrite app_nil_r, Hmiss in Ht. by rewrite Hq'.
    + left. exists t, (default (next_connection s) looked_up.1).
      split; [done|]. split; [done|]. rewrite Hq'. apply at_insert_eq.
  - destruct Hend as (Htail & Hmiss & Hq'). rewrite Hq'.
    rewrite Hmiss in Ht. destruct Htail as [->| ->].
    + exists t. by rewrite app_nil_r in Ht.
    + exists (t ++ [ev_socket_close (next_connection s)]).
      split; [done|]. split; [|done].
      apply Forall_app. split; [done|by repeat constructor].
Qed.

(** *** The destinations the queue has entries for *)

#[local] Set Warnings "-clear-no-such-hyp".

Lemma dom_enqueue_locked prefix p f (q : pending_parcels_map) :
  dom (enqueue_locked prefix p f q) = {[ prefix ]} ∪ dom q.
Proof. by rewrite enqueue_locked_insert, dom_insert_L. Qed.

Lemma dom_drain_found_locked prefix (q : pending_parcels_map) :
  dom (drain_found_locked prefix q).2 = dom q.
Proof using Type.
  clear get_prefix_from_gid MAX_RETRIES RETRIES_SLEEP.
  unfold drain_found_locked. destruct (q !! prefix) as [ph|] eqn:E; [|done].
  rewrite drain_locked_eq. cbn [snd]. rewrite dom_insert_L.
  apply elem_of_dom_2 in E. set_solver.
Qed.

Lemma dom_send_parcel net p addr f (s : state) :
  dom (pending_parcels_ (final_state (send_parcel net p addr f s)))
  = {[ get_prefix_from_gid (get_destination p) ]} ∪ dom (pending_parcels_ s).
Proof.
  destruct (send_parcel_phases net p addr f s)
    as (mid & tail & _ & _ & [[_ Hq]|(c & _ & Hq)]);
    cbv zeta in Hq; rewrite Hq, ?dom_insert_L, dom_enqueue_locked;
    set_solver.
Qed.

Lemma dom_send_pending_parcels prefix (s : state) :
  dom (pending_parcels_ (final_state (send_pending_parcels prefix s)))
  = dom (pending_parcels_ s).
Proof.
  destruct ((cache_get prefix (connection_cache_ s)).1) as [c|] eqn:E.
  - destruct (send_pending_parcels_hit prefix c s E) as (s' & Hrun & Hq & _).
    rewrite Hrun. cbn [final_state]. rewrite Hq.
    apply dom_drain_found_locked.
  - by rewrite (send_pending_parcels_miss prefix s E).
Qed.

Lemma dom_run_call c (s : state) :
  dom (pending_parcels_
         (final_state
            (run_call get_prefix_from_gid MAX_RETRIES RETRIES_SLEEP c s)))
  = dom (pending_parcels_ s) ∪ destination_of get_prefix_from_gid c.
Proof.
  destruct c as [net p addr f|prefix|prefix h e n|e conn|now e c];
    cbn [run_call destination_of].
  - rewrite dom_send_parcel. set_solver.
  - rewrite dom_send_pending_parcels. set_solver.
  - unfold write_completed, call_for_each_call, bind.
    rewrite foreach_call_traced. cbn. set_solver.
  - unfold handle_accept. destruct (negb (failed e)); cbn; set_solver.
  - unfold handle_read_completion. destruct (_ && _); cbn; set_solver.
Qed.

(** X9.  The queue has an entry for a destination exactly when a
    parcel has been sent to it since construction: a send makes the
    entry, and nothing ever erases one, neither a drain, which leaves
    it empty, nor a send that throws. *)
Theorem pending_queue_entries_are_never_erased (cache : C) calls :
  dom (pending_parcels_
         (run_calls get_prefix_from_gid MAX_RETRIES RETRIES_SLEEP calls
            (parcelport_ctor cache)))
  = destinations get_prefix_from_gid calls.
Proof.
  assert (Hgen : ∀ s : state,
            dom (pending_parcels_
                   (run_calls get_prefix_from_gid MAX_RETRIES RETRIES_SLEEP
                      calls s))
            = dom (pending_parcels_ s)
              ∪ destinations get_prefix_from_gid calls).
  { induction calls as [|c calls IH]; intros s.
    - unfold destinations. cbn. set_solver.
    - cbn [run_calls foldl]. unfold run_calls in IH. rewrite IH.
      rewrite dom_run_call. unfold destinations.
      rewrite fmap_cons, union_list_cons. set_solver. }
  rewrite Hgen. cbn. set_solver.
Qed.

(** X10.  A drain step that finds a connection and nothing queued for
    the destination gives the connection back to the cache and starts
    no write.  It looks the destination up with [find]: where there was
    no entry, none is made. *)
Theorem send_pending_parcels_nothing_queued prefix c (s : state) :
  let looked_up := cache_get prefix (connection_cache_ s) in
  looked_up.1 = Some c →
  at_ (pending_parcels_ s) prefix = ([], []) →
  ∃ s',
    send_pending_parcels prefix s = Ret tt s'
    ∧ trace s'
      = trace s ++ [ev_cache_get prefix (Some c); ev_drain prefix [] [];
                    ev_cache_add prefix c]
    ∧ connection_cache_ s' = cache_add prefix c looked_up.2
    ∧ dom (pending_parcels_ s') = dom (pending_parcels_ s)
    ∧ ∀ prefix', at_ (pending_parcels_ s') prefix'
                 = at_ (pending_parcels_ s) prefix'.
Proof using Type.
  clear get_prefix_from_gid MAX_RETRIES RETRIES_SLEEP.
  intros looked_up Hhit Hempty.
  unfold send_pending_parcels, connection_cache_get, bind.
  fold looked_up. destruct looked_up as [r cache1]. cbn in Hhit. subst r.
  cbn [emit ret fst snd]. unfold drain_found, with_queue, bind.
  cbn [pending_parcels_ connection_cache_ parcels_received_
       receive_data next_connection trace emit ret].
  pose proof (drain_found_locked_fst prefix (pending_parcels_ s)) as Hfst.
  pose proof (dom_drain_found_locked prefix (pending_parcels_ s)) as Hdom.
  assert (Hat : ∀ prefix',
            at_ (drain_found_locked prefix (pending_parcels_ s)).2 prefix'
            = at_ (pending_parcels_ s) prefix').
  { intros prefix'. unfold drain_found_locked.
    destruct (pending_parcels_ s !! prefix) as [ph|] eqn:E; [|done].
    rewrite drain_locked_eq. cbn [snd].
    destruct (decide (prefix = prefix')) as [<-|Hne].
    - by rewrite at_insert_eq, Hempty.
    - by rewrite at_insert_ne. }
  rewrite Hempty in Hfst.
  destruct (drain_found_locked prefix (pending_parcels_ s)) as [ph' q'].
  cbn [fst snd] in *. subst ph'.
  cbn [emit ret trace pending_parcels_ connection_cache_ parcels_received_
       receive_data next_connection fst snd].
  unfold write_or_readd. rewrite bool_decide_eq_true_2 by done.
  cbn [negb andb]. unfold connection_cache_add, bind, emit. cbn.
  eexists. split; [reflexivity|]. cbn. rewrite <- !app_assoc.
  by repeat split.
Qed.

(** *** Nothing taken from the queue is dropped *)

Lemma balanced_app t1 t2 : balanced t1 → balanced t2 → balanced (t1 ++ t2).
Proof.
  intros [Hp1 Hh1] [Hp2 Hh2]. unfold balanced, taken_parcels, taken_handlers,
    sent_parcels, sent_handlers in *.
  rewrite !flat_map_app. by rewrite Hp1, Hp2, Hh1, Hh2.
Qed.

Lemma balanced_quiet t : Forall quiet t → balanced t.
Proof.
  induction 1 as [|ev t Hev _ IH]; [done|].
  apply (balanced_app [ev] t); [|done]. by destruct ev.
Qed.

Lemma balanced_drain_write prefix c ps hs :
  balanced [ev_drain prefix ps hs; ev_set_parcel c ps;
            ev_async_write c (CallForEach hs)].
Proof.
  unfold balanced, taken_parcels, taken_handlers, sent_parcels,
    sent_handlers. cbn. by rewrite !app_nil_r.
Qed.

Lemma connect_or_cache_quiet ev : connect_or_cache ev → quiet ev.
Proof. by destruct ev. Qed.

Lemma balanced_send_parcel net p addr f (s : state) :
  ∃ t,
    trace (final_state (send_parcel net p addr f s)) = trace s ++ t
    ∧ balanced t.
Proof.
  destruct (send_parcel_phases net p addr f s)
    as (mid & tail & Ht & Hmid & Htail).
  cbv zeta in Ht, Htail. eexists. split; [exact Ht|].
  apply (balanced_app [_; _]); [by apply balanced_quiet; repeat constructor|].
  apply balanced_app.
  - apply balanced_quiet. eapply Forall_impl; [exact Hmid|].
    apply connect_or_cache_quiet.
  - destruct Htail as [[-> _]|(c & -> & _)]; [done|].
    apply balanced_drain_write.
Qed.

Lemma balanced_send_pending_parcels prefix (s : state) :
  queue_inv (pending_parcels_ s) →
  ∃ t,
    trace (final_state (send_pending_parcels prefix s)) = trace s ++ t
    ∧ balanced t.
Proof.
  intros Hinv.
  destruct ((cache_get prefix (connection_cache_ s)).1) as [c|] eqn:E.
  - destruct (send_pending_parcels_hit prefix c s E) as (s' & Hrun & _ & Ht).
    rewrite Hrun. cbn [final_state]. eexists. split; [exact Ht|].
    cbv zeta. pose proof (queue_inv_at _ prefix Hinv) as Hlen.
    destruct (at_ (pending_parcels_ s) prefix) as [ps hs]. cbn [fst snd] in *.
    apply (balanced_app [_]); [by apply balanced_quiet; repeat constructor|].
    destruct ps as [|p ps], hs as [|h hs]; try discriminate Hlen; cbn.
    + apply (balanced_app [_] [_]); [done|].
      by apply balanced_quiet; repeat constructor.
    + apply balanced_drain_write.
  - rewrite (send_pending_parcels_miss prefix s E). cbn [final_state trace].
    eexists. split; [reflexivity|]. by apply balanced_quiet; repeat constructor.
Qed.

Lemma balanced_run_call c (s : state) :
  queue_inv (pending_parcels_ s) →
  queue_inv (pending_parcels_
               (final_state
                  (run_call get_prefix_from_gid MAX_RETRIES RETRIES_SLEEP c
                     s)))
  ∧ ∃ t,
      trace (final_state
               (run_call get_prefix_from_gid MAX_RETRIES RETRIES_SLEEP c s))
      = trace s ++ t
      ∧ balanced t.
Proof.
  intros Hinv.
  destruct c as [net p addr f|prefix|prefix h e n|e conn|now e c];
    cbn [run_call].
  - split; [|apply balanced_send_parcel].
    eapply queue_inv_steps; [exact Hinv|apply send_parcel_queue_steps].
  - split; [|by apply balanced_send_pending_parcels].
    eapply queue_inv_steps; [exact Hinv|apply send_pending_parcels_queue_steps].
  - unfold write_completed, call_for_each_call, bind.
    rewrite foreach_call_traced. cbn. split; [done|].
    eexists. split; [by rewrite <- app_assoc|].
    apply balanced_quiet. apply Forall_app. split; [|by repeat constructor].
    induction (fv h); by constructor.
  - unfold handle_accept. destruct (negb (failed e)); cbn.
    + split; [done|]. eexists. split; [by rewrite <- app_assoc|].
      by apply balanced_quiet; repeat constructor.
    + split; [done|]. exists []. by rewrite app_nil_r.
  - unfold handle_read_completion. destruct (_ && _); cbn.
    + split; [done|]. eexists. split; [reflexivity|].
      by apply balanced_quiet; repeat constructor.
    + split; [done|]. exists []. by rewrite app_nil_r.
Qed.

(** X23.  Nothing taken from the queue is dropped: over any sequence
    of calls on a newly constructed transport, with no other thread in
    between, the parcels the drains have taken out of the queue are
    exactly the parcels handed to connections, and the handlers taken out
    are exactly the handlers passed to the writes, in the same order.
    The drain that finds only one of the two sequences empty, which would
    drop the other, does not occur, because the two sequences of an entry
    are always equally long. *)
Theorem drained_parcels_are_all_written (cache : C) calls :
  balanced (trace (run_calls get_prefix_from_gid MAX_RETRIES RETRIES_SLEEP
                     calls (parcelport_ctor cache))).
Proof.
  assert (Hgen : ∀ s : state,
            queue_inv (pending_parcels_ s) → balanced (trace s) →
            balanced (trace (run_calls get_prefix_from_gid MAX_RETRIES
                               RETRIES_SLEEP calls s))).
  { induction calls as [|c calls IH]; intros s Hinv Hbal; [done|].
    cbn [run_calls foldl].
    destruct (balanced_run_call c s Hinv) as (Hinv' & t & Ht & Hbt).
    apply IH; [done|]. rewrite Ht. by apply balanced_app. }
  apply Hgen; [apply queue_inv_empty|done].
Qed.

End ParcelportFacts.

(** ** The transport on concrete inputs *)

(** C1 at a concrete input: no connection cached, two retry sweeps over
    the endpoints 7 and 8, every connect refused. *)
Lemma send_parcel_connect_failure_witness :
  ∃ error s',
    Parcelport.send_parcel (λ gid, gid) 2 10 Parcelport.unreachable_network
      Parcelport.example_parcel Parcelport.example_address 9
      (Parcelport.parcelport_ctor Parcelport.example_pool)
    = Parcelport.Throw
        (Parcelport.network_error "parcelport::send_parcel" error (Some 5)) s'
    ∧ Parcelport.failed error = true
    ∧ Parcelport.at_ (Parcelport.pending_parcels_ s') 5
      = ([Parcelport.example_parcel], [9]).
Proof.
  destruct (send_parcel_connect_failure_keeps_queue (λ gid, gid) 2 10
              Parcelport.unreachable_network Parcelport.example_parcel
              Parcelport.example_address 9
              (Parcelport.parcelport_ctor Parcelport.example_pool))
    as (error & s' & t & Hrun & Hfail & _ & Hat & _).
  - reflexivity.
  - reflexivity.
  - intros i _. exists [7; 8]. split; [reflexivity|]. intros ep _.
    reflexivity.
  - exists error, s'. split; [exact Hrun|]. split; [exact Hfail|].
    exact Hat.
Defined.


(** C5 at a concrete input: a send that finds connection 3 cached. *)
Lemma drained_handlers_witness :
  ∃ s',
    Parcelport.send_parcel (λ gid, gid) 2 10 Parcelport.unreachable_network
      Parcelport.example_parcel Parcelport.example_address 9
      (Parcelport.parcelport_ctor (Parcelport.IdlePool [(5, 3)] ∅ 8 2))
    = Parcelport.Ret tt s'
    ∧ Parcelport.trace s'
      = [Parcelport.ev_cache_get 5 (Some 3);
         Parcelport.ev_enqueue 5 Parcelport.example_parcel 9;
         Parcelport.ev_drain 5 [Parcelport.example_parcel] [9];
         Parcelport.ev_set_parcel 3 [Parcelport.example_parcel];
         Parcelport.ev_async_write 3 (Parcelport.CallForEach [9])].
Proof.
  apply (proj2 (proj2 (proj2 (proj2 (proj2
           (drained_handlers_called_once_in_order (λ gid, gid) 2 10)))))
           Parcelport.unreachable_network Parcelport.example_parcel
           Parcelport.example_address 9 3
           (Parcelport.parcelport_ctor (Parcelport.IdlePool [(5, 3)] ∅ 8 2))).
  reflexivity.
Defined.

(** C9 at a concrete input: a read that fails with some other error. *)
Lemma handle_read_completion_witness :
  Parcelport.trace
    (Parcelport.final_state
       (Parcelport.handle_read_completion 100 (Parcelport.other_error 104) 1
          (Parcelport.parcelport_ctor Parcelport.example_pool)))
  = [Parcelport.ev_log_error (Parcelport.other_error 104)].
Proof.
  apply (handle_read_completion_records_or_logs 100
           (Parcelport.other_error 104) 1
           (Parcelport.parcelport_ctor Parcelport.example_pool));
    discriminate.
Defined.

(** C10 at a concrete input: the drain step on an empty cache, with a
    parcel waiting. *)
Lemma send_pending_parcels_witness :
  ∃ s',
    Parcelport.send_pending_parcels 5
      (Parcelport.ParcelPort {[5 := ([Parcelport.example_parcel], [9])]}
         Parcelport.example_pool [] ∅ 0 [])
    = Parcelport.Ret tt s'
    ∧ Parcelport.pending_parcels_ s'
      = {[5 := ([Parcelport.example_parcel], [9])]}
    ∧ Parcelport.trace s' = [Parcelport.ev_cache_get 5 None].
Proof.
  destruct (send_pending_parcels_without_connection_returns 5
              (Parcelport.ParcelPort
                 {[5 := ([Parcelport.example_parcel], [9])]}
                 Parcelport.example_pool [] ∅ 0 []))
    as (s' & Hrun & Hq & Ht & _).
  - reflexivity.
  - exists s'. split; [exact Hrun|]. split; [exact Hq|exact Ht].
Defined.

(** C8 as first stated fails: on this send the cache lookup comes
    before the enqueue, not after it, and the call goes on to connect
    synchronously and to sleep between its two sweeps. *)
Lemma send_parcel_enqueue_after_lookup_counterexample :
  let t := Parcelport.trace
             (Parcelport.final_state
                (Parcelport.send_parcel (λ gid, gid) 2 10
                   Parcelport.unreachable_network Parcelport.example_parcel
                   Parcelport.example_address 9
                   (Parcelport.parcelport_ctor Parcelport.example_pool))) in
  Parcelport.precedes Parcelport.is_enqueue Parcelport.is_cache_get t = false
  ∧ Parcelport.precedes Parcelport.is_cache_get Parcelport.is_enqueue t = true
  ∧ existsb Parcelport.is_blocking t = true.
Proof. vm_compute. repeat split. Qed.

(** C9 as first stated fails: a read that ends with end-of-stream is
    not a successful read, and its data point is recorded all the
    same. *)
Lemma handle_read_completion_records_on_eof_counterexample :
  ¬ (∀ now e c (s : Parcelport.parcelport (C := Parcelport.idle_pool)),
       Parcelport.parcels_received_
         (Parcelport.final_state (Parcelport.handle_read_completion now e c s))
       ≠ Parcelport.parcels_received_ s →
       e = Parcelport.success).
Proof.
  intros Hclaim.
  specialize (Hclaim 100%Z Parcelport.eof 1
                (Parcelport.parcelport_ctor Parcelport.example_pool)).
  cbn in Hclaim. discriminate Hclaim. discriminate.
Qed.

(** ** More of the transport on concrete inputs *)

(** X2 at a concrete input: destination 5 has both its connections
    handed out. *)
Lemma send_parcel_parks_witness :
  ∃ s',
    Parcelport.send_parcel (λ gid, gid) 2 10 Parcelport.unreachable_network
      Parcelport.example_parcel Parcelport.example_address 9
      (Parcelport.parcelport_ctor Parcelport.full_pool)
    = Parcelport.Ret tt s'
    ∧ Parcelport.at_ (Parcelport.pending_parcels_ s') 5
      = ([Parcelport.example_parcel], [9])
    ∧ Parcelport.trace s'
      = [Parcelport.ev_cache_get 5 None;
         Parcelport.ev_enqueue 5 Parcelport.example_parcel 9;
         Parcelport.ev_cache_full 5 true].
Proof.
  destruct (send_parcel_parks_when_cache_full (λ gid, gid) 2 10
              Parcelport.unreachable_network Parcelport.example_parcel
              Parcelport.example_address 9
              (Parcelport.parcelport_ctor Parcelport.full_pool))
    as (s' & Hrun & Hat & _ & Ht & _).
  - reflexivity.
  - reflexivity.
  - exists s'. split; [exact Hrun|]. split; [exact Hat|exact Ht].
Defined.

(** X3 at a concrete input: the parcel parked above, and a drain step
    that finds connection 3. *)
Lemma parked_parcel_witness :
  ∃ s2,
    Parcelport.send_pending_parcels 5
      (Parcelport.ParcelPort
         (Parcelport.pending_parcels_
            (Parcelport.final_state
               (Parcelport.send_parcel (λ gid, gid) 2 10
                  Parcelport.unreachable_network Parcelport.example_parcel
                  Parcelport.example_address 9
                  (Parcelport.parcelport_ctor Parcelport.full_pool))))
         Parcelport.cached_pool [] ∅ 0 [])
    = Parcelport.Ret tt s2
    ∧ Parcelport.trace s2
      = [Parcelport.ev_cache_get 5 (Some 3);
         Parcelport.ev_drain 5 [Parcelport.example_parcel] [9];
         Parcelport.ev_set_parcel 3 [Parcelport.example_parcel];
         Parcelport.ev_async_write 3 (Parcelport.CallForEach [9])].
Proof.
  destruct (parked_parcel_is_written_by_next_drain (λ gid, gid) 2 10
              Parcelport.unreachable_network Parcelport.example_parcel
              Parcelport.example_address 9
              (Parcelport.parcelport_ctor Parcelport.full_pool)
              (Parcelport.ParcelPort
                 (Parcelport.pending_parcels_
                    (Parcelport.final_state
                       (Parcelport.send_parcel (λ gid, gid) 2 10
                          Parcelport.unreachable_network
                          Parcelport.example_parcel
                          Parcelport.example_address 9
                          (Parcelport.parcelport_ctor
                             Parcelport.full_pool))))
                 Parcelport.cached_pool [] ∅ 0 []) 3)
    as (s2 & Hrun & Ht & _).
  - reflexivity.
  - reflexivity.
  - reflexivity.
  - reflexivity.
  - exists s2. split; [exact Hrun|exact Ht].
Defined.

(** X4 at a concrete input: endpoint 8 accepts on the second sweep. *)
Lemma send_parcel_connects_witness :
  ∃ s' t ep,
    Parcelport.send_parcel (λ gid, gid) 2 10 Parcelport.late_network
      Parcelport.example_parcel Parcelport.example_address 9
      (Parcelport.parcelport_ctor Parcelport.example_pool)
    = Parcelport.Ret tt s'
    ∧ Parcelport.trace s'
      = [Parcelport.ev_cache_get 5 None;
         Parcelport.ev_enqueue 5 Parcelport.example_parcel 9;
         Parcelport.ev_cache_full 5 false; Parcelport.ev_new_connection 0 5]
        ++ t ++ [Parcelport.ev_socket_connect 0 ep Parcelport.success;
                 Parcelport.ev_drain 5 [Parcelport.example_parcel] [9];
                 Parcelport.ev_set_parcel 0 [Parcelport.example_parcel];
                 Parcelport.ev_async_write 0 (Parcelport.CallForEach [9])]
    ∧ Parcelport.occurrences Parcelport.is_sleep t = 1%nat.
Proof.
  destruct (send_parcel_connects_then_writes (λ gid, gid) 2 10
              Parcelport.late_network Parcelport.example_parcel
              Parcelport.example_address 9
              (Parcelport.parcelport_ctor Parcelport.example_pool)
              1%nat [7; 8] 8)
    as (s' & t & ep & Hrun & Ht & _ & _ & _ & Hsl & _).
  - reflexivity.
  - reflexivity.
  - cbn. lia.
  - intros j Hj. exists [7; 8]. split; [reflexivity|].
    intros ep _. assert (j = 0%nat) as -> by lia. reflexivity.
  - reflexivity.
  - apply list_elem_of_further. constructor.
  - reflexivity.
  - exists s', t, ep. split; [exact Hrun|]. split; [exact Ht|exact Hsl].
Defined.

(** X5 at a concrete input: the locality resolves on the first sweep,
    on which every connect is refused, and no longer on the second. *)
Lemma send_parcel_resolution_failure_witness :
  ∃ s' t,
    Parcelport.send_parcel (λ gid, gid) 2 10 Parcelport.unresolvable_network
      Parcelport.example_parcel Parcelport.example_address 9
      (Parcelport.parcelport_ctor Parcelport.example_pool)
    = Parcelport.Throw
        (Parcelport.network_error "parcelport::send_parcel"
           (Parcelport.other_error 2) None) s'
    ∧ Parcelport.occurrences Parcelport.is_sleep t = 1%nat
    ∧ Parcelport.trace s'
      = [Parcelport.ev_cache_get 5 None;
         Parcelport.ev_enqueue 5 Parcelport.example_parcel 9;
         Parcelport.ev_cache_full 5 false; Parcelport.ev_new_connection 0 5]
        ++ t.
Proof.
  destruct (send_parcel_resolution_failure (λ gid, gid) 2 10
              Parcelport.unresolvable_network Parcelport.example_parcel
              Parcelport.example_address 9
              (Parcelport.parcelport_ctor Parcelport.example_pool)
              1%nat (Parcelport.other_error 2))
    as (s' & t & Hrun & Ht & _ & _ & Hsl & _).
  - reflexivity.
  - reflexivity.
  - cbn. lia.
  - intros j Hj. exists [7; 8]. assert (j = 0%nat) as -> by lia.
    split; [reflexivity|]. intros ep _. reflexivity.
  - reflexivity.
  - exists s', t. split; [exact Hrun|]. split; [exact Hsl|exact Ht].
Defined.

(** X6 at a concrete input: a retry limit of 0. *)
Lemma send_parcel_without_retries_witness :
  ∃ s',
    Parcelport.send_parcel (λ gid, gid) 0 10 Parcelport.late_network
      Parcelport.example_parcel Parcelport.example_address 9
      (Parcelport.parcelport_ctor Parcelport.example_pool)
    = Parcelport.Throw
        (Parcelport.network_error "parcelport::send_parcel"
           Parcelport.try_again (Some 5)) s'
    ∧ Parcelport.trace s'
      = [Parcelport.ev_cache_get 5 None;
         Parcelport.ev_enqueue 5 Parcelport.example_parcel 9;
         Parcelport.ev_cache_full 5 false; Parcelport.ev_new_connection 0 5;
         Parcelport.ev_socket_close 0].
Proof.
  destruct (send_parcel_without_retries_throws (λ gid, gid) 0 10
              Parcelport.late_network Parcelport.example_parcel
              Parcelport.example_address 9
              (Parcelport.parcelport_ctor Parcelport.example_pool))
    as (s' & Hrun & Ht & _).
  - reflexivity.
  - reflexivity.
  - lia.
  - exists s'. split; [exact Hrun|exact Ht].
Defined.

(** X10 at a concrete input: connection 3 is idle for destination 5,
    to which nothing has been sent. *)
Lemma send_pending_parcels_nothing_queued_witness :
  ∃ s',
    Parcelport.send_pending_parcels 5
      (Parcelport.parcelport_ctor Parcelport.cached_pool)
    = Parcelport.Ret tt s'
    ∧ Parcelport.trace s'
      = [Parcelport.ev_cache_get 5 (Some 3); Parcelport.ev_drain 5 [] [];
         Parcelport.ev_cache_add 5 3]
    ∧ Parcelport.pending_parcels_ s' !! 5 = None.
Proof.
  destruct (send_pending_parcels_nothing_queued 5 3
              (Parcelport.parcelport_ctor Parcelport.cached_pool))
    as (s' & Hrun & Ht & _ & Hdom & _).
  - reflexivity.
  - reflexivity.
  - exists s'. split; [exact Hrun|]. split; [exact Ht|].
    apply not_elem_of_dom. rewrite Hdom. cbn. set_solver.
Defined.

(* ===================================================================== *)
(** * Facts about starting and stopping the transport *)
(* ===================================================================== *)

Section LifecycleFacts.

Import Parcelport.

Context {C : Type} {cache_ops : ConnectionCache C}.

Local Abbreviation lstate := (lifecycle (C := C)).

(** The error the [try] block for an endpoint ends with, if any. *)
Lemma acceptor_calls_error h a a' ep steps :
  (acceptor_calls h a ep steps).2 = (acceptor_calls h a' ep steps).2.
Proof.
  induction steps as [|st steps IH]; [done|]. cbn.
  destruct (failed (acceptor_answer h ep st)); [done|].
  destruct (acceptor_calls h a ep steps), (acceptor_calls h a' ep steps).
  cbn in *. done.
Qed.

Lemma acceptor_calls_ok h a ep steps :
  (acceptor_calls h a ep steps).2 = None
  ↔ forallb (λ st, negb (failed (acceptor_answer h ep st))) steps = true.
Proof.
  induction steps as [|st steps IH]; [done|]. cbn.
  destruct (failed (acceptor_answer h ep st)); cbn; [done|].
  destruct (acceptor_calls h a ep steps). cbn in *. done.
Qed.

Lemma acceptor_calls_failed h a ep steps e :
  (acceptor_calls h a ep steps).2 = Some e → failed e = true.
Proof.
  induction steps as [|st steps IH]; [done|]. cbn.
  destruct (failed (acceptor_answer h ep st)) eqn:E; cbn.
  - by intros [= <-].
  - destruct (acceptor_calls h a ep steps). cbn in *. done.
Qed.

Lemma acceptor_calls_events h a ep steps :
  acceptors_made (acceptor_calls h a ep steps).1 = []
  ∧ acceptors_deleted (acceptor_calls h a ep steps).1 = [].
Proof.
  induction steps as [|st steps IH]; [done|]. cbn.
  destruct (failed (acceptor_answer h ep st)); [done|].
  destruct (acceptor_calls h a ep steps). cbn in *. done.
Qed.

Lemma acceptors_made_app t1 t2 :
  acceptors_made (t1 ++ t2) = acceptors_made t1 ++ acceptors_made t2.
Proof. apply flat_map_app. Qed.

Lemma acceptors_deleted_app t1 t2 :
  acceptors_deleted (t1 ++ t2)
  = acceptors_deleted t1 ++ acceptors_deleted t2.
Proof. apply flat_map_app. Qed.

(** The loop in closed form: every endpoint is tried, the errors of
    those that failed are added in order, and neither the acceptor nor
    the cache is touched. *)
Lemma accept_loop_spec h a eps tried errors (s : lstate) :
  tried < 2 ^ 64 →
  ∃ s',
    accept_loop h a eps tried errors s
    = ((tried + N.of_nat (length eps)) mod 2 ^ 64,
       errors ++ omap (λ ep, (acceptor_calls h a ep acceptor_steps).2) eps,
       s')
    ∧ acceptor_ s' = acceptor_ s
    ∧ next_acceptor s' = next_acceptor s
    ∧ lc_connection_cache_ s' = lc_connection_cache_ s
    ∧ ∃ t, lc_trace s' = lc_trace s ++ t
           ∧ acceptors_made t = [] ∧ acceptors_deleted t = [].
Proof.
  revert tried errors s.
  induction eps as [|ep eps IH]; intros tried errors s Hlt.
  - exists s. cbn [accept_loop length omap].
    rewrite N.add_0_r, app_nil_r, N.mod_small by done.
    repeat split. exists []. by rewrite app_nil_r.
  - cbn [accept_loop].
    pose proof (acceptor_calls_events h a ep acceptor_steps) as [Hm Hd].
    destruct (acceptor_calls h a ep acceptor_steps) as [t r] eqn:E.
    cbn [fst snd] in Hm, Hd.
    set (s1 := Lifecycle _ _ _ _ _).
    set (errors1 := match r with Some e => errors ++ [e] | None => errors end).
    destruct (IH ((tried + 1) mod 2 ^ 64) errors1 s1)
      as (s' & Hrun & Ha & Hn & Hc & t' & Ht & Hm' & Hd').
    { by apply N.mod_upper_bound. }
    exists s'. rewrite Hrun. split; [|split; [done|split; [done|split; [done|]]]].
    + assert (Htried : (((tried + 1) mod 2 ^ 64) + N.of_nat (length eps))
                       mod 2 ^ 64
                       = (tried + N.of_nat (length (ep :: eps))) mod 2 ^ 64).
      { rewrite N.Div0.add_mod_idemp_l. f_equal. cbn [length]. lia. }
      assert (Herrors : errors1
                ++ omap (λ ep0, (acceptor_calls h a ep0 acceptor_steps).2) eps
                = errors
                  ++ omap (λ ep0, (acceptor_calls h a ep0 acceptor_steps).2)
                       (ep :: eps)).
      { cbn [omap list_omap]. rewrite E. cbn [snd]. unfold errors1.
        destruct r; [by rewrite <- app_assoc|done]. }
      by rewrite Htried, Herrors.
    + exists (ev_new_server_connection (lc_next_connection s) :: t ++ t').
      rewrite Ht. cbn [s1 lc_trace]. split; [by rewrite <- app_assoc|].
      change (ev_new_server_connection ?c :: t ++ t')
        with ([ev_new_server_connection c] ++ t ++ t').
      rewrite !acceptors_made_app, !acceptors_deleted_app, Hm, Hd, Hm', Hd'.
      done.
Qed.

Lemma omap_length_le {A B} (f : A → option B) l :
  (length (omap f l) ≤ length l)%nat.
Proof.
  induction l as [|x l IH]; cbn; [done|]. destruct (f x); cbn; lia.
Qed.

Lemma omap_length_all {A B} (f : A → option B) l :
  length (omap f l) = length l ↔ Forall (λ x, is_Some (f x)) l.
Proof.
  pose proof (omap_length_le f) as Hle.
  induction l as [|x l IH]; cbn; [by split; [constructor|]|].
  destruct (f x) eqn:E; cbn.
  - split.
    + intros [= Hlen]. constructor; [by rewrite E|]. by apply IH.
    + intros Hall. inversion Hall; subst. f_equal. by apply IH.
  - split.
    + intros Hlen. specialize (Hle l). lia.
    + intros Hall. inversion Hall as [|? ? Hx]; subst. rewrite E in Hx.
      by destruct Hx.
Qed.

Lemma omap_Forall {A B} (P : B → Prop) (f : A → option B) l :
  (∀ x y, f x = Some y → P y) → Forall P (omap f l).
Proof.
  intros Hf. induction l as [|x l IH]; cbn; [constructor|].
  destruct (f x) eqn:E; [constructor; eauto|done].
Qed.

(** X21.  [run] reports a failure exactly when no endpoint could be
    set up: it throws [network_error] when on every endpoint some call on
    the acceptor failed, with one recorded error per endpoint, and also
    when the locality has no endpoint at all, since the count of errors
    then equals the count of attempts, both 0.  Otherwise the failures
    are dropped and it returns what the second [run] of the pool
    returns. *)
Theorem run_throws_only_when_every_endpoint_failed
    h blocking (s : lstate) :
  N.of_nat (length (accept_endpoints h)) < 2 ^ 64 →
  match (run h blocking s).1 with
  | inl (run_network_error func errors) =>
      func = "parcelport::parcelport"
      ∧ Forall (λ ep, endpoint_ok h ep = false) (accept_endpoints h)
      ∧ length errors = length (accept_endpoints h)
      ∧ Forall (λ e, failed e = true) errors
  | inr r =>
      r = pool_run_result h blocking
      ∧ Exists (λ ep, endpoint_ok h ep = true) (accept_endpoints h)
  end.
Proof.
  intros Hlen. unfold run.
  destruct (ensure_acceptor (log [ev_pool_run false] s)) as [a s1].
  destruct (accept_loop_spec h a (accept_endpoints h) 0 [] s1)
    as (s' & Hrun & _); [done|].
  rewrite Hrun. cbn [app]. rewrite N.add_0_l, (N.mod_small _ _ Hlen).
  set (errors := omap _ _).
  assert (Hle : (length errors ≤ length (accept_endpoints h))%nat).
  { apply omap_length_le. }
  unfold get_error_count. rewrite N.mod_small by lia.
  destruct (N.of_nat (length errors) =? N.of_nat (length (accept_endpoints h)))
    eqn:Eq; cbn [fst].
  - apply N.eqb_eq, Nat2N.inj in Eq. split; [done|].
    split; [|split; [done|]].
    + apply omap_length_all in Eq.
      eapply Forall_impl; [exact Eq|]. intros ep [e He]. cbv beta in He.
      unfold endpoint_ok. apply not_true_is_false. intros Hok.
      apply (acceptor_calls_ok h a) in Hok. by rewrite Hok in He.
    + apply omap_Forall. intros ep e. apply acceptor_calls_failed.
  - split; [done|]. apply N.eqb_neq in Eq.
    destruct (decide (Exists (λ ep, endpoint_ok h ep = true)
                        (accept_endpoints h))) as [|Hnot]; [done|].
    exfalso. apply Eq. f_equal. apply omap_length_all.
    apply not_Exists_Forall in Hnot; [|intros ?; apply _].
    eapply Forall_impl; [exact Hnot|]. intros ep Hno.
    unfold compose in Hno.
    destruct (acceptor_calls h a ep acceptor_steps).2 eqn:E; [by eexists|].
    apply acceptor_calls_ok in E. by destruct Hno.
Qed.

(** *** The acceptor *)

Lemma acceptor_inv_silent (s s' : lstate) t :
  acceptor_inv s →
  acceptor_ s' = acceptor_ s → next_acceptor s' = next_acceptor s →
  lc_trace s' = lc_trace s ++ t →
  acceptors_made t = [] → acceptors_deleted t = [] →
  acceptor_inv s'.
Proof.
  intros (Hm & Hlt & Hnd) Ha Hn Ht Hmt Hdt. unfold acceptor_inv.
  rewrite Ht, Ha, Hn, acceptors_made_app, acceptors_deleted_app, Hmt, Hdt,
    !app_nil_r.
  done.
Qed.

Lemma acceptor_inv_ensure (s : lstate) :
  acceptor_inv s →
  acceptor_inv (ensure_acceptor s).2
  ∧ acceptor_ (ensure_acceptor s).2 = Some (ensure_acceptor s).1.
Proof.
  intros (Hm & Hlt & Hnd). unfold ensure_acceptor.
  destruct (acceptor_ s) as [a|] eqn:E; cbn [fst snd].
  - split; [|done]. unfold acceptor_inv. by rewrite E.
  - split; [|done]. unfold acceptor_inv. cbn.
    rewrite acceptors_made_app, acceptors_deleted_app. cbn.
    cbn in Hm. rewrite app_nil_r in Hm |- *. split; [by rewrite Hm|].
    split.
    + apply Forall_app. split; [|repeat constructor; lia].
      eapply Forall_impl; [exact Hlt|]. cbn. intros a Ha. lia.
    + apply NoDup_app. split; [done|]. split; [|apply NoDup_singleton].
      intros a Ha ->%list_elem_of_singleton.
      rewrite Forall_forall in Hlt. specialize (Hlt _ Ha). lia.
Qed.

Lemma acceptor_inv_delete reset (s : lstate) :
  acceptor_inv s →
  acceptors_made (lc_trace (delete_acceptor reset s))
  = acceptors_deleted (lc_trace (delete_acceptor reset s))
  ∧ (reset = true → acceptor_inv (delete_acceptor reset s)).
Proof.
  intros (Hm & Hlt & Hnd). unfold delete_acceptor.
  destruct (acceptor_ s) as [a|] eqn:E; cbn in Hm.
  - cbn. rewrite acceptors_made_app, acceptors_deleted_app. cbn.
    rewrite app_nil_r. split; [done|]. intros ->. unfold acceptor_inv. cbn.
    rewrite acceptors_made_app, acceptors_deleted_app. cbn.
    by rewrite !app_nil_r.
  - rewrite app_nil_r in Hm. split; [done|]. intros _.
    unfold acceptor_inv. by rewrite E, app_nil_r.
Qed.

Lemma acceptor_inv_run h blocking (s : lstate) :
  acceptor_inv s → acceptor_inv (run h blocking s).2.
Proof.
  intros Hinv. unfold run.
  assert (Hinv0 : acceptor_inv (log [ev_pool_run false] s)).
  { by eapply acceptor_inv_silent. }
  destruct (acceptor_inv_ensure _ Hinv0) as [Hinv1 _].
  destruct (ensure_acceptor (log [ev_pool_run false] s)) as [a s1].
  cbn [snd] in Hinv1.
  destruct (accept_loop_spec h a (accept_endpoints h) 0 [] s1)
    as (s' & Hrun & Ha & Hn & _ & t & Ht & Hmt & Hdt); [done|].
  rewrite Hrun.
  assert (Hinv2 : acceptor_inv s') by by eapply acceptor_inv_silent.
  destruct (_ =? _); cbn [snd]; [done|].
  by eapply acceptor_inv_silent.
Qed.

Lemma acceptor_inv_stop blocking (s : lstate) :
  acceptor_inv s → acceptor_inv (stop blocking s).
Proof.
  intros Hinv. unfold stop.
  assert (Hinv0 : acceptor_inv (log [ev_pool_stop] s)).
  { by eapply acceptor_inv_silent. }
  destruct blocking; [|done].
  assert (Hinv1 : acceptor_inv
                    (clear_cache (log [ev_pool_join] (log [ev_pool_stop] s)))).
  { eapply acceptor_inv_silent with (t := [ev_pool_join; ev_cache_clear]);
      [exact Hinv0|done|done| |done|done].
    cbn. by rewrite <- !app_assoc. }
  destruct (acceptor_inv_delete true _ Hinv1) as [_ Hinv2].
  specialize (Hinv2 eq_refl). by eapply acceptor_inv_silent.
Qed.

(** X22.  Over the life of a transport, from construction through
    any calls of [run] and [stop] to destruction, whatever the machine
    answers: at any time the acceptors made so far are those deleted so
    far, in the same order, followed by the one [acceptor_] points to if
    it is not null; and once the destructor has run every acceptor that
    was made has been deleted exactly once. *)
Theorem every_acceptor_is_deleted_exactly_once
    (cache : C) (calls : list lifecycle_call) :
  acceptors_made (lc_trace (lived cache calls))
  = acceptors_deleted (lc_trace (lived cache calls))
    ++ option_list (acceptor_ (lived cache calls))
  ∧ acceptors_deleted (lc_trace (life cache calls))
    = acceptors_made (lc_trace (life cache calls))
  ∧ NoDup (acceptors_made (lc_trace (life cache calls))).
Proof.
  unfold life, lived.
  assert (Hgen : ∀ s : lstate, acceptor_inv s →
            acceptor_inv (foldl (λ s c, run_lifecycle_call c s) s calls)).
  { induction calls as [|c calls IH]; intros s Hs; [done|].
    cbn [foldl]. apply IH. destruct c as [h blocking|blocking]; cbn.
    - by apply acceptor_inv_run.
    - by apply acceptor_inv_stop. }
  specialize (Hgen (lifecycle_ctor cache)).
  assert (Hinv : acceptor_inv
            (foldl (λ s c, run_lifecycle_call c s) (lifecycle_ctor cache)
               calls)).
  { apply Hgen. unfold acceptor_inv. cbn. repeat split; constructor. }
  clear Hgen. split; [apply Hinv|]. unfold parcelport_dtor.
  assert (Hinv1 : acceptor_inv (clear_cache
            (foldl (λ s c, run_lifecycle_call c s) (lifecycle_ctor cache)
               calls))).
  { by eapply acceptor_inv_silent. }
  destruct (acceptor_inv_delete false _ Hinv1) as [Heq _].
  split; [done|].
  destruct Hinv1 as (_ & _ & Hnd). unfold delete_acceptor.
  destruct (acceptor_ _) as [a|]; [|done].
  cbn. by rewrite acceptors_made_app, app_nil_r.
Qed.

End LifecycleFacts.

(** X21 at a concrete input: binding fails on both endpoints. *)
Lemma run_throws_witness :
  ∃ errors s',
    Parcelport.run Parcelport.closed_host true
      (Parcelport.lifecycle_ctor Parcelport.example_pool)
    = (inl (Parcelport.run_network_error "parcelport::parcelport" errors), s')
    ∧ length errors = 2%nat.
Proof.
  pose proof (run_throws_only_when_every_endpoint_failed
                Parcelport.closed_host true
                (Parcelport.lifecycle_ctor Parcelport.example_pool)) as H.
  destruct (Parcelport.run Parcelport.closed_host true
              (Parcelport.lifecycle_ctor Parcelport.example_pool))
    as [[[func errors]|r] s'] eqn:E.
  - destruct H as (-> & _ & Hlen & _); [reflexivity|].
    exists errors, s'. split; [reflexivity|exact Hlen].
  - discriminate E.
Defined.

(* ===================================================================== *)
(** * Facts about the cooperative execution context *)
(* ===================================================================== *)

Section CoroutineFacts.

Import Coroutine.

(** The marker is put back by the destructor of [reset_self_on_exit],
    whatever was installed in between. *)
Lemma reset_self_on_exit_restores val (w w1 : world) g mark :
  reset_self_on_exit_ctor val (get_self w) w = (g, w1) →
  get_self (reset_self_on_exit_dtor g (World mark (delivered w1)))
  = get_self w.
Proof. intros Hctor. by inversion Hctor. Qed.

Lemma call_m_fun_delivered c w : delivered (call_m_fun c w).2 = delivered w.
Proof.
  unfold call_m_fun. destruct (m_fun c) as [f|]; [|done].
  by destruct (f (m_arg c) (current_self w)).
Qed.

(** One pass through the loop body leaves the marker as it found it,
    on the returning and on the throwing path. *)
Lemma loop_body_restores_self debug l c w l' c' w' :
  loop_body debug l c w = delivered_to_resumer l' c' w' →
  get_self w' = get_self w.
Proof.
  unfold loop_body, reset_self_on_exit_ctor.
  destruct (call_m_fun c (set_self (Some (self_address c)) w)) as [o w1].
  destruct o as [r|e].
  - destruct (debug && negb (bool_decide (r.1 = terminated))); [done|].
    intros Heq. by inversion Heq.
  - intros Heq. by inversion Heq.
Qed.

(** C2.  When the work item bound to a context throws, the loop body
    does not let the exception out: it hands the resumer an exited
    context with status [ctx_exited_abnormally] and the captured
    exception, and the thread's current-context marker is what it was
    before the context was entered, whatever the work item left there.
    The marker is restored just as well when the work item returns, and
    a context that is not resumed again stays parked after the
    delivery. *)
Theorem throwing_work_item_is_captured_and_self_restored :
  (∀ debug l c w e,
     (call_m_fun c (set_self (Some (self_address c)) w)).1 = throws e →
     ∃ c' w',
       loop_body debug l c w
       = delivered_to_resumer
           (Locals ctx_exited_abnormally (result_last l)) c' w'
       ∧ run_loop debug [] l c w = parked c' w'
       ∧ delivered w'
         = delivered w
           ++ [Delivery ctx_exited ctx_exited_abnormally (Some e)
                 (m_result c)]
       ∧ get_self w' = get_self w
       ∧ m_state c' = ctx_exited
       ∧ m_exit_status c' = ctx_exited_abnormally
       ∧ m_type_info c' = Some e
       ∧ m_fun c' = None)
  ∧ (∀ debug l c w l' c' w',
       loop_body debug l c w = delivered_to_resumer l' c' w' →
       get_self w' = get_self w)
  ∧ (∀ l c w, ∃ l' c' w',
       loop_body false l c w = delivered_to_resumer l' c' w').
Proof.
  split; [|split].
  - intros debug l c w e Hthrow.
    assert (Hbody : ∃ c' w',
      loop_body debug l c w
      = delivered_to_resumer
          (Locals ctx_exited_abnormally (result_last l)) c' w'
      ∧ delivered w'
        = delivered w
          ++ [Delivery ctx_exited ctx_exited_abnormally (Some e) (m_result c)]
      ∧ get_self w' = get_self w
      ∧ m_state c' = ctx_exited
      ∧ m_exit_status c' = ctx_exited_abnormally
      ∧ m_type_info c' = Some e
      ∧ m_fun c' = None).
    { unfold loop_body, reset_self_on_exit_ctor.
      pose proof (call_m_fun_delivered c (set_self (Some (self_address c)) w))
        as Hd.
      destruct (call_m_fun c (set_self (Some (self_address c)) w))
        as [o w1].
      cbn in Hthrow, Hd. subst o. cbn.
      eexists _, _. split; [reflexivity|]. cbn. by rewrite Hd. }
    destruct Hbody as (c' & w' & Hbody & Hrest).
    exists c', w'. split; [done|]. split; [|done].
    cbn [run_loop]. by rewrite Hbody.
  - apply loop_body_restores_self.
  - intros l c w. unfold loop_body, reset_self_on_exit_ctor.
    destruct (call_m_fun c (set_self (Some (self_address c)) w)) as [o w1].
    destruct o as [r|e]; cbn; by eexists _, _, _.
Qed.

(** ** More about the run loop *)

(** X19.  When the work item returns, its result is bound to the
    context and handed to the resumer with a null exception and with the
    exit status the loop has at that point; the functor has been reset,
    so the destructor's assertion holds, and the current-context marker
    is what it was.  In a debug build a result whose state is not
    [terminated] stops the run at the assertion instead, before anything
    is bound or delivered. *)
Theorem returning_work_item_is_bound_and_delivered debug l c w r :
  (call_m_fun c (set_self (Some (self_address c)) w)).1 = returns r →
  (debug = false ∨ r.1 = terminated →
   ∃ c' w',
     loop_body debug l c w = delivered_to_resumer (Locals (status l) r) c' w'
     ∧ delivered w'
       = delivered w ++ [Delivery ctx_exited (status l) None (Some r)]
     ∧ m_result c' = Some r
     ∧ m_state c' = ctx_exited
     ∧ m_exit_status c' = status l
     ∧ m_type_info c' = None
     ∧ dtor_assertion c' = true
     ∧ get_self w' = get_self w)
  ∧ (debug = true → r.1 ≠ terminated →
     loop_body debug l c w = assertion_failed
     ∧ run_loop debug [] l c w = aborted).
Proof.
  intros Hret. unfold loop_body, reset_self_on_exit_ctor.
  pose proof (call_m_fun_delivered c (set_self (Some (self_address c)) w))
    as Hd.
  cbn [run_loop]. unfold loop_body, reset_self_on_exit_ctor.
  destruct (call_m_fun c (set_self (Some (self_address c)) w)) as [o w1].
  cbn in Hret, Hd. subst o. split.
  - intros Hok.
    assert (debug && negb (bool_decide (r.1 = terminated)) = false) as ->.
    { destruct Hok as [->| ->]; [done|].
      rewrite bool_decide_eq_true_2 by done. by rewrite andb_false_r. }
    cbn. eexists _, _. split; [reflexivity|]. cbn. by rewrite Hd.
  - intros -> Hne. rewrite bool_decide_eq_false_2 by done. done.
Qed.




End CoroutineFacts.

(** C2 at a concrete input: a work item that throws and leaves the
    marker at 99, entered on a thread whose marker is 1. *)
Lemma throwing_work_item_witness :
  ∃ c' w',
    Coroutine.run true []
      (Coroutine.CoroutineImpl
         (Some (λ _ _, (Coroutine.throws (Coroutine.thrown 7), Some 99)))
         0 None Coroutine.ctx_running Coroutine.ctx_exited_return None 1000)
      (Coroutine.World (Some 1) [])
    = Coroutine.parked c' w'
    ∧ Coroutine.delivered w'
      = [Coroutine.Delivery Coroutine.ctx_exited
           Coroutine.ctx_exited_abnormally
           (Some (Coroutine.thrown 7)) None]
    ∧ Coroutine.get_self w' = Some 1.
Proof.
  destruct (proj1 throwing_work_item_is_captured_and_self_restored true
              (Coroutine.Locals Coroutine.ctx_exited_return
                 (Coroutine.terminated, Coroutine.invalid_thread_id))
              (Coroutine.CoroutineImpl
                 (Some (λ _ _,
                      (Coroutine.throws (Coroutine.thrown 7), Some 99)))
                 0 None Coroutine.ctx_running Coroutine.ctx_exited_return
                 None 1000)
              (Coroutine.World (Some 1) []) (Coroutine.thrown 7))
    as (c' & w' & _ & Hrun & Hd & Hself & _).
  - reflexivity.
  - exists c', w'. split; [exact Hrun|]. split; [exact Hd|exact Hself].
Defined.

(** X19 at a concrete input: a work item that returns [terminated]
    and leaves the marker at 99, entered in a debug build on a thread
    whose marker is 1. *)
Lemma returning_work_item_witness :
  ∃ c' w',
    Coroutine.loop_body true
      (Coroutine.Locals Coroutine.ctx_exited_return
         (Coroutine.terminated, Coroutine.invalid_thread_id))
      (Coroutine.CoroutineImpl
         (Some (λ _ _,
              (Coroutine.returns (Coroutine.terminated, Some 5), Some 99)))
         0 None Coroutine.ctx_running Coroutine.ctx_exited_return None 1000)
      (Coroutine.World (Some 1) [])
    = Coroutine.delivered_to_resumer
        (Coroutine.Locals Coroutine.ctx_exited_return
           (Coroutine.terminated, Some 5)) c' w'
    ∧ Coroutine.delivered w'
      = [Coroutine.Delivery Coroutine.ctx_exited Coroutine.ctx_exited_return
           None (Some (Coroutine.terminated, Some 5))]
    ∧ Coroutine.get_self w' = Some 1.
Proof.
  destruct (proj1 (returning_work_item_is_bound_and_delivered true
              (Coroutine.Locals Coroutine.ctx_exited_return
                 (Coroutine.terminated, Coroutine.invalid_thread_id))
              (Coroutine.CoroutineImpl
                 (Some (λ _ _,
                      (Coroutine.returns (Coroutine.terminated, Some 5),
                       Some 99)))
                 0 None Coroutine.ctx_running Coroutine.ctx_exited_return
                 None 1000)
              (Coroutine.World (Some 1) [])
              (Coroutine.terminated, Some 5) eq_refl))
    as (c' & w' & Hbody & Hd & _ & _ & _ & _ & _ & Hself).
  - right. reflexivity.
  - exists c', w'. split; [exact Hbody|]. split; [exact Hd|exact Hself].
Defined.


(* ===================================================================== *)
(** * Facts about the callable container *)
(* ===================================================================== *)

#[local] Set Warnings "-clear-no-such-hyp".

Section CallableFacts.
Import Callable.

(** No type is larger than [std::size_t] can say. *)
Lemma sizeof_le_max T : (size_max <? sizeof_ T) = false.
Proof.
  apply N.ltb_ge. unfold sizeof_, size_max.
  pose proof (N.mod_upper_bound (ty_size T) (2 ^ 64)). lia.
Qed.

(** Running the code of an operation on a store whose lookups are
    known. *)
Ltac exec_cbn :=
  unfold bind, ret, throw, undef, HPX_ASSERT, get_fn, put_fn, get_vptr,
    get_object, get_storage, get_serializable_vptr, set_vptr, set_object,
    set_storage, set_serializable_vptr, read_at, write_at, placement_new,
    destroy_at, operator_new, operator_delete, allocate, deallocate, copy,
    deref_vtable, get_empty_function_vtable, get_vtable;
  cbn [objs heap blocks next_addr vptr object storage serializable_vptr negb].

Ltac exec_step :=
  first
    [ progress exec_cbn
    | rewrite lookup_insert_eq
    | rewrite lookup_insert_ne by congruence
    | rewrite lookup_delete_ne by congruence
    | match goal with
      | H : ?o !! ?c = _ |- context [?o !! ?c] => rewrite H
      | H : (_ <? _) = _ |- context [_ <? _] => rewrite H
      | |- context [size_max <? sizeof_ _] => rewrite sizeof_le_max
      | |- context [decide ?P] =>
          first [ rewrite (decide_True (P := P))
                    by (first [done|congruence|split; congruence|set_solver])
                | rewrite (decide_False (P := P))
                    by (first [done|congruence|intros [? ?]; congruence
                              |set_solver]) ]
      | |- context [bool_decide ?P] =>
          first [ rewrite (bool_decide_eq_true_2 P) by (first [done|congruence])
                | rewrite (bool_decide_eq_false_2 P) by (first [done|congruence]) ]
      end ].

Ltac exec := repeat exec_step.

(** The invariant of a container, by cases. *)
Lemma fb_ok_shape h b c fb : fb_ok h b c fb ↔ shape h b c fb.
Proof.
  split.
  - destruct fb as [v p s sv]. unfold fb_ok. cbn.
    destruct v as [| |T]; destruct p as [|c'|a]; try done.
    + intros _. constructor.
    + intros (-> & Hsz & v & -> & Ht). by constructor.
    + intros (Hsz & Hb & v & Hh & Ht). by econstructor.
  - intros Hs. destruct Hs; unfold fb_ok; cbn; eauto 10.
Qed.

(** Rebuilding the invariant after the containers in [S] have
    changed. *)
Lemma store_inv_frame (S : list N) o o' h h' b b' n n' :
  store_inv (Mem o h b n) →
  (∀ c, c ∉ S → o' !! c = o !! c) →
  (∀ c fb, c ∈ S → o' !! c = Some fb → fb_ok h' b' c fb) →
  (∀ c1 c2 fb1 fb2 a,
     c1 ∈ S → c1 ≠ c2 → o' !! c1 = Some fb1 → o' !! c2 = Some fb2 →
     object fb1 = Heap a → object fb2 ≠ Heap a) →
  (∀ c fb a, c ∉ S → o !! c = Some fb → object fb = Heap a →
     a ∈ b' ∧ h' !! a = h !! a) →
  (∀ a, a ∈ b' → a < n') →
  store_inv (Mem o' h' b' n').
Proof.
  intros [Hfb Hown Hfresh] Hsame Hin Huniq Hkeep Hbound.
  cbn in Hfb, Hown, Hfresh. split; cbn.
  - intros c fb Hl. destruct (decide (c ∈ S)) as [Hc|Hc]; [by apply Hin|].
    rewrite Hsame in Hl by done. specialize (Hfb c fb Hl).
    destruct fb as [v p s sv]. unfold fb_ok in *. cbn in *.
    destruct v as [| |T]; destruct p as [|c'|a]; try done.
    destruct Hfb as (Hsz & Hb & v & Hh & Ht).
    destruct (Hkeep c _ a Hc Hl eq_refl) as [Hb' Hh'].
    split; [done|]. split; [done|]. exists v. by rewrite Hh'.
  - intros c1 c2 fb1 fb2 a H1 H2 Ho1 Ho2.
    destruct (decide (c1 = c2)) as [|Hne]; [done|exfalso].
    destruct (decide (c1 ∈ S)) as [Hc1|Hc1].
    { by apply (Huniq c1 c2 fb1 fb2 a). }
    destruct (decide (c2 ∈ S)) as [Hc2|Hc2].
    { by apply (Huniq c2 c1 fb2 fb1 a). }
    rewrite Hsame in H1, H2 by done. apply Hne. by eapply Hown.
  - done.
Qed.

(** What the invariant says about the heap block of a container, and
    about it and another container. *)
Lemma store_inv_block o h b n c2 fb2 a :
  store_inv (Mem o h b n) → o !! c2 = Some fb2 → object fb2 = Heap a →
  a ∈ b ∧ a < n.
Proof.
  intros [Hfb Hown Hfresh] Hl2 Ho. cbn in *.
  pose proof (Hfb c2 fb2 Hl2) as Hok. destruct fb2 as [v p s sv].
  cbn in Ho. subst p. unfold fb_ok in Hok. cbn in Hok.
  destruct v as [| |T]; try done. destruct Hok as (_ & Hb & _).
  split; [done|by apply Hfresh].
Qed.

Lemma store_inv_other o h b n c c2 fb fb2 a :
  store_inv (Mem o h b n) → o !! c = Some fb → c2 ≠ c →
  o !! c2 = Some fb2 → object fb2 = Heap a →
  object fb ≠ Heap a.
Proof.
  intros [Hfb Hown Hfresh] Hl Hne Hl2 Ho Ho'. cbn in *.
  apply Hne. by eapply (Hown c2 c).
Qed.

(** Side conditions of [store_inv_frame]. *)
Ltac in_changed H :=
  repeat (apply elem_of_cons in H as [->|H]); [..|by apply elem_of_nil in H].

Ltac not_changed H :=
  repeat (apply not_elem_of_cons in H as [? H]); clear H.

Ltac lookup_changed H :=
  repeat first [ rewrite lookup_insert_eq in H
               | rewrite lookup_insert_ne in H by congruence
               | rewrite lookup_delete_eq in H
               | rewrite lookup_delete_ne in H by congruence ];
  try discriminate H; try (injection H as <-).

Ltac heap_lookup :=
  repeat first [ rewrite lookup_insert_eq
               | rewrite lookup_insert_ne by (first [congruence|lia])
               | rewrite lookup_delete_ne by (first [congruence|lia]) ].

Ltac solve_fb_ok :=
  unfold fb_ok; cbn [vptr object storage];
  repeat match goal with
         | |- _ ∧ _ => split
         | |- ∃ _, _ => eexists
         | |- _ ∈ _ => set_solver
         | |- _ = _ => first [done | heap_lookup; first [done|eassumption]]
         | |- True => exact I
         end.

Ltac frame_same :=
  let c2 := fresh "c2" in let Hc2 := fresh "Hc2" in
  intros c2 Hc2; not_changed Hc2;
  repeat first [ rewrite lookup_insert_ne by congruence
               | rewrite lookup_delete_ne by congruence ];
  reflexivity.

Ltac frame_fb_ok :=
  let c2 := fresh "c2" in let fb2 := fresh "fb2" in
  let Hc2 := fresh "Hc2" in let Hl2 := fresh "Hl2" in
  intros c2 fb2 Hc2 Hl2; in_changed Hc2; lookup_changed Hl2; solve_fb_ok.

(** Facts about the block [a0] of an unchanged container [c2], against
    every container whose lookup is among the hypotheses. *)
Ltac others_facts Hinv c2 Hl2 Ho2 :=
  let Hblk := fresh "Hblk" in
  pose proof (store_inv_block _ _ _ _ _ _ _ Hinv Hl2 Ho2) as Hblk;
  destruct Hblk as [? ?];
  repeat match goal with
         | Hl : ?o !! ?c = Some ?fb, Hne : c2 ≠ ?c |- _ =>
             let Hx := fresh "Hx" in
             pose proof (store_inv_other _ _ _ _ c c2 fb _ _ Hinv Hl Hne Hl2 Ho2)
               as Hx;
             cbn [object] in Hx; clear Hne
         end.

Ltac frame_keep Hinv :=
  let c2 := fresh "c2" in let fb2 := fresh "fb2" in let a0 := fresh "a0" in
  let Hc2 := fresh "Hc2" in let Hl2 := fresh "Hl2" in
  let Ho2 := fresh "Ho2" in
  intros c2 fb2 a0 Hc2 Hl2 Ho2; not_changed Hc2;
  others_facts Hinv c2 Hl2 Ho2;
  split; [set_solver|heap_lookup; done].

Ltac frame_bound Hinv :=
  let a0 := fresh "a0" in let Ha0 := fresh "Ha0" in
  intros a0 Ha0; set_unfold in Ha0;
  repeat match goal with
         | H : _ ∨ _ |- _ => destruct H
         | H : _ ∧ _ |- _ => destruct H
         end;
  subst; try lia;
  match goal with
  | H : _ ∈ _ |- _ => apply (inv_fresh _ Hinv) in H; cbn in H; lia
  end.

Ltac split_on c2 cs :=
  lazymatch cs with
  | ?x :: ?rest =>
      let E := fresh "E" in
      destruct (decide (c2 = x)) as [E|E];
      [subst c2|split_on c2 rest]
  | _ => idtac
  end.

Ltac frame_uniq Hinv cs :=
  intros ?c1 ?c2 ?fb1 ?fb2 ?a0 ?Hc1 ?Hne ?Hl1 ?Hl2 ?Ho1 ?Ho2;
  match goal with
  | Hc1 : ?c1 ∈ _, Hl1 : _ !! ?c1 = Some ?fb1, Hl2 : _ !! ?c2 = Some ?fb2,
    Ho1 : object ?fb1 = Heap ?a0, Ho2 : object ?fb2 = Heap ?a0 |- _ =>
      in_changed Hc1;
      lookup_changed Hl1; cbn [object] in Ho1; try discriminate Ho1;
      try (injection Ho1 as <-);
      split_on c2 cs; try congruence;
      lookup_changed Hl2; cbn [object] in Ho2; try discriminate Ho2;
      try (others_facts Hinv c2 Hl2 Ho2);
      first [congruence|lia]
  end.

(** ** What each operation does to a store that satisfies the
    invariant *)


Lemma reset_spec m c fb :
  store_inv m → objs m !! c = Some fb →
  ∃ m' s',
    reset c m = Val tt m' ∧ store_inv m'
    ∧ objs m' = <[c := BasicFunction VEmpty Null s' (serializable_vptr fb)]>
                  (objs m)
    ∧ next_addr m' = next_addr m ∧ blocks m' ⊆ blocks m.
Proof.
  destruct m as [o h b n]. intros Hinv Hl. cbn in Hl.
  pose proof (inv_fb _ Hinv c fb Hl) as Hok. apply fb_ok_shape in Hok.
  cbn in Hok. unfold reset, destroy.
  destruct Hok as [s sv|T v sv Hsz Ht|T a v s sv Hsz Hb Hh Ht]; exec;
    eexists _, _; (split; [reflexivity|]); cbn;
    (split; [|split; [by rewrite ?insert_insert_eq|split; [done|set_solver]]]);
    (eapply (store_inv_frame [c]); [exact Hinv|frame_same|frame_fb_ok|..]).
  all: first [frame_uniq Hinv [c]|frame_keep Hinv|frame_bound Hinv].
Qed.



















(** ** The claims about the container *)





(** The example store satisfies the invariant. *)
Lemma example_store_inv : store_inv example_store.
Proof.
  split; cbn.
  - intros c fb Hl. apply lookup_singleton_Some in Hl as [<- <-].
    unfold fb_ok. cbn. split; [done|]. split; [done|]. by eexists.
  - intros c1 c2 fb1 fb2 a Hl1 Hl2.
    apply lookup_singleton_Some in Hl1 as [<- <-].
    by apply lookup_singleton_Some in Hl2 as [<- <-].
  - intros a Ha. by apply elem_of_empty in Ha.
Qed.




(** C6.  [load] first resets the container.  When the archive's empty
    flag is false and the name read from it is not in the registry,
    [load] throws [unknown_callable_type] in the state the reset left:
    the container is empty, with the sentinel table and a null
    [object]. *)
Theorem load_unknown_type_fails_and_leaves_empty reg m c fb ar :
  store_inv m → objs m !! c = Some fb →
  ar_is_empty ar = false → reg !! ar_name ar = None →
  ∃ m' fb',
    reset c m = Val tt m'
    ∧ load reg c ar m = Exn (unknown_callable_type (ar_name ar)) m'
    ∧ objs m' !! c = Some fb'
    ∧ empty fb' = true
    ∧ vptr fb' = get_empty_function_vtable ∧ object fb' = Null
    ∧ store_inv m'.
Proof.
  intros Hinv Hl Hflag Hreg.
  destruct (reset_spec m c fb Hinv Hl) as (m1 & s1 & Hrun & Hinv1 & Ho1 & _).
  exists m1, (BasicFunction VEmpty Null s1 (serializable_vptr fb)).
  split; [done|]. split.
  { unfold load, bind. rewrite Hrun, Hflag. cbn [negb].
    unfold get_serializable_vtable_by_name. by rewrite Hreg. }
  split; [rewrite Ho1; apply lookup_insert_eq|]. done.
Qed.


(** ** More about the container *)

(** Two stores with the same containers: the maps agree at the
    addresses that were written, where the lookups are known. *)
Ltac same_objs c f :=
  f_equal; f_equal; apply map_eq; intros k;
  destruct (decide (k = c)) as [->|?];
  [|destruct (decide (k = f)) as [->|?]];
  repeat first [ rewrite lookup_insert_eq
               | rewrite lookup_insert_ne by congruence ];
  congruence.

(** X11.  Swapping two containers twice leaves the store as it was:
    tables, payloads and buffers are back where they were, and a payload
    held in a buffer is again addressed through its own container.
    Swapping a container with itself changes nothing. *)
Theorem swap_twice_restores_the_store m c f fb ff :
  store_inv m → objs m !! c = Some fb → objs m !! f = Some ff →
  ∃ m1, swap c f m = Val tt m1 ∧ swap c f m1 = Val tt m
        ∧ (c = f → m1 = m).
Proof.
  destruct m as [o h b n]. intros Hinv Hl Hlf. cbn in Hl, Hlf.
  pose proof (inv_fb _ Hinv c fb Hl) as Hok. apply fb_ok_shape in Hok.
  pose proof (inv_fb _ Hinv f ff Hlf) as Hokf.
  apply fb_ok_shape in Hokf. cbn in Hok, Hokf.
  unfold swap.
  destruct (decide (c = f)) as [->|Hne].
  { rewrite Hl in Hlf. injection Hlf as <-.
    destruct Hok; exec; eexists; (split; [reflexivity|]); exec;
      (split; [|intros _]); same_objs f f. }
  destruct Hok as [s sv|T v sv Hsz Ht|T a v s sv Hsz Hb Hh Ht];
    destruct Hokf as [s' sv'|T' v' sv' Hsz' Ht'|T' a' v' s' sv' Hsz' Hb' Hh' Ht'];
    exec; eexists; (split; [reflexivity|]); exec;
    (split; [|done]); same_objs c f.
Qed.

(** X12.  Under the invariant [target<T>] is type safe: when it
    returns an address, a payload of type [T] lives there; and it
    returns null exactly when the container's table is not that of
    [T], be the container empty or holding another type. *)
Theorem target_is_type_safe m c fb T :
  store_inv m → objs m !! c = Some fb →
  (target T fb = Null ↔ vptr fb ≠ get_vtable T)
  ∧ (target T fb ≠ Null →
     ∃ v, read_at (target T fb) m = Val (Some v) m ∧ c_type v = T).
Proof.
  destruct m as [o h b n]. intros Hinv Hl. cbn in Hl.
  pose proof (inv_fb _ Hinv c fb Hl) as Hok. apply fb_ok_shape in Hok.
  cbn in Hok. unfold target, empty, get_vtable.
  destruct Hok as [s sv|T' v sv Hsz Ht|T' a v s sv Hsz Hb Hh Ht];
    cbn [vptr object].
  - rewrite decide_True by (by left). split; [done|done].
  - destruct (decide (T' = T)) as [->|HneT].
    + rewrite decide_False.
      2:{ intros [?|?]; [done|]. by rewrite bool_decide_eq_false_2 in *. }
      split; [split; [done|congruence]|]. intros _. exists v. by exec.
    + rewrite decide_True by (left; congruence).
      split; [split; [congruence|done]|done].
  - destruct (decide (T' = T)) as [->|HneT].
    + rewrite decide_False.
      2:{ intros [?|?]; [done|]. by rewrite bool_decide_eq_false_2 in *. }
      split; [split; [done|congruence]|]. intros _. exists v. by exec.
    + rewrite decide_True by (left; congruence).
      split; [split; [congruence|done]|done].
Qed.

(** X13.  Assigning a non-empty value and asking for it again:
    afterwards the container is not empty, [target] at the value's type
    is the address of a payload equal to the value, [target] at any other
    type is null, and calling the container runs that payload. *)
Theorem assign_then_target_round_trip m c fb f :
  store_inv m → objs m !! c = Some fb → is_empty_function f = false →
  ∃ m' fb',
    assign c f m = Val tt m'
    ∧ objs m' !! c = Some fb'
    ∧ empty fb' = false
    ∧ read_at (target (c_type f) fb') m' = Val (Some f) m'
    ∧ (∀ T, T ≠ c_type f → target T fb' = Null)
    ∧ invoke c m' = Val (Some f) m'.
Proof.
  destruct m as [o h b n]. intros Hinv Hl Hf. cbn in Hl.
  pose proof (inv_fb _ Hinv c fb Hl) as Hok. apply fb_ok_shape in Hok.
  cbn in Hok. unfold assign, destroy. rewrite Hf. cbn [negb].
  destruct (function_storage_size <? sizeof_ (c_type f)) eqn:Hszf;
  destruct Hok as [s sv|T v sv Hsz Ht|T a v s sv Hsz Hb Hh Ht];
    try (destruct (decide (T = c_type f)) as [->|HneT]);
    exec; try congruence;
    eexists _, _; (split; [reflexivity|]); cbn [objs];
    (split; [by rewrite lookup_insert_eq|]);
    unfold target, empty, invoke; exec;
    (split; [done|]); (split; [by heap_lookup|]);
    (split; [intros T' HT'; by rewrite decide_True by (left; congruence)|]);
    by heap_lookup.
Qed.

(** X14.  The move constructor hands the payload over without
    allocating: the new container has the table and the payload of the
    source, a heap block changes owner, a payload in the source's buffer
    is now in the new container's buffer and addressed there, and the
    source is left empty. *)
Theorem move_ctor_hands_over_the_payload m c other fo :
  store_inv m → objs m !! c = None → objs m !! other = Some fo →
  ∃ m' fb' fo',
    move_ctor c other m = Val tt m'
    ∧ objs m' !! c = Some fb' ∧ objs m' !! other = Some fo'
    ∧ vptr fb' = vptr fo ∧ empty fb' = empty fo
    ∧ (∀ v, read_at (object fo) m = Val (Some v) m →
            read_at (object fb') m' = Val (Some v) m')
    ∧ (∀ a, object fo = Heap a → object fb' = Heap a)
    ∧ (object fo = Storage other → object fb' = Storage c)
    ∧ vptr fo' = get_empty_function_vtable ∧ empty fo' = true
    ∧ blocks m' = blocks m ∧ next_addr m' = next_addr m.
Proof.
  destruct m as [o h b n]. intros Hinv Hl Hlo. cbn in Hl, Hlo.
  assert (Hne : c ≠ other) by congruence.
  pose proof (inv_fb _ Hinv other fo Hlo) as Hok. apply fb_ok_shape in Hok.
  cbn in Hok. unfold move_ctor.
  destruct Hok as [s sv|T v sv Hsz Ht|T a v s sv Hsz Hb Hh Ht]; exec;
    eexists _, _, _; (split; [reflexivity|]); cbn [objs blocks next_addr];
    (split; [by heap_lookup|]); (split; [by heap_lookup|]);
    unfold empty; cbn [vptr object]; repeat split; try done;
    try congruence; intros v0; exec; try done.
  all: by intros [= ->].
Qed.

(** X15.  The copy constructor makes a copy of its own: the new
    container has the table of the source and a payload equal to the
    source's at another address, in its own buffer or in a block
    allocated for it, and the source is as it was. *)
Theorem copy_ctor_makes_an_independent_copy m c other fo :
  store_inv m → objs m !! c = None → objs m !! other = Some fo →
  ∃ m' fb',
    copy_ctor c other m = Val tt m'
    ∧ objs m' !! c = Some fb' ∧ objs m' !! other = Some fo
    ∧ vptr fb' = vptr fo ∧ empty fb' = empty fo
    ∧ (∀ v, read_at (object fo) m = Val (Some v) m →
            read_at (object fb') m' = Val (Some v) m'
            ∧ read_at (object fo) m' = Val (Some v) m'
            ∧ object fb' ≠ object fo)
    ∧ (∀ a, object fo = Heap a →
            object fb' = Heap (next_addr m)
            ∧ blocks m' = {[ next_addr m ]} ∪ blocks m)
    ∧ (object fo = Storage other →
       object fb' = Storage c ∧ blocks m' = blocks m).
Proof.
  destruct m as [o h b n]. intros Hinv Hl Hlo. cbn in Hl, Hlo.
  assert (Hne : c ≠ other) by congruence.
  pose proof (inv_fb _ Hinv other fo Hlo) as Hok. apply fb_ok_shape in Hok.
  cbn in Hok. unfold copy_ctor.
  destruct Hok as [s sv|T v sv Hsz Ht|T a v s sv Hsz Hb Hh Ht]; exec;
    eexists _, _; (split; [reflexivity|]); cbn [objs blocks next_addr];
    (split; [by heap_lookup|]); (split; [by heap_lookup|]);
    unfold empty; cbn [vptr object]; (split; [done|]); (split; [done|]);
    try (pose proof (inv_fresh _ Hinv a Hb) as Hlt; cbn in Hlt).
  all: split; [intros v0; exec; intros Hv; try discriminate Hv;
               injection Hv as <-;
               (split; [by heap_lookup|]);
               (split; [heap_lookup; by exec|]);
               first [congruence|intros [= ->]; lia]|].
  all: split; [intros a0 Ha0; try discriminate Ha0; done|].
  all: intros Hs; try discriminate Hs; done.
Qed.


(** X17.  Copy assignment between two containers: the target gets the
    table of the source and a payload equal to the source's at another
    address, and the source is as it was.  When the two had the same
    table, the target keeps its storage and nothing is allocated or
    released. *)
Theorem copy_assign_copies_and_keeps_the_source m c other fb fo :
  store_inv m → objs m !! c = Some fb → objs m !! other = Some fo →
  c ≠ other →
  ∃ m' fb',
    copy_assign c other m = Val tt m'
    ∧ objs m' !! c = Some fb' ∧ objs m' !! other = Some fo
    ∧ vptr fb' = vptr fo ∧ empty fb' = empty fo
    ∧ (∀ v, read_at (object fo) m = Val (Some v) m →
            read_at (object fb') m' = Val (Some v) m'
            ∧ read_at (object fo) m' = Val (Some v) m'
            ∧ object fb' ≠ object fo)
    ∧ (vptr fb = vptr fo →
       object fb' = object fb ∧ blocks m' = blocks m
       ∧ next_addr m' = next_addr m).
Proof.
  destruct m as [o h b n]. intros Hinv Hl Hlo Hne. cbn in Hl, Hlo.
  pose proof (inv_fb _ Hinv c fb Hl) as Hok. apply fb_ok_shape in Hok.
  pose proof (inv_fb _ Hinv other fo Hlo) as Hoko.
  apply fb_ok_shape in Hoko. cbn in Hok, Hoko.
  unfold copy_assign, destroy.
  assert (Hdiff : ∀ a a', object fb = Heap a → object fo = Heap a' → a ≠ a').
  { intros a a' Ha Ha' <-. apply Hne.
    by apply (inv_owner _ Hinv c other fb fo a). }
  destruct Hok as [s sv|T v sv Hsz Ht|T a v s sv Hsz Hb Hh Ht];
    destruct Hoko as [s' sv'|T' v' sv' Hsz' Ht'|T' a' v' s' sv' Hsz' Hb' Hh' Ht'];
    try (destruct (decide (T = T')) as [->|HneT]);
    try (specialize (Hdiff _ _ eq_refl eq_refl));
    exec; try congruence.
  all: eexists _, _; (split; [reflexivity|]); cbn [objs blocks next_addr].
  all: (split; [first [by heap_lookup|eassumption]|]).
  all: (split; [first [by heap_lookup|eassumption]|]).
  all: unfold empty; cbn [vptr object].
  all: (split; [done|]); (split; [done|]).
  all: try (pose proof (inv_fresh _ Hinv a' Hb') as Hlt; cbn in Hlt).
  all: split; [intros v0; exec; intros Hv; try discriminate Hv;
               injection Hv as <-;
               (split; [heap_lookup; by exec|]);
               (split; [heap_lookup; by exec|]);
               first [congruence|intros [= ->]; lia]|].
  all: intros Hv; try (injection Hv as ?); try done; try congruence.
Qed.

(** *** No block is lost *)























(** The store with two containers satisfies the invariant. *)
Lemma two_store_inv : store_inv two_store.
Proof.
  split; cbn.
  - intros c fb Hl.
    apply lookup_insert_Some in Hl as [[<- <-]|[_ Hl]].
    + unfold fb_ok. cbn. split; [done|]. split; [done|]. by eexists.
    + apply lookup_singleton_Some in Hl as [<- <-].
      unfold fb_ok. cbn. split; [done|]. split; [set_solver|].
      by eexists.
  - intros c1 c2 fb1 fb2 a Hl1 Hl2 Ho1 Ho2.
    apply lookup_insert_Some in Hl1 as [[<- <-]|[_ Hl1]]; [done|].
    apply lookup_singleton_Some in Hl1 as [<- <-].
    apply lookup_insert_Some in Hl2 as [[<- <-]|[_ Hl2]]; [done|].
    by apply lookup_singleton_Some in Hl2 as [<- <-].
  - intros a Ha. apply elem_of_singleton in Ha as ->. done.
Qed.

End CallableFacts.

(** ** The container on concrete inputs *)



(** C6 at a concrete input: a name nobody registered, loaded into the
    container of the example store. *)
Lemma load_unknown_type_witness :
  ∃ m' fb',
    Callable.load ∅ 0 (Callable.InputArchive false "unknown_action" 7)
      Callable.example_store
    = Callable.Exn (Callable.unknown_callable_type "unknown_action") m'
    ∧ Callable.objs m' !! 0 = Some fb'
    ∧ Callable.empty fb' = true.
Proof.
  destruct (load_unknown_type_fails_and_leaves_empty ∅ Callable.example_store
              0
              (Callable.BasicFunction (Callable.VOf Callable.fn_ptr_type)
                 (Callable.Storage 0) (Some Callable.some_function) None)
              (Callable.InputArchive false "unknown_action" 7))
    as (m' & fb' & _ & Hrun & Hl & He & _).
  - apply example_store_inv.
  - reflexivity.
  - reflexivity.
  - reflexivity.
  - exists m', fb'. repeat split; assumption.
Defined.


(** ** More of the container on concrete inputs *)

(** X11 at a concrete input: the two containers of the store with
    two. *)
Lemma swap_twice_witness :
  ∃ m1,
    Callable.swap 0 1 Callable.two_store = Callable.Val tt m1
    ∧ Callable.swap 0 1 m1 = Callable.Val tt Callable.two_store.
Proof.
  destruct (swap_twice_restores_the_store Callable.two_store 0 1
              (Callable.BasicFunction (Callable.VOf Callable.fn_ptr_type)
                 (Callable.Storage 0) (Some Callable.some_function) None)
              (Callable.BasicFunction
                 (Callable.VOf (Callable.c_type Callable.big_action))
                 (Callable.Heap 0) None None))
    as (m1 & H1 & H2 & _).
  - apply two_store_inv.
  - reflexivity.
  - reflexivity.
  - exists m1. split; [exact H1|exact H2].
Defined.

(** X12 at a concrete input: the container of the example store,
    asked for a function pointer. *)
Lemma target_is_type_safe_witness :
  ∃ v,
    Callable.read_at
      (Callable.target Callable.fn_ptr_type
         (Callable.BasicFunction (Callable.VOf Callable.fn_ptr_type)
            (Callable.Storage 0) (Some Callable.some_function) None))
      Callable.example_store
    = Callable.Val (Some v) Callable.example_store
    ∧ Callable.c_type v = Callable.fn_ptr_type.
Proof.
  apply (proj2 (target_is_type_safe Callable.example_store 0
                  (Callable.BasicFunction (Callable.VOf Callable.fn_ptr_type)
                     (Callable.Storage 0) (Some Callable.some_function) None)
                  Callable.fn_ptr_type example_store_inv eq_refl)).
  discriminate.
Defined.

(** X13 at a concrete input: a payload too large for the buffer is
    assigned to the container of the example store. *)
Lemma assign_then_target_witness :
  ∃ m' fb',
    Callable.assign 0 Callable.big_action Callable.example_store
    = Callable.Val tt m'
    ∧ Callable.objs m' !! 0 = Some fb'
    ∧ Callable.invoke 0 m' = Callable.Val (Some Callable.big_action) m'.
Proof.
  destruct (assign_then_target_round_trip Callable.example_store 0
              (Callable.BasicFunction (Callable.VOf Callable.fn_ptr_type)
                 (Callable.Storage 0) (Some Callable.some_function) None)
              Callable.big_action)
    as (m' & fb' & Hrun & Hl & _ & _ & _ & Hcall).
  - apply example_store_inv.
  - reflexivity.
  - reflexivity.
  - exists m', fb'. split; [exact Hrun|]. split; [exact Hl|exact Hcall].
Defined.

(** X14 at a concrete input: a container is move-constructed at
    address 2 from the one that holds the heap block. *)
Lemma move_ctor_witness :
  ∃ m' fb' fo',
    Callable.move_ctor 2 1 Callable.two_store = Callable.Val tt m'
    ∧ Callable.objs m' !! 2 = Some fb'
    ∧ Callable.objs m' !! 1 = Some fo'
    ∧ Callable.object fb' = Callable.Heap 0
    ∧ Callable.empty fo' = true
    ∧ Callable.next_addr m' = 1.
Proof.
  destruct (move_ctor_hands_over_the_payload Callable.two_store 2 1
              (Callable.BasicFunction
                 (Callable.VOf (Callable.c_type Callable.big_action))
                 (Callable.Heap 0) None None))
    as (m' & fb' & fo' & Hrun & Hl & Hlo & _ & _ & _ & Hheap & _ & _ & He
        & _ & Hn).
  - apply two_store_inv.
  - reflexivity.
  - reflexivity.
  - exists m', fb', fo'. split; [exact Hrun|]. split; [exact Hl|].
    split; [exact Hlo|]. split; [exact (Hheap 0 eq_refl)|].
    split; [exact He|exact Hn].
Defined.

(** X15 at a concrete input: a container is copy-constructed at
    address 2 from the one that holds the heap block. *)
Lemma copy_ctor_witness :
  ∃ m' fb',
    Callable.copy_ctor 2 1 Callable.two_store = Callable.Val tt m'
    ∧ Callable.objs m' !! 2 = Some fb'
    ∧ Callable.object fb' = Callable.Heap 1
    ∧ Callable.read_at (Callable.object fb') m'
      = Callable.Val (Some Callable.big_action) m'
    ∧ Callable.read_at (Callable.Heap 0) m'
      = Callable.Val (Some Callable.big_action) m'.
Proof.
  destruct (copy_ctor_makes_an_independent_copy Callable.two_store 2 1
              (Callable.BasicFunction
                 (Callable.VOf (Callable.c_type Callable.big_action))
                 (Callable.Heap 0) None None))
    as (m' & fb' & Hrun & Hl & _ & _ & _ & Hcopy & Hheap & _).
  - apply two_store_inv.
  - reflexivity.
  - reflexivity.
  - destruct (Hcopy Callable.big_action eq_refl) as (Hr & Hr' & _).
    exists m', fb'. split; [exact Hrun|]. split; [exact Hl|].
    split; [exact (proj1 (Hheap 0 eq_refl))|]. split; [exact Hr|exact Hr'].
Defined.


(** X17 at a concrete input: the container that holds the function
    pointer is copy-assigned from the other one. *)
Lemma copy_assign_witness :
  ∃ m' fb',
    Callable.copy_assign 0 1 Callable.two_store = Callable.Val tt m'
    ∧ Callable.objs m' !! 0 = Some fb'
    ∧ Callable.read_at (Callable.object fb') m'
      = Callable.Val (Some Callable.big_action) m'
    ∧ Callable.object fb' ≠ Callable.Heap 0.
Proof.
  destruct (copy_assign_copies_and_keeps_the_source Callable.two_store 0 1
              (Callable.BasicFunction (Callable.VOf Callable.fn_ptr_type)
                 (Callable.Storage 0) (Some Callable.some_function) None)
              (Callable.BasicFunction
                 (Callable.VOf (Callable.c_type Callable.big_action))
                 (Callable.Heap 0) None None))
    as (m' & fb' & Hrun & Hl & _ & _ & _ & Hcopy & _).
  - apply two_store_inv.
  - reflexivity.
  - reflexivity.
  - discriminate.
  - destruct (Hcopy Callable.big_action eq_refl) as (Hr & _ & Hne).
    exists m', fb'. split; [exact Hrun|]. split; [exact Hl|].
    split; [exact Hr|exact Hne].
Defined.

